(** * Quercus name list: line classification and synonym reconciliation

    A shallow embedding of [scrapers/oaksoftheworld/name_parser.py] (the
    line classifier, the five entry parsers and the aggregator), of
    [normalize_species_name], the nested [resolve_synonym],
    [split_list_field] and [build_hybrid_relationships] of
    [scrapers/oaksoftheworld/parser.py] and of the hand-off at the end of
    [scrapers/oaksoftheworld/scraper.py].

    Python strings are sequences of code points; they are modelled as
    lists of [N].  The regular expressions of the source are kept as
    regular expressions and run by a backtracking matcher that follows the
    priorities of Python's [re] (leftmost match, greedy and lazy
    repetition, ordered alternation). *)

From Stdlib Require Import NArith String Ascii Sorting.Sorted Permutation.
From stdpp Require Import gmap list.

Local Open Scope N_scope.
Local Open Scope nat_scope.

(** ** Python strings *)

Definition char := N.
Definition str := list N.

(** Code points of a literal written in this file (UTF-8 decoded, so that
    the multiplication sign of hybrid names can be written as such). *)
Fixpoint utf8_go (cont : nat) (acc : N) (bs : list N) : str :=
  match bs with
  | [] => []
  | b :: bs' =>
      match cont with
      | O =>
          if (b <? 128)%N then b :: utf8_go 0 0%N bs'
          else if (b <? 224)%N then utf8_go 1 (b - 192)%N bs'
          else if (b <? 240)%N then utf8_go 2 (b - 224)%N bs'
          else utf8_go 3 (b - 240)%N bs'
      | S c =>
          let acc' := (acc * 64 + (b - 128))%N in
          match c with
          | O => acc' :: utf8_go 0 0%N bs'
          | S _ => utf8_go c acc' bs'
          end
      end
  end.

Definition utf8 (s : string) : str :=
  utf8_go 0 0%N (List.map N_of_ascii (list_ascii_of_string s)).

(** [str.isspace] for one code point; the same set is [\s] of [re]. *)
Definition isspace (c : char) : bool :=
  ((9 <=? c) && (c <=? 13) || (28 <=? c) && (c <=? 32)
   || (c =? 133) || (c =? 160) || (c =? 5760)
   || (8192 <=? c) && (c <=? 8202)
   || (c =? 8232) || (c =? 8233) || (c =? 8239) || (c =? 8287)
   || (c =? 12288))%N.

Definition str_eqb (a b : str) : bool := bool_decide (a = b).

(** Truth value of a string, of an optional string and of a list. *)
Definition truthy (s : str) : bool :=
  match s with [] => false | _ :: _ => true end.

Definition truthy_opt (o : option str) : bool :=
  match o with Some s => truthy s | None => false end.

Definition nonempty {A} (l : list A) : bool :=
  match l with [] => false | _ :: _ => true end.

(** [s.lstrip()], [s.rstrip()], [s.strip()] *)
Fixpoint lstrip (s : str) : str :=
  match s with
  | c :: s' => if isspace c then lstrip s' else s
  | [] => []
  end.

Fixpoint rstrip (s : str) : str :=
  match s with
  | [] => []
  | c :: s' =>
      match rstrip s' with
      | [] => if isspace c then [] else [c]
      | r => c :: r
      end
  end.

Definition strip (s : str) : str := rstrip (lstrip s).

(** [s.split()]: the maximal runs of non-space characters.  [cur] is the
    word being read, reversed. *)
Fixpoint split_go (cur : str) (s : str) : list str :=
  match s with
  | [] => match cur with [] => [] | _ => [rev cur] end
  | c :: s' =>
      if isspace c
      then match cur with
           | [] => split_go [] s'
           | _ => rev cur :: split_go [] s'
           end
      else split_go (c :: cur) s'
  end.

Definition split (s : str) : list str := split_go [] s.

(** [s.split(sep)] for a one-character separator: never empty. *)
Fixpoint split_on_go (sep : char) (cur : str) (s : str) : list str :=
  match s with
  | [] => [rev cur]
  | c :: s' =>
      if (c =? sep)%N then rev cur :: split_on_go sep [] s'
      else split_on_go sep (c :: cur) s'
  end.

Definition split_on (sep : char) (s : str) : list str := split_on_go sep [] s.

(** [sep.join(ws)] *)
Fixpoint join (sep : str) (ws : list str) : str :=
  match ws with
  | [] => []
  | [w] => w
  | w :: ws' => w ++ sep ++ join sep ws'
  end.

Fixpoint startswith (s p : str) : bool :=
  match p, s with
  | [], _ => true
  | a :: p', b :: s' => (a =? b)%N && startswith s' p'
  | _ :: _, [] => false
  end.

(** ** Regular expressions *)

Inductive regex : Type :=
| rEps
| rChr (p : char -> bool)
| rSeq (r1 r2 : regex)
| rAlt (r1 r2 : regex)
| rStar (r : regex)            (* r*   greedy *)
| rLazy (r : regex)            (* r*?  lazy *)
| rGroup (i : nat) (r : regex) (* the i-th capturing group *)
| rBol.                        (* ^ without MULTILINE *)

Definition rPlus (r : regex) : regex := rSeq r (rStar r).
Definition rOpt (r : regex) : regex := rAlt r rEps.

Definition caps := list (nat * str).

Definition group (i : nat) (c : caps) : str :=
  match List.find (fun p => Nat.eqb (fst p) i) c with
  | Some p => snd p
  | None => []
  end.

(** The matcher.  [off] is the offset of [s] in the subject; the
    continuation [k] receives the state after the match and may refuse it,
    which makes the matcher try its next alternative.  One more round of a
    repetition is only accepted when it consumed something. *)
Fixpoint rx {R} (r : regex) (off : nat) (s : str) (c : caps)
    (k : nat -> str -> caps -> option R) : option R :=
  match r with
  | rEps => k off s c
  | rChr p =>
      match s with
      | a :: s' => if p a then k (S off) s' c else None
      | [] => None
      end
  | rSeq r1 r2 => rx r1 off s c (fun off' s' c' => rx r2 off' s' c' k)
  | rAlt r1 r2 =>
      match rx r1 off s c k with
      | Some x => Some x
      | None => rx r2 off s c k
      end
  | rStar r1 =>
      (fix loop (n : nat) (off : nat) (s : str) (c : caps) : option R :=
         match n with
         | O => k off s c
         | S n' =>
             match rx r1 off s c
                     (fun off' s' c' =>
                        if Nat.ltb off off' then loop n' off' s' c' else None)
             with
             | Some x => Some x
             | None => k off s c
             end
         end) (length s) off s c
  | rLazy r1 =>
      (fix loop (n : nat) (off : nat) (s : str) (c : caps) : option R :=
         match k off s c with
         | Some x => Some x
         | None =>
             match n with
             | O => None
             | S n' =>
                 rx r1 off s c
                   (fun off' s' c' =>
                      if Nat.ltb off off' then loop n' off' s' c' else None)
             end
         end) (length s) off s c
  | rGroup i r1 =>
      rx r1 off s c
        (fun off' s' c' => k off' s' ((i, take (off' - off) s) :: c'))
  | rBol => if Nat.eqb off 0 then k off s c else None
  end.

(** A match: where it starts, where it ends, and its groups. *)
Record rmatch := { m_start : nat; m_end : nat; m_caps : caps }.

Definition match_at (r : regex) (off : nat) (s : str) : option rmatch :=
  rx r off s [] (fun off' _ c => Some {| m_start := off; m_end := off'; m_caps := c |}).

(** [re.match(r, s)] *)
Definition re_match (r : regex) (s : str) : option rmatch := match_at r 0 s.

(** The leftmost match in [s], which sits at offset [off] of the subject. *)
Fixpoint search_from (r : regex) (off : nat) (s : str) : option rmatch :=
  match match_at r off s with
  | Some m => Some m
  | None =>
      match s with
      | [] => None
      | _ :: s' => search_from r (S off) s'
      end
  end.

(** [re.search(r, s)] *)
Definition re_search (r : regex) (s : str) : option rmatch := search_from r 0 s.

(** [re.split(r, s, maxsplit=1)], for a pattern that matches no empty
    string. *)
Definition re_split1 (r : regex) (s : str) : list str :=
  match re_search r s with
  | Some m => [take (m_start m) s; drop (m_end m) s]
  | None => [s]
  end.

(** The successive non-overlapping matches, as [re.finditer] and [re.sub]
    find them; [s] sits at offset [off].  After an empty match the scan
    moves one character on. *)
Fixpoint scan (fuel : nat) (r : regex) (off : nat) (s : str) : list rmatch :=
  match fuel with
  | O => []
  | S fuel' =>
      match search_from r off s with
      | None => []
      | Some m =>
          let e := if Nat.ltb (m_start m) (m_end m) then m_end m else S (m_end m) in
          m :: scan fuel' r e (drop (e - off) s)
      end
  end.

Definition re_finditer (r : regex) (s : str) : list rmatch :=
  scan (S (length s)) r 0 s.

(** [re.sub(r, '', s)]: what is left of [s], which sits at offset [off],
    once the matches [ms] are cut out. *)
Fixpoint cut (ms : list rmatch) (off : nat) (s : str) : str :=
  match ms with
  | [] => s
  | m :: ms' =>
      take (m_start m - off) s ++ cut ms' (m_end m) (drop (m_end m - off) s)
  end.

Definition re_sub_empty (r : regex) (s : str) : str :=
  cut (re_finditer r s) 0 s.

(** *** Building patterns *)

Definition ch_is (c : char) : char -> bool := fun a => (a =? c)%N.
Definition ch_isnt (c : char) : char -> bool := fun a => negb (a =? c)%N.

(** One literal character under [re.IGNORECASE]: a letter matches both of
    its cases, and the three letters with a further equivalent in
    [sre]'s table match that one too. *)
Definition ch_is_i (c : char) : char -> bool :=
  fun a =>
    ((a =? c)
     || (97 <=? c) && (c <=? 122) && (a =? c - 32)
     || (65 <=? c) && (c <=? 90) && (a =? c + 32)
     || ((c =? 115) || (c =? 83)) && (a =? 383)
     || ((c =? 107) || (c =? 75)) && (a =? 8490)
     || ((c =? 105) || (c =? 73)) && ((a =? 304) || (a =? 305)))%N.

Fixpoint rcat (rs : list regex) : regex :=
  match rs with
  | [] => rEps
  | [r] => r
  | r :: rs' => rSeq r (rcat rs')
  end.

(** A literal string, case-sensitive or not. *)
Definition lit (s : string) : regex := rcat (List.map (fun c => rChr (ch_is c)) (utf8 s)).
Definition lit_i (s : string) : regex := rcat (List.map (fun c => rChr (ch_is_i c)) (utf8 s)).

Definition ws : regex := rChr isspace.
Definition dot : regex := rChr (ch_isnt 10%N).

(** ** The patterns of [name_parser.py] *)

(** [<a\s+href=Q(quercus_[^Q]+\.htm)Q[^>]*>(.*?)</a>], IGNORECASE, where
    Q stands for the double quote (code point 34) *)
Definition link_re : regex :=
  rcat [lit_i "<a"; rPlus ws; lit_i "href="; rChr (ch_is 34%N);
        rGroup 1 (rcat [lit_i "quercus_"; rPlus (rChr (ch_isnt 34%N)); lit_i ".htm"]);
        rChr (ch_is 34%N); rStar (rChr (ch_isnt 62%N)); lit ">";
        rGroup 2 (rLazy dot); lit_i "</a>"].

(** [quercus_([^.]+)\.htm], IGNORECASE *)
Definition species_re : regex :=
  rcat [lit_i "quercus_"; rGroup 1 (rPlus (rChr (ch_isnt 46%N))); lit_i ".htm"].

(** [<[^>]+>] *)
Definition tag_re : regex :=
  rcat [lit "<"; rPlus (rChr (ch_isnt 62%N)); lit ">"].

(** [\(x\)|×|x\.], IGNORECASE *)
Definition hybrid_re : regex :=
  rAlt (lit_i "(x)") (rAlt (lit_i "×") (lit_i "x.")).

(** [:\s*see:?\s+], IGNORECASE *)
Definition see_re : regex :=
  rcat [lit ":"; rStar ws; lit_i "see"; rOpt (lit ":"); rPlus ws].

(** [\s*=\s+] *)
Definition equals_re : regex :=
  rcat [rStar ws; lit "="; rPlus ws].

(** [^\s*(?:<[^>]+>)*\s*<a\s+href=Qquercus_], IGNORECASE *)
Definition leading_link_re : regex :=
  rcat [rBol; rStar ws; rStar tag_re; rStar ws; lit_i "<a"; rPlus ws;
        lit_i "href="; rChr (ch_is 34%N); lit_i "quercus_"].

(** [^[×x]\s*], IGNORECASE *)
Definition leading_x_re : regex :=
  rcat [rBol; rChr (fun a => ch_is_i 215%N a || ch_is_i 120%N a); rStar ws].

(** [\(x\)|x\.], IGNORECASE *)
Definition marker_re : regex :=
  rAlt (lit_i "(x)") (lit_i "x.").

(** ** What the model takes from Python's library

    [html.unescape], [urllib.parse.urljoin] and [str.lower] are not code of
    the repository; the parser is stated over any three functions in their
    place. *)
Record PyLib := {
  html_unescape : str -> str;
  urljoin : str -> str -> str;
  lower : str -> str
}.

(** ** Entries *)

Inductive entry_type : Type :=
| ACCEPTED_SPECIES | ACCEPTED_HYBRID | SYNONYM_EQUALS | SYNONYM_SEE | OTHER_LINK.

(** A synonym sub-record [{'name': ..., 'author': ...}] *)
Record synonym := { syn_name : option str; syn_author : option str }.

Record entry := {
  e_type : entry_type;
  species_name : str;
  author : option str;
  url : str;
  is_hybrid_flag : bool;
  synonyms : list synonym;
  raw_line : str
}.

(** The notes handed to [log_inconsistency], one constructor per message,
    with the values the message interpolates. *)
Inductive note : Type :=
| MultipleLinks (hrefs : gset str) (line_text : str)
| NoSpeciesName (line_text : str)
| SpeciesMismatch (text url_name : str)
| HybridMismatch (text url_name : str)
| SynonymTargetMismatch (text url_name : str) (line : option str)
| OtherLinkNotFound (url_name visible : str).

(** A computation that may log: its value and the notes it wrote, oldest
    first. *)
Definition logged (A : Type) : Type := (A * list note)%type.

Definition ret {A} (a : A) : logged A := (a, []).
Definition bind {A B} (m : logged A) (f : A -> logged B) : logged B :=
  let (a, n1) := m in let (b, n2) := f a in (b, n1 ++ n2).
Definition log_inconsistency (n : note) : logged unit := (tt, [n]).
Definition log_when (b : bool) (n : note) : logged unit :=
  if b then log_inconsistency n else ret tt.

Notation "'let*' x ':=' m 'in' k" := (bind m (fun x => k))
  (at level 10, x name, k at level 200).
Notation "m ';;;' k" := (bind m (fun _ => k))
  (at level 100, right associativity).

Definition space : str := [32%N].

Section NameParser.

Variable py : PyLib.

(** [extract_links_from_line]: the [(href, link_text)] pairs of a line. *)
Definition extract_links_from_line (line : str) : list (str * str) :=
  List.map
    (fun m =>
       let href := group 1 (m_caps m) in
       let link_html := group 2 (m_caps m) in
       let link_text := strip (re_sub_empty tag_re link_html) in
       let link_text := html_unescape py link_text in
       (href, link_text))
    (re_finditer link_re line).

(** [extract_species_from_url]: [quercus_alba.htm] gives [alba]. *)
Definition extract_species_from_url (u : str) : option str :=
  match re_search species_re u with
  | Some m => Some (group 1 (m_caps m))
  | None => None
  end.

(** [strip_html_tags] *)
Definition strip_html_tags (text : str) : str :=
  let text := strip (re_sub_empty tag_re text) in
  html_unescape py text.

(** [is_hybrid] *)
Definition is_hybrid (text : str) : bool :=
  bool_decide (is_Some (re_search hybrid_re text)).

(** The first-word rule the parsers share: [words[0].strip()] and
    [' '.join(words[1:]).strip() if len(words) > 1 else None]. *)
Definition first_word (words : list str) : option str :=
  match words with
  | w :: _ => Some (strip w)
  | [] => None
  end.

Definition rest_author (words : list str) : option str :=
  if Nat.ltb 1 (length words) then Some (strip (join space (List.tl words))) else None.

(** [if author and not author.strip(): author = None] *)
Definition drop_blank (a : option str) : option str :=
  match a with
  | Some s => if truthy s && negb (truthy (strip s)) then None else Some s
  | None => None
  end.

(** The same with the [elif author: author = author.strip()] of the hybrid
    parser. *)
Definition drop_blank_strip (a : option str) : option str :=
  match a with
  | Some s =>
      if truthy s && negb (truthy (strip s)) then None
      else if truthy s then Some (strip s) else Some s
  | None => None
  end.

(** [a.lower() != b.lower()] *)
Definition differs (a b : str) : bool :=
  negb (str_eqb (lower py a) (lower py b)).

(** [parse_accepted_species] *)
Definition parse_accepted_species (visible_text u species_from_url line : str)
  : logged (option entry) :=
  let words := split visible_text in
  match words with
  | [] => ret None
  | w0 :: _ =>
      let species_from_text := strip w0 in
      let author := rest_author words in
      let author := drop_blank author in
      log_when (differs species_from_text species_from_url)
        (SpeciesMismatch species_from_text species_from_url) ;;;
      ret (Some {| e_type := ACCEPTED_SPECIES;
                   species_name := species_from_url;
                   author := author;
                   url := u;
                   is_hybrid_flag := false;
                   synonyms := [];
                   raw_line := line |})
  end.

(** [parse_accepted_hybrid] *)
Definition parse_accepted_hybrid (visible_text u species_from_url line : str)
  : logged (option entry) :=
  let words :=
    if startswith visible_text (utf8 "×")
       || startswith (lower py visible_text) (utf8 "x ")
    then split (strip (re_sub_empty leading_x_re visible_text))
    else split (strip (re_sub_empty marker_re visible_text)) in
  let species_from_text := first_word words in
  let author := rest_author words in
  let author := drop_blank_strip author in
  log_when (match species_from_text with
            | Some t => truthy t && differs t species_from_url
            | None => false
            end)
    (HybridMismatch (default [] species_from_text) species_from_url) ;;;
  ret (Some {| e_type := ACCEPTED_HYBRID;
               species_name := species_from_url;
               author := author;
               url := u;
               is_hybrid_flag := true;
               synonyms := [];
               raw_line := line |}).

(** The right-hand side of an equals line: the name read from the text and
    the words of the author (the [if]/[elif]/[else] on [accepted_words]). *)
Definition equals_rhs (accepted_words : list str) : option str * list str :=
  match accepted_words with
  | w0 :: w1 :: rest =>
      if str_eqb (lower py (strip w0)) (utf8 "x")
      then (Some (strip w1), rest)
      else (Some (strip w0), w1 :: rest)
  | [w0] => (Some (strip w0), [])
  | [] => (None, [])
  end.

(** [' '.join(author_words).strip() if author_words else None] *)
Definition join_author (author_words : list str) : option str :=
  if nonempty author_words then Some (strip (join space author_words)) else None.

(** [parse_synonym_equals] *)
Definition parse_synonym_equals (visible_text u species_from_url line : str)
  : logged (option entry) :=
  match re_split1 equals_re visible_text with
  | [p0; p1] =>
      let synonym_part := strip p0 in
      let accepted_part := strip p1 in
      let synonym_words := split synonym_part in
      let synonym_name := first_word synonym_words in
      let synonym_author := drop_blank (rest_author synonym_words) in
      let accepted_words := split accepted_part in
      let '(accepted_name_text, author_words) := equals_rhs accepted_words in
      let accepted_author := drop_blank (join_author author_words) in
      log_when (match accepted_name_text with
                | Some t => truthy t && differs t species_from_url
                | None => false
                end)
        (SynonymTargetMismatch (default [] accepted_name_text) species_from_url
           (Some line)) ;;;
      let hybrid := is_hybrid accepted_part in
      ret (Some {| e_type := SYNONYM_EQUALS;
                   species_name := species_from_url;
                   author := accepted_author;
                   url := u;
                   is_hybrid_flag := hybrid;
                   synonyms := [ {| syn_name := synonym_name;
                                    syn_author := synonym_author |} ];
                   raw_line := line |})
  | _ => ret None
  end.

(** One comma-separated item left of the see separator: the sub-record it
    contributes, if any (the body of the [for syn in ...] loop). *)
Definition see_item (item : str) : option synonym :=
  let syn := strip item in
  if truthy syn then
    let syn_words := split syn in
    let name := first_word syn_words in
    let auth := drop_blank (rest_author syn_words) in
    if truthy_opt name
    then Some {| syn_name := name; syn_author := auth |}
    else None
  else None.

(** [parse_synonym_see] *)
Definition parse_synonym_see (visible_text u species_from_url line : str)
  : logged (option entry) :=
  match re_split1 see_re visible_text with
  | [p0; p1] =>
      let synonyms_part := strip p0 in
      let accepted_part := strip p1 in
      let synonym_entries := omap see_item (split_on 44%N synonyms_part) in
      let accepted_words := split accepted_part in
      let accepted_name_text := first_word accepted_words in
      let accepted_author := drop_blank (rest_author accepted_words) in
      log_when (match accepted_name_text with
                | Some t => truthy t && differs t species_from_url
                | None => false
                end)
        (SynonymTargetMismatch (default [] accepted_name_text) species_from_url
           None) ;;;
      let hybrid := is_hybrid accepted_part in
      ret (Some {| e_type := SYNONYM_SEE;
                   species_name := species_from_url;
                   author := accepted_author;
                   url := u;
                   is_hybrid_flag := hybrid;
                   synonyms := synonym_entries;
                   raw_line := line |})
  | _ => ret None
  end.

(** The loop of [parse_other_link]: the first word equal to the link's
    name up to case, and the author after it. *)
Fixpoint find_name (species_from_url : str) (words : list str)
  : option str * option str :=
  match words with
  | [] => (None, None)
  | word :: rest =>
      if str_eqb (lower py word) (lower py species_from_url)
      then (Some word,
            if nonempty rest then Some (strip (join space rest)) else None)
      else find_name species_from_url rest
  end.

(** [parse_other_link] *)
Definition parse_other_link (visible_text u species_from_url line : str)
  : logged (option entry) :=
  let words := split visible_text in
  let '(species_from_text, author) := find_name species_from_url words in
  let author := drop_blank author in
  log_when (negb (truthy_opt species_from_text))
    (OtherLinkNotFound species_from_url visible_text) ;;;
  let hybrid := is_hybrid visible_text in
  ret (Some {| e_type := OTHER_LINK;
               species_name := species_from_url;
               author := author;
               url := u;
               is_hybrid_flag := hybrid;
               synonyms := [];
               raw_line := line |}).

(** [parse_line] *)
Definition parse_line (line base_url : str) : logged (option entry) :=
  let line := strip line in
  let links := extract_links_from_line line in
  match links with
  | [] => ret None
  | (main_href, _) :: _ =>
      let unique_hrefs : gset str := list_to_set (List.map fst links) in
      log_when (Nat.ltb 1 (size unique_hrefs))
        (MultipleLinks unique_hrefs (strip_html_tags line)) ;;;
      let main_url := urljoin py base_url main_href in
      match extract_species_from_url main_href with
      | Some species_from_url =>
          if truthy species_from_url then
            let visible_text := strip_html_tags line in
            if bool_decide (is_Some (re_search see_re visible_text)) then
              parse_synonym_see visible_text main_url species_from_url line
            else if bool_decide (is_Some (re_search equals_re visible_text)) then
              parse_synonym_equals visible_text main_url species_from_url line
            else if bool_decide (is_Some (re_match leading_link_re line)) then
              if is_hybrid visible_text
              then parse_accepted_hybrid visible_text main_url species_from_url line
              else parse_accepted_species visible_text main_url species_from_url line
            else parse_other_link visible_text main_url species_from_url line
          else
            log_inconsistency (NoSpeciesName (strip_html_tags line)) ;;; ret None
      | None =>
          log_inconsistency (NoSpeciesName (strip_html_tags line)) ;;; ret None
      end
  end.

End NameParser.

(** Stand-ins for the library on the inputs of the worked examples: text
    without an ampersand (where [html.unescape] returns its argument),
    a base that ends in a slash with a relative link, and ASCII letters. *)
Definition ascii_lower (s : str) : str :=
  List.map (fun c => if ((65 <=? c) && (c <=? 90))%N then (c + 32)%N else c) s.

Definition py_plain : PyLib :=
  {| html_unescape := fun s => s;
     urljoin := fun base href => base ++ href;
     lower := ascii_lower |}.

(** ** The aggregator of [parse_species_list_html] *)

(** A Python [dict] with string keys, in insertion order: assigning to a
    key that is present keeps its place, a new key goes last. *)
Definition dict (V : Type) : Type := list (str * V).

Fixpoint dict_get {V} (k : str) (d : dict V) : option V :=
  match d with
  | [] => None
  | (k', v) :: d' => if str_eqb k' k then Some v else dict_get k d'
  end.

Fixpoint dict_set {V} (k : str) (v : V) (d : dict V) : dict V :=
  match d with
  | [] => [(k, v)]
  | (k', v') :: d' =>
      if str_eqb k' k then (k', v) :: d' else (k', v') :: dict_set k v d'
  end.

Definition dict_mem {V} (k : str) (d : dict V) : bool :=
  bool_decide (is_Some (dict_get k d)).

Definition dict_values {V} (d : dict V) : list V := List.map snd d.
Definition dict_keys {V} (d : dict V) : list str := List.map fst d.

(** A synonym attached to an accepted record, [{'name': ..., 'author': ...}]. *)
Record attached := { at_name : str; at_author : option str }.

(** A value of [accepted_species]. *)
Record accepted := {
  a_name : str;
  a_author : option str;
  a_url : str;
  a_is_hybrid : bool;
  a_synonyms : list attached
}.

(** An element of a list of [synonym_map]. *)
Record mapping := { accepted_name : str; synonym_author : option str }.

Record state := {
  accepted_species : dict accepted;
  synonym_map : dict (list mapping)
}.

Definition empty_state : state :=
  {| accepted_species := []; synonym_map := [] |}.

(** The record made at the first sighting of a name. *)
Definition new_record (parsed : entry) : accepted :=
  {| a_name := species_name parsed;
     a_author := author parsed;
     a_url := url parsed;
     a_is_hybrid := is_hybrid_flag parsed;
     a_synonyms := [] |}.

(** The update of a record that exists ([else] branch, lines 406-411). *)
Definition merge_record (r : accepted) (parsed : entry) : accepted :=
  let r :=
    if truthy_opt (author parsed) && negb (truthy_opt (a_author r))
    then {| a_name := a_name r; a_author := author parsed; a_url := a_url r;
            a_is_hybrid := a_is_hybrid r; a_synonyms := a_synonyms r |}
    else r in
  if is_hybrid_flag parsed
  then {| a_name := a_name r; a_author := a_author r; a_url := a_url r;
          a_is_hybrid := true; a_synonyms := a_synonyms r |}
  else r.

(** [synonym_map[syn_name].append(...)], with the list made when absent. *)
Definition add_mapping (sm : dict (list mapping)) (species : str) (syn : synonym)
  : dict (list mapping) :=
  match syn_name syn with
  | Some n =>
      if truthy n then
        let old := default [] (dict_get n sm) in
        dict_set n (old ++ [ {| accepted_name := species;
                               synonym_author := syn_author syn |} ]) sm
      else sm
  | None => sm
  end.

(** The body of the loop over the lines, for a line that parsed. *)
Definition fold_entry (st : state) (parsed : entry) : state :=
  let name := species_name parsed in
  match e_type parsed with
  | ACCEPTED_SPECIES | ACCEPTED_HYBRID =>
      match dict_get name (accepted_species st) with
      | None =>
          {| accepted_species := dict_set name (new_record parsed) (accepted_species st);
             synonym_map := synonym_map st |}
      | Some r =>
          {| accepted_species := dict_set name (merge_record r parsed) (accepted_species st);
             synonym_map := synonym_map st |}
      end
  | SYNONYM_EQUALS | SYNONYM_SEE | OTHER_LINK =>
      let sm := List.fold_left (fun sm syn => add_mapping sm name syn)
                  (synonyms parsed) (synonym_map st) in
      let acc :=
        if dict_mem name (accepted_species st) then accepted_species st
        else dict_set name (new_record parsed) (accepted_species st) in
      {| accepted_species := acc; synonym_map := sm |}
  end.

(** The fold over a sequence of entries. *)
Definition fold_entries (st : state) (es : list entry) : state :=
  List.fold_left fold_entry es st.

(** [r['synonyms'].append(a)] *)
Definition append_synonym (r : accepted) (a : attached) : accepted :=
  {| a_name := a_name r; a_author := a_author r; a_url := a_url r;
     a_is_hybrid := a_is_hybrid r; a_synonyms := a_synonyms r ++ [a] |}.

(** The final step: one mapping of [syn_name] attached to its record. *)
Definition attach_one (acc : dict accepted) (syn_name : str) (syn_info : mapping)
  : dict accepted :=
  match dict_get (accepted_name syn_info) acc with
  | Some r =>
      dict_set (accepted_name syn_info)
        (append_synonym r {| at_name := syn_name;
                             at_author := synonym_author syn_info |})
        acc
  | None => acc
  end.

Definition attach_synonyms (acc : dict accepted) (sm : dict (list mapping))
  : dict accepted :=
  List.fold_left
    (fun acc kv =>
       List.fold_left (fun acc syn_info => attach_one acc (fst kv) syn_info)
         (snd kv) acc)
    sm acc.

(** What the function returns from the state the fold has reached. *)
Definition finish (st : state) : list accepted * dict (list mapping) :=
  (dict_values (attach_synonyms (accepted_species st) (synonym_map st)),
   synonym_map st).

(** The aggregator on entries: fold from the empty maps, then attach. *)
Definition aggregate (es : list entry) : list accepted * dict (list mapping) :=
  finish (fold_entries empty_state es).

Section ParseList.

Variable py : PyLib.

(** The loop over the lines: each line is parsed, its notes are logged,
    and a line without an entry is skipped. *)
Fixpoint fold_lines (lines : list str) (base_url : str) (st : state)
  : logged state :=
  match lines with
  | [] => ret st
  | line :: lines' =>
      let* parsed := parse_line py line base_url in
      match parsed with
      | None => fold_lines lines' base_url st
      | Some e => fold_lines lines' base_url (fold_entry st e)
      end
  end.

(** [parse_species_list_html] *)
Definition parse_species_list_html (html base_url : str)
  : logged (list accepted * dict (list mapping)) :=
  let lines := split_on 10%N html in
  let* st := fold_lines lines base_url empty_state in
  ret (finish st).

End ParseList.

(** ** The chain resolver of [parser.py] *)

(** [resolve_synonym], nested in [parse_species_list]; the first call has
    [visited] empty.  The function calls itself once for every key it
    follows, and every call takes a frame of the interpreter's stack:
    [frames] is the number of frames the interpreter still grants when the
    call is made.  [None] stands for the RecursionError that a call with no
    frame left raises; nothing in the function catches it.  The walk logs
    nothing: where it finds a name again it returns it (the source says
    Circular reference, return as-is). *)
Fixpoint resolve_synonym (frames : nat) (name : str)
    (synonym_map : gmap str str) (visited : gset str) : option (logged str) :=
  match frames with
  | O => None
  | S frames' =>
      if bool_decide (name ∈ visited) then Some (ret name)
      else
        match synonym_map !! name with
        | None => Some (ret name)
        | Some next =>
            resolve_synonym frames' next synonym_map ({[name]} ∪ visited)
        end
  end.

(** [sys.getrecursionlimit()] as the interpreter starts; the sources never
    call [sys.setrecursionlimit].  A call of [resolve_synonym] is made
    with fewer frames than this left, its callers holding some. *)
Definition recursion_limit : nat := 1000.

(** ** The name and list helpers of [parser.py] *)

(** More of Python's strings. *)

(** [sub in s] *)
Fixpoint contains (sub s : str) : bool :=
  startswith s sub ||
  match s with
  | [] => false
  | _ :: s' => contains sub s'
  end.

(** [s.replace(old, new)] for a non-empty [old]; [skip] counts the
    characters of a replaced occurrence still to pass. *)
Fixpoint replace_go (old new : str) (skip : nat) (s : str) : str :=
  match s with
  | [] => []
  | c :: s' =>
      match skip with
      | S k => replace_go old new k s'
      | O =>
          if startswith s old
          then new ++ replace_go old new (length old - 1) s'
          else c :: replace_go old new 0 s'
      end
  end.

(** [s.replace(old, new)]; an empty [old] is found before every character
    and at the end. *)
Definition str_replace (old new s : str) : str :=
  match old with
  | [] => new ++ concat (List.map (fun c => c :: new) s)
  | _ :: _ => replace_go old new 0 s
  end.

(** [s.replace(old, new, 1)] *)
Fixpoint replace_first (old new s : str) : str :=
  if startswith s old then new ++ drop (length old) s
  else match s with
       | [] => []
       | c :: s' => c :: replace_first old new s'
       end.

(** [normalize_species_name] *)
Definition normalize_species_name (py : PyLib) (name : str) (has_hybrid_marker : bool)
  : str :=
  let name := strip (str_replace (utf8 "(x)") [] name) in
  if has_hybrid_marker && negb (contains (utf8 "×") name)
     && negb (contains (utf8 " x ") (lower py name))
  then
    if startswith name (utf8 "Quercus ")
    then replace_first (utf8 "Quercus ") (utf8 "Quercus × ") name
    else utf8 "× " ++ name
  else name.

(** [re.split(r, s)] for a pattern without groups: what lies between the
    matches [ms]; [s] sits at offset [off]. *)
Fixpoint pieces (ms : list rmatch) (off : nat) (s : str) : list str :=
  match ms with
  | [] => [s]
  | m :: ms' =>
      take (m_start m - off) s :: pieces ms' (m_end m) (drop (m_end m - off) s)
  end.

Definition re_split (r : regex) (s : str) : list str :=
  pieces (re_finditer r s) 0 s.

(** [[;,]] *)
Definition separator_re : regex :=
  rChr (fun a => (a =? 59)%N || (a =? 44)%N).

(** [split_list_field] *)
Definition split_list_field (text : str) : list str :=
  if negb (truthy text) || str_eqb text (utf8 "---") then []
  else
    let items := re_split separator_re text in
    List.map strip (List.filter (fun item => truthy (strip item)) items).

(** ** The hand-off of [scraper.py] *)

(** The order of Python strings: lexicographic on code points. *)
Fixpoint str_leb (a b : str) : bool :=
  match a, b with
  | [], _ => true
  | _ :: _, [] => false
  | x :: a', y :: b' =>
      if (x <? y)%N then true
      else if (x =? y)%N then str_leb a' b' else false
  end.

(** The keys of a species dict that the hand-off reads or writes; the other
    keys of the page are carried along untouched and are left out.
    [sp_hybrids] is [None] while the dict has no ['hybrids'] key. *)
Record species := {
  sp_name : str;
  sp_url : str;
  sp_is_hybrid : bool;
  sp_parent1 : option str;
  sp_parent2 : option str;
  sp_hybrids : option (list str)
}.

(** [^Quercus\s+], IGNORECASE *)
Definition quercus_prefix_re : regex :=
  rcat [rBol; lit_i "Quercus"; rPlus ws].

(** One parent of one hybrid (the [if parent1:] block and its twin). *)
Definition add_hybrid (by_name : dict species) (parent : option str) (child : str)
  : dict species :=
  match parent with
  | Some p =>
      if truthy p then
        let parent_name := strip (re_sub_empty quercus_prefix_re p) in
        match dict_get parent_name by_name with
        | Some r =>
            let hs := default [] (sp_hybrids r) in
            let hs := if bool_decide (child ∈ hs) then hs else hs ++ [child] in
            dict_set parent_name
              {| sp_name := sp_name r; sp_url := sp_url r;
                 sp_is_hybrid := sp_is_hybrid r;
                 sp_parent1 := sp_parent1 r; sp_parent2 := sp_parent2 r;
                 sp_hybrids := Some hs |}
              by_name
        | None => by_name
        end
      else by_name
  | None => by_name
  end.

(** [build_hybrid_relationships] *)
Definition build_hybrid_relationships (species_list : list species) : list species :=
  let species_by_name :=
    List.fold_left (fun d s => dict_set (sp_name s) s d) species_list [] in
  let species_by_name :=
    List.fold_left
      (fun d s =>
         if sp_is_hybrid s
         then add_hybrid (add_hybrid d (sp_parent1 s) (sp_name s))
                (sp_parent2 s) (sp_name s)
         else d)
      species_list species_by_name in
  dict_values species_by_name.

(** [all_species.sort(key=lambda x: x['name'])]: a stable sort. *)
Fixpoint insert_by_name (x : species) (l : list species) : list species :=
  match l with
  | [] => [x]
  | y :: l' =>
      if str_leb (sp_name x) (sp_name y) then x :: y :: l'
      else y :: insert_by_name x l'
  end.

Definition sort_by_name (l : list species) : list species :=
  List.fold_right insert_by_name [] l.

(** The end of [main]: what [save_final_output] is called with. *)
Definition hand_off (species_data : list species) : list species :=
  let all_species := build_hybrid_relationships species_data in
  sort_by_name all_species.

(** ** The decision order as the specification words it

    A see separator first, then an equals sign followed by white space,
    then a link at the head of the markup (hybrid or not by the marker
    predicate), and otherwise the catch-all.  [parse_line] has no such
    function of its own: it is compared with this one. *)
Definition spec_classify (visible_text line : str) : entry_type :=
  if bool_decide (is_Some (re_search see_re visible_text)) then SYNONYM_SEE
  else if bool_decide (is_Some (re_search equals_re visible_text)) then SYNONYM_EQUALS
  else if bool_decide (is_Some (re_match leading_link_re line)) then
    if is_hybrid visible_text then ACCEPTED_HYBRID else ACCEPTED_SPECIES
  else OTHER_LINK.

(** ** Notions used in the statements *)

(** A word: not empty, no white space in it. *)
Definition is_word (w : str) : Prop :=
  w <> [] /\ Forall (fun c => isspace c = false) w.

(** What the fold appends to the synonym mapping, in order: the named
    synonyms of the synonym and other-link entries. *)
Definition appended_by (e : entry) : list (str * mapping) :=
  match e_type e with
  | ACCEPTED_SPECIES | ACCEPTED_HYBRID => []
  | SYNONYM_EQUALS | SYNONYM_SEE | OTHER_LINK =>
      omap (fun syn =>
              match syn_name syn with
              | Some n =>
                  if truthy n
                  then Some (n, {| accepted_name := species_name e;
                                   synonym_author := syn_author syn |})
                  else None
              | None => None
              end)
        (synonyms e)
  end.

(** One append to the synonym mapping. *)
Definition add_pair (sm : dict (list mapping)) (p : str * mapping)
  : dict (list mapping) :=
  dict_set (fst p) (default [] (dict_get (fst p) sm) ++ [snd p]) sm.

(** The mappings of the key [k] among pairs. *)
Definition of_key (k : str) (ps : list (str * mapping)) : list mapping :=
  omap (fun p => if str_eqb (fst p) k then Some (snd p) else None) ps.

(** A record covers an entry when merging the entry into it changes
    nothing. *)
Definition covers (r : accepted) (e : entry) : Prop :=
  (truthy_opt (author e) = true -> truthy_opt (a_author r) = true) /\
  (is_hybrid_flag e = true -> a_is_hybrid r = true).

(** An entry is absorbed by the records when its name has a record, which
    covers it if it is an accepted one. *)
Definition absorbed (acc : dict accepted) (e : entry) : Prop :=
  exists r, dict_get (species_name e) acc = Some r /\
            (e_type e = ACCEPTED_SPECIES \/ e_type e = ACCEPTED_HYBRID -> covers r e).

(** The entries of the lines of a page, in the order of the lines. *)
Definition entries_of (py : PyLib) (html base_url : str) : list entry :=
  omap (fun line => fst (parse_line py line base_url)) (split_on 10%N html).

(** The mappings of a synonym mapping in the order the final step visits
    them, each with its synonym name. *)
Definition flat_mappings (sm : dict (list mapping)) : list (str * mapping) :=
  concat (List.map (fun kv => List.map (fun m => (fst kv, m)) (snd kv)) sm).

(** The sub-entries the final step attaches to the record of [n]: one for
    each mapping to [n]. *)
Definition attached_to (n : str) (sm : dict (list mapping)) : list attached :=
  omap (fun km =>
          if str_eqb (accepted_name (snd km)) n
          then Some {| at_name := fst km; at_author := synonym_author (snd km) |}
          else None)
    (flat_mappings sm).

(** A record with its synonyms replaced. *)
Definition with_synonyms (r : accepted) (l : list attached) : accepted :=
  {| a_name := a_name r; a_author := a_author r; a_url := a_url r;
     a_is_hybrid := a_is_hybrid r; a_synonyms := l |}.

(** The walk of the resolver: from a name that is not visited and is a
    key, it marks the name and moves to what the name maps to. *)
Inductive walk (m : gmap str str) : str -> gset str -> str -> gset str -> Prop :=
| walk_here (n : str) (v : gset str) : walk m n v n v
| walk_step (n : str) (v : gset str) (next n' : str) (v' : gset str) :
    n ∉ v -> m !! n = Some next ->
    walk m next ({[n]} ∪ v) n' v' ->
    walk m n v n' v'.

(** The order of the hand-off: by name, as Python compares strings. *)
Definition name_le (a b : species) : Prop :=
  str_leb (sp_name a) (sp_name b) = true.

(** ** Inputs of the worked examples *)

Definition ex_base : str := utf8 "https://oaksoftheworld.fr/".

(** Here Q is written for the double quote of the markup. *)
Definition markup (s : string) : str :=
  List.map (fun c => if (c =? 81)%N then 34%N else c) (utf8 s).

(** A link to alba whose text says rubra. *)
Definition ex_mismatch : str := markup "<a href=Qquercus_alba.htmQ>rubra</a> L.".

(** A see line whose link names no species: the part after the underscore
    holds a dot. *)
Definition ex_dotted : str := markup "<a href=Qquercus_a.b.htmQ>x</a> : see y".

(** A link with no text at the head of a line. *)
Definition ex_blank : str := markup "<a href=Qquercus_alba.htmQ></a>".

(** An equals line with nothing left of the sign. *)
Definition ex_no_left : str := markup "= <a href=Qquercus_alba.htmQ>alba</a>".

(** The same synonym statement on two lines. *)
Definition ex_twice : str :=
  markup "aaata = <a href=Qquercus_corrugata.htmQ>corrugata</a>" ++ [10%N] ++
  markup "aaata = <a href=Qquercus_corrugata.htmQ>corrugata</a>".

(** The hybrid line of the third example of the specification. *)
Definition ex_subfalcata : str := utf8 "× subfalcata (x) Author Name".

(** A line with that visible text and a link to subfalcata at its head. *)
Definition ex_subfalcata_line : str :=
  markup "<a href=Qquercus_subfalcata.htmQ>× subfalcata</a> (x) Author Name".

(** Three sightings of alba: without an author, as a hybrid with the
    author L., and as a species with another author. *)
Definition ex_sighting (t : entry_type) (a : option str) (h : bool) : entry :=
  {| e_type := t; species_name := utf8 "alba"; author := a;
     url := utf8 "https://oaksoftheworld.fr/quercus_alba.htm";
     is_hybrid_flag := h; synonyms := []; raw_line := [] |}.

Definition ex_first : entry := ex_sighting ACCEPTED_SPECIES None false.
Definition ex_second : entry := ex_sighting ACCEPTED_HYBRID (Some (utf8 "L.")) true.
Definition ex_third : entry := ex_sighting ACCEPTED_SPECIES (Some (utf8 "Michx.")) false.

(** The mapping of the fifth example: a to b and b to a. *)
Definition ex_cycle : gmap str str :=
  <[utf8 "a" := utf8 "b"]> (<[utf8 "b" := utf8 "a"]> ∅).

(** Three species out of order, one of them a hybrid of the other two. *)
Definition ex_species (n : string) (h : bool) (p1 p2 : option str) : species :=
  {| sp_name := utf8 n; sp_url := ex_base ++ utf8 "quercus_" ++ utf8 n ++ utf8 ".htm";
     sp_is_hybrid := h; sp_parent1 := p1; sp_parent2 := p2;
     sp_hybrids := if h then None else Some [] |}.

Definition ex_unsorted : list species :=
  [ ex_species "rubra" false None None;
    ex_species "bebbiana" true (Some (utf8 "Quercus alba")) (Some (utf8 "Quercus macrocarpa"));
    ex_species "alba" false None None ].

(** The entry of the equals line with nothing left of the sign. *)
Definition ex_no_left_entry : entry :=
  {| e_type := SYNONYM_EQUALS;
     species_name := utf8 "alba";
     author := None;
     url := ex_base ++ utf8 "quercus_alba.htm";
     is_hybrid_flag := false;
     synonyms := [ {| syn_name := None; syn_author := None |} ];
     raw_line := ex_no_left |}.

(** A chain without a cycle: [n] keys, each mapped to the next name, the
    last to a name that is no key.  The names are a, aa, aaa and so on. *)
Definition chain_name (i : nat) : str := repeat 97%N (S i).

Definition chain_map (n : nat) : gmap str str :=
  list_to_map (List.map (fun i => (chain_name i, chain_name (S i))) (seq 0 n)).

(** ** More notions for the statements *)

(** The names of a sequence in the order of their first sighting, those in
    [seen] left out. *)
Fixpoint first_sightings (seen : list str) (names : list str) : list str :=
  match names with
  | [] => []
  | n :: names' =>
      if bool_decide (n ∈ seen) then first_sightings seen names'
      else n :: first_sightings (seen ++ [n]) names'
  end.

(** [sum(len(mappings) for mappings in synonym_map.values())] *)
Definition total_synonym_mappings (sm : dict (list mapping)) : nat :=
  sum_list (List.map (fun kv => length (snd kv)) sm).

(** [sum(len(s['synonyms']) for s in accepted_species)], the count the test
    script prints beside it. *)
Definition total_synonyms (out : list accepted) : nat :=
  sum_list (List.map (fun r => length (a_synonyms r)) out).

(** An optional text in normal form: absent, or not empty and with no white
    space at either end. *)
Definition normal_text (o : option str) : Prop :=
  match o with
  | None => True
  | Some s => s <> [] /\ strip s = s
  end.

(** An optional name in normal form: absent, or one word. *)
Definition normal_name (o : option str) : Prop :=
  match o with
  | None => True
  | Some s => is_word s
  end.

(** Two species dicts that differ at most in their ['hybrids'] lists. *)
Definition same_but_hybrids (a b : species) : Prop :=
  sp_name a = sp_name b /\ sp_url a = sp_url b /\
  sp_is_hybrid a = sp_is_hybrid b /\
  sp_parent1 a = sp_parent1 b /\ sp_parent2 a = sp_parent2 b.

(** The key under which a parent is looked up. *)
Definition parent_key (p : str) : str := strip (re_sub_empty quercus_prefix_re p).

(** The parents of a species that the loop registers it with. *)
Definition registered_parents (s : species) : list str :=
  if sp_is_hybrid s then
    omap (fun o => match o with
                   | Some p => if truthy p then Some (parent_key p) else None
                   | None => None
                   end)
      [sp_parent1 s; sp_parent2 s]
  else [].

(** The order of the hand-off without equal names. *)
Definition name_lt (a b : species) : Prop :=
  name_le a b /\ sp_name a <> sp_name b.

(** The dict [{s['name']: s for s in species_list}]. *)
Definition by_name (l : list species) (d : dict species) : dict species :=
  List.fold_left (fun d s => dict_set (sp_name s) s d) l d.

(** One round of the loop over the species. *)
Definition register (d : dict species) (s : species) : dict species :=
  if sp_is_hybrid s
  then add_hybrid (add_hybrid d (sp_parent1 s) (sp_name s)) (sp_parent2 s) (sp_name s)
  else d.

(** What every entry of the dict satisfies. *)
Definition entries_ok (l : list species) (d : dict species) : Prop :=
  forall k r, In (k, r) d -> sp_name r = k /\ exists s, In s l /\ same_but_hybrids r s.

(** The parent [pn] knows the child [c]. *)
Definition has_child (d : dict species) (pn c : str) : Prop :=
  exists r hs, dict_get pn d = Some r /\ sp_hybrids r = Some hs /\ In c hs.

(** A list of hybrids without a repeat. *)
Definition hybrids_NoDup (s : species) : Prop :=
  match sp_hybrids s with Some hs => List.NoDup hs | None => True end.

(** The loop of a greedy repetition, as [rx] runs it. *)
Definition star_loop {R} (r1 : regex) (k : nat -> str -> caps -> option R)
  : nat -> nat -> str -> caps -> option R :=
  fix loop (n : nat) (off : nat) (s : str) (c : caps) : option R :=
    match n with
    | O => k off s c
    | S n' =>
        match rx r1 off s c
                (fun off' s' c' =>
                   if Nat.ltb off off' then loop n' off' s' c' else None)
        with
        | Some x => Some x
        | None => k off s c
        end
    end.

(** A literal under IGNORECASE, character by character. *)
Definition lits_i (l : str) : regex := rcat (List.map (fun c => rChr (ch_is_i c)) l).

(** The five spellings the pattern of [is_hybrid] finds. *)
Definition hybrid_markers : list str :=
  [utf8 "(x)"; utf8 "(X)"; utf8 "×"; utf8 "x."; utf8 "X."].

(** A chain of the mapping: each name of [p] maps to the next one, the
    last one to [z]. *)
Fixpoint linked (m : gmap str str) (p : list str) (z : str) : Prop :=
  match p with
  | [] => True
  | a :: p' => m !! a = Some (hd z p') /\ linked m p' z
  end.

(** A note other than the one about several links. *)
Definition single_link_note (n : note) : Prop :=
  match n with
  | MultipleLinks _ _ => False
  | _ => True
  end.

(** ** More inputs *)

(** An entry for another name than alba. *)
Definition ex_rubra : entry :=
  {| e_type := OTHER_LINK; species_name := utf8 "rubra"; author := None;
     url := ex_base ++ utf8 "quercus_rubra.htm";
     is_hybrid_flag := false; synonyms := []; raw_line := [] |}.

(** A see line with two synonyms and an empty item between them. *)
Definition ex_see_text : str := utf8 "aaa Auth., , bbb : see alba L.".

Definition ex_see : str :=
  markup "aaa Auth., , bbb : see <a href=Qquercus_alba.htmQ>alba</a> L.".

(** The hybrid of the example list. *)
Definition ex_bebbiana : species :=
  ex_species "bebbiana" true (Some (utf8 "Quercus alba")) (Some (utf8 "Quercus macrocarpa")).

(** A line of plain text, and two lines with a link. *)
Definition ex_plain : str := utf8 "  Fagaceae of the world  ".



(** A line with links to two pages. *)
Definition ex_two_links : str :=
  markup "<a href=Qquercus_alba.htmQ>alba</a> L., <a href=Qquercus_rubra.htmQ>rubra</a>".

(** * Properties *)

(** ** The log *)

Lemma log_when_ret {A} (b : bool) (n : note) (x : A) :
  (log_when b n ;;; ret x) = (x, if b then [n] else []).
Proof. destruct b; reflexivity. Qed.

Lemma log_ret_fst {A B} (m : logged A) (x : B) : fst (m ;;; ret x) = x.
Proof. destruct m; reflexivity. Qed.

Lemma bind_fst {A B} (m : logged A) (f : A -> logged B) :
  fst (bind m f) = fst (f (fst m)).
Proof. destruct m as [a n]; simpl. destruct (f a); reflexivity. Qed.

(** ** What each parser returns *)

Section Parsers.

Variable py : PyLib.

Lemma parse_accepted_species_fst v u s l :
  fst (parse_accepted_species py v u s l) =
  match split v with
  | [] => None
  | _ :: _ =>
      Some {| e_type := ACCEPTED_SPECIES; species_name := s;
              author := drop_blank (rest_author (split v)); url := u;
              is_hybrid_flag := false; synonyms := []; raw_line := l |}
  end.
Proof.
  unfold parse_accepted_species. destruct (split v); [reflexivity|].
  apply log_ret_fst.
Qed.

Lemma parse_accepted_hybrid_fst v u s l :
  exists a,
    fst (parse_accepted_hybrid py v u s l) =
    Some {| e_type := ACCEPTED_HYBRID; species_name := s; author := a; url := u;
            is_hybrid_flag := true; synonyms := []; raw_line := l |}.
Proof.
  unfold parse_accepted_hybrid. eexists. apply log_ret_fst.
Qed.

Lemma parse_synonym_equals_fst v u s l :
  fst (parse_synonym_equals py v u s l) =
  match re_split1 equals_re v with
  | [p0; p1] =>
      Some {| e_type := SYNONYM_EQUALS; species_name := s;
              author := drop_blank (join_author (snd (equals_rhs py (split (strip p1)))));
              url := u;
              is_hybrid_flag := is_hybrid (strip p1);
              synonyms := [ {| syn_name := first_word (split (strip p0));
                               syn_author := drop_blank (rest_author (split (strip p0))) |} ];
              raw_line := l |}
  | _ => None
  end.
Proof.
  unfold parse_synonym_equals.
  destruct (re_split1 equals_re v) as [|p0 [|p1 [|? ?]]]; try reflexivity.
  destruct (equals_rhs py (split (strip p1))) as [t aw]; simpl snd.
  apply log_ret_fst.
Qed.

Lemma parse_synonym_see_fst v u s l :
  fst (parse_synonym_see py v u s l) =
  match re_split1 see_re v with
  | [p0; p1] =>
      Some {| e_type := SYNONYM_SEE; species_name := s;
              author := drop_blank (rest_author (split (strip p1)));
              url := u;
              is_hybrid_flag := is_hybrid (strip p1);
              synonyms := omap see_item (split_on 44%N (strip p0));
              raw_line := l |}
  | _ => None
  end.
Proof.
  unfold parse_synonym_see.
  destruct (re_split1 see_re v) as [|p0 [|p1 [|? ?]]]; try reflexivity.
  apply log_ret_fst.
Qed.

Lemma parse_other_link_fst v u s l :
  fst (parse_other_link py v u s l) =
  Some {| e_type := OTHER_LINK; species_name := s;
          author := drop_blank (snd (find_name py s (split v))); url := u;
          is_hybrid_flag := is_hybrid v; synonyms := []; raw_line := l |}.
Proof.
  unfold parse_other_link.
  destruct (find_name py s (split v)) as [t a]; simpl snd.
  apply log_ret_fst.
Qed.

(** A split on a pattern that is found has two parts. *)
Lemma re_split1_found r v :
  is_Some (re_search r v) ->
  exists p0 p1, re_split1 r v = [p0; p1].
Proof.
  intros [m Hm]. unfold re_split1. rewrite Hm. eauto.
Qed.

(** The entry of a line, without the notes: the guards and the order of
    the tests of [parse_line]. *)
Lemma parse_line_fst line base_url :
  fst (parse_line py line base_url) =
  match extract_links_from_line py (strip line) with
  | [] => None
  | (main_href, _) :: _ =>
      let main_url := urljoin py base_url main_href in
      match extract_species_from_url main_href with
      | Some s =>
          if truthy s then
            let v := strip_html_tags py (strip line) in
            if bool_decide (is_Some (re_search see_re v)) then
              fst (parse_synonym_see py v main_url s (strip line))
            else if bool_decide (is_Some (re_search equals_re v)) then
              fst (parse_synonym_equals py v main_url s (strip line))
            else if bool_decide (is_Some (re_match leading_link_re (strip line))) then
              if is_hybrid v
              then fst (parse_accepted_hybrid py v main_url s (strip line))
              else fst (parse_accepted_species py v main_url s (strip line))
            else fst (parse_other_link py v main_url s (strip line))
          else None
      | None => None
      end
  end.
Proof.
  unfold parse_line.
  destruct (extract_links_from_line py (strip line)) as [|[href txt] rest];
    [reflexivity|].
  rewrite bind_fst. cbv zeta.
  destruct (extract_species_from_url href) as [s|]; [|reflexivity].
  destruct (truthy s); [|reflexivity].
  repeat match goal with |- context [if ?b then _ else _] => destruct b end;
    reflexivity.
Qed.

End Parsers.

(** ** The classifier *)

Section Classifier.

Variable py : PyLib.

(** Every way [parse_line] has of returning an entry, with the link, the
    name it gives and the test that chose the parser. *)
Lemma parse_line_cases line base_url e :
  fst (parse_line py line base_url) = Some e ->
  exists href text rest s,
    extract_links_from_line py (strip line) = (href, text) :: rest /\
    extract_species_from_url href = Some s /\ truthy s = true /\
    let v := strip_html_tags py (strip line) in
    let u := urljoin py base_url href in
    let raw := strip line in
    (is_Some (re_search see_re v) /\
       fst (parse_synonym_see py v u s raw) = Some e) \/
    (~ is_Some (re_search see_re v) /\ is_Some (re_search equals_re v) /\
       fst (parse_synonym_equals py v u s raw) = Some e) \/
    (~ is_Some (re_search see_re v) /\ ~ is_Some (re_search equals_re v) /\
       is_Some (re_match leading_link_re raw) /\ is_hybrid v = true /\
       fst (parse_accepted_hybrid py v u s raw) = Some e) \/
    (~ is_Some (re_search see_re v) /\ ~ is_Some (re_search equals_re v) /\
       is_Some (re_match leading_link_re raw) /\ is_hybrid v = false /\
       fst (parse_accepted_species py v u s raw) = Some e) \/
    (~ is_Some (re_search see_re v) /\ ~ is_Some (re_search equals_re v) /\
       ~ is_Some (re_match leading_link_re raw) /\
       fst (parse_other_link py v u s raw) = Some e).
Proof.
  rewrite parse_line_fst.
  destruct (extract_links_from_line py (strip line)) as [|[href txt] rest];
    [discriminate|].
  cbv zeta.
  destruct (extract_species_from_url href) as [s|] eqn:He; [|discriminate].
  destruct (truthy s) eqn:Hs; [|discriminate].
  intros H. exists href, txt, rest, s.
  do 3 (split; [first [reflexivity|assumption]|]). cbv zeta.
  repeat case_bool_decide.
  - left; auto.
  - right; left; auto.
  - destruct (is_hybrid _) eqn:Hh.
    + right; right; left; auto.
    + right; right; right; left; auto 6.
  - right; right; right; right; auto.
Qed.

End Classifier.

(** C1. Whenever [parse_line] returns an entry, the line has a first
    extracted link, [extract_species_from_url] reads an identifier from the
    target of that link, and the entry's [species_name] is that identifier
    and is not empty.  The visible text plays no part: two lines whose
    first links have the same target give the same name. *)
Theorem parse_line_species_from_link (py : PyLib) (line base_url : str) (e : entry) :
  fst (parse_line py line base_url) = Some e ->
  exists href text rest,
    extract_links_from_line py (strip line) = (href, text) :: rest /\
    extract_species_from_url href = Some (species_name e) /\
    species_name e <> [] /\
    forall line' base' e' text' rest',
      fst (parse_line py line' base') = Some e' ->
      extract_links_from_line py (strip line') = (href, text') :: rest' ->
      species_name e' = species_name e.
Proof.
  intros H.
  assert (Hname : forall l b x, fst (parse_line py l b) = Some x ->
            exists href text rest,
              extract_links_from_line py (strip l) = (href, text) :: rest /\
              extract_species_from_url href = Some (species_name x) /\
              species_name x <> []).
  { clear. intros l b x Hx.
    destruct (parse_line_cases py l b x Hx)
      as (href & text & rest & s & Hl & Hs & Ht & Hc).
    exists href, text, rest. split; [exact Hl|].
    assert (species_name x = s) as ->.
    { cbv zeta in Hc.
      destruct Hc as [[_ Hp]|[(_ & _ & Hp)|[(_ & _ & _ & _ & Hp)|
                     [(_ & _ & _ & _ & Hp)|(_ & _ & _ & Hp)]]]].
      - rewrite parse_synonym_see_fst in Hp.
        destruct (re_split1 see_re _) as [|? [|? [|? ?]]]; try discriminate.
        injection Hp as <-. reflexivity.
      - rewrite parse_synonym_equals_fst in Hp.
        destruct (re_split1 equals_re _) as [|? [|? [|? ?]]]; try discriminate.
        injection Hp as <-. reflexivity.
      - destruct (parse_accepted_hybrid_fst py
                    (strip_html_tags py (strip l)) (urljoin py b href) s (strip l))
          as [a Ha].
        rewrite Ha in Hp. injection Hp as <-. reflexivity.
      - rewrite parse_accepted_species_fst in Hp.
        destruct (split _); try discriminate.
        injection Hp as <-. reflexivity.
      - rewrite parse_other_link_fst in Hp. injection Hp as <-. reflexivity. }
    split; [exact Hs|]. intros ->. discriminate. }
  destruct (Hname _ _ _ H) as (href & text & rest & Hl & Hs & Hne).
  exists href, text, rest. do 3 (split; [assumption|]).
  intros line' base' e' text' rest' H' Hl'.
  destruct (Hname _ _ _ H') as (href2 & text2 & rest2 & Hl2 & Hs2 & _).
  rewrite Hl' in Hl2. injection Hl2 as <- _ _. congruence.
Qed.

(** The link says alba, the text says rubra: the entry is named alba. *)
Lemma parse_line_species_from_link_witness :
  exists e,
    fst (parse_line py_plain ex_mismatch ex_base) = Some e /\
    head (split (strip_html_tags py_plain ex_mismatch)) = Some (utf8 "rubra") /\
    species_name e = utf8 "alba" /\
    exists href text rest,
      extract_links_from_line py_plain (strip ex_mismatch) = (href, text) :: rest /\
      extract_species_from_url href = Some (species_name e) /\
      species_name e <> [] /\
      forall line' base' e' text' rest',
        fst (parse_line py_plain line' base') = Some e' ->
        extract_links_from_line py_plain (strip line') = (href, text') :: rest' ->
        species_name e' = species_name e.
Proof.
  eexists. split; [vm_compute; reflexivity|].
  split; [vm_compute; reflexivity|].
  split; [vm_compute; reflexivity|].
  apply (parse_line_species_from_link py_plain ex_mismatch ex_base).
  vm_compute; reflexivity.
Defined.

(** C2, as stated, fails on two lines that hold a link.  The visible text
    of the first holds a see separator, so that the stated order classifies
    it as SYNONYM_SEE, but the target of its link names no species and
    [parse_line] returns no entry at all.  The second begins with its link
    and has no hybrid marker, so that the stated order classifies it as
    ACCEPTED_SPECIES, but it has no visible text and the species parser
    returns no entry. *)
Lemma parse_line_decision_order_counterexample :
  (extract_links_from_line py_plain (strip ex_dotted) <> [] /\
   spec_classify (strip_html_tags py_plain (strip ex_dotted)) (strip ex_dotted)
     = SYNONYM_SEE /\
   fst (parse_line py_plain ex_dotted ex_base) = None) /\
  (extract_links_from_line py_plain (strip ex_blank) <> [] /\
   spec_classify (strip_html_tags py_plain (strip ex_blank)) (strip ex_blank)
     = ACCEPTED_SPECIES /\
   fst (parse_line py_plain ex_blank ex_base) = None).
Proof.
  split; (split; [vm_compute; discriminate|]);
    split; vm_compute; reflexivity.
Qed.

(** C2, amended.  For every raw line whose first link yields a non-empty
    identifier, an entry that [parse_line] returns has the type the
    first-match order gives (see, then equals, then a link at the head of
    the markup with the hybrid predicate choosing between hybrid and
    species, then the catch-all, whose type is named OTHER_LINK), and the
    only such lines without an entry are those sent to the species parser
    with no word of visible text. *)
Theorem parse_line_decision_order (py : PyLib) (line base_url href text : str)
    (rest : list (str * str)) (s : str) :
  extract_links_from_line py (strip line) = (href, text) :: rest ->
  extract_species_from_url href = Some s ->
  s <> [] ->
  let v := strip_html_tags py (strip line) in
  match fst (parse_line py line base_url) with
  | Some e => e_type e = spec_classify v (strip line)
  | None => spec_classify v (strip line) = ACCEPTED_SPECIES /\ split v = []
  end.
Proof.
  intros Hl Hs Hne v. rewrite parse_line_fst, Hl, Hs. cbv zeta.
  destruct s as [|c s']; [congruence|]. simpl truthy. cbv iota.
  fold v. unfold spec_classify.
  case_bool_decide as Hsee.
  { rewrite parse_synonym_see_fst.
    destruct (re_split1_found _ _ Hsee) as (p0 & p1 & ->). reflexivity. }
  case_bool_decide as Heq.
  { rewrite parse_synonym_equals_fst.
    destruct (re_split1_found _ _ Heq) as (p0 & p1 & ->). reflexivity. }
  case_bool_decide as Hlead.
  - destruct (is_hybrid v) eqn:Hh.
    + destruct (parse_accepted_hybrid_fst py v (urljoin py base_url href)
                  (c :: s') (strip line)) as [a ->].
      reflexivity.
    + rewrite parse_accepted_species_fst.
      destruct (split v); [split|]; reflexivity.
  - rewrite parse_other_link_fst. reflexivity.
Qed.

(** A line sent to the species parser with no visible text: no entry. *)
Lemma parse_line_decision_order_witness :
  fst (parse_line py_plain ex_blank ex_base) = None /\
  spec_classify (strip_html_tags py_plain (strip ex_blank)) (strip ex_blank)
    = ACCEPTED_SPECIES /\
  split (strip_html_tags py_plain (strip ex_blank)) = [].
Proof.
  assert (H := parse_line_decision_order py_plain ex_blank ex_base
                 (utf8 "quercus_alba.htm") [] [] (utf8 "alba")).
  assert (Hn : fst (parse_line py_plain ex_blank ex_base) = None)
    by (vm_compute; reflexivity).
  rewrite Hn in H. split; [reflexivity|].
  apply H; [vm_compute; reflexivity|vm_compute; reflexivity|discriminate].
Defined.

(** ** The hybrid parser on the third example *)

Lemma differs_same (py : PyLib) (a : str) : differs py a a = false.
Proof. unfold differs, str_eqb. rewrite bool_decide_eq_true_2; reflexivity. Qed.

(** The line with the link to subfalcata and the visible text of the third
    example is classified as an accepted hybrid, and neither the entry nor
    the record made from it has the author [Author Name]. *)
Lemma parse_accepted_hybrid_example_line :
  strip_html_tags py_plain (strip ex_subfalcata_line) = ex_subfalcata /\
  ~ (exists e,
       fst (parse_line py_plain ex_subfalcata_line ex_base) = Some e /\
       e_type e = ACCEPTED_HYBRID /\
       a_name (new_record e) = utf8 "subfalcata" /\
       a_author (new_record e) = Some (utf8 "Author Name") /\
       a_is_hybrid (new_record e) = true).
Proof.
  split; [vm_compute; reflexivity|].
  intros (e & He & _ & _ & Ha & _).
  vm_compute in He. injection He as <-. vm_compute in Ha. discriminate.
Qed.

(** The other branch of the parser does remove the marker: without the
    leading symbol the author of the same text is [Author Name]. *)
Lemma parse_accepted_hybrid_embedded_marker :
  fst (parse_accepted_hybrid py_plain (utf8 "subfalcata (x) Author Name") ex_base
         (utf8 "subfalcata") []) =
  Some {| e_type := ACCEPTED_HYBRID;
          species_name := utf8 "subfalcata";
          author := Some (utf8 "Author Name");
          url := ex_base;
          is_hybrid_flag := true;
          synonyms := [];
          raw_line := [] |}.
Proof. vm_compute. reflexivity. Qed.

(** C3.  What the code does on the third example of the specification: for
    the visible text [× subfalcata (x) Author Name] and the link-derived
    name subfalcata, the hybrid parser takes its leading-symbol branch,
    which removes that symbol only.  The entry has name subfalcata and is a
    hybrid, as the example has it, but its author is [(x) Author Name],
    marker included, where the example has [Author Name]; no note is
    written, and the record made from the entry carries the same author. *)
Theorem parse_accepted_hybrid_example (py : PyLib) (u line : str) :
  let e := {| e_type := ACCEPTED_HYBRID;
              species_name := utf8 "subfalcata";
              author := Some (utf8 "(x) Author Name");
              url := u;
              is_hybrid_flag := true;
              synonyms := [];
              raw_line := line |} in
  parse_accepted_hybrid py ex_subfalcata u (utf8 "subfalcata") line = (Some e, []) /\
  a_name (new_record e) = utf8 "subfalcata" /\
  a_author (new_record e) = Some (utf8 "(x) Author Name") /\
  a_is_hybrid (new_record e) = true.
Proof.
  intros e. split; [|repeat split].
  unfold parse_accepted_hybrid.
  assert (Hx : startswith ex_subfalcata (utf8 "×") = true) by (vm_compute; reflexivity).
  rewrite Hx. cbn [orb].
  assert (Hw : split (strip (re_sub_empty leading_x_re ex_subfalcata)) =
               [utf8 "subfalcata"; utf8 "(x)"; utf8 "Author"; utf8 "Name"])
    by (vm_compute; reflexivity).
  rewrite Hw.
  assert (Hf : first_word [utf8 "subfalcata"; utf8 "(x)"; utf8 "Author"; utf8 "Name"]
               = Some (utf8 "subfalcata")) by (vm_compute; reflexivity).
  assert (Ha : drop_blank_strip
                 (rest_author [utf8 "subfalcata"; utf8 "(x)"; utf8 "Author"; utf8 "Name"])
               = Some (utf8 "(x) Author Name")) by (vm_compute; reflexivity).
  rewrite Hf, Ha, differs_same, andb_false_r. reflexivity.
Qed.

(** ** Words *)

Lemma split_go_words (s cur : str) :
  Forall (fun c => isspace c = false) cur ->
  Forall is_word (split_go cur s).
Proof.
  revert cur. induction s as [|c s IH]; intros cur Hcur; simpl.
  - destruct cur as [|a cur']; constructor; [|constructor].
    split; [|apply Forall_rev; exact Hcur].
    intros Hr. apply (f_equal (@length _)) in Hr.
    rewrite length_rev in Hr. discriminate.
  - destruct (isspace c) eqn:Hc.
    + destruct cur as [|a cur'].
      * apply IH. constructor.
      * constructor; [|apply IH; constructor].
        split; [|apply Forall_rev; exact Hcur].
        intros Hr. apply (f_equal (@length _)) in Hr.
        rewrite length_rev in Hr. discriminate.
    + apply IH. constructor; assumption.
Qed.

Lemma split_words (s : str) : Forall is_word (split s).
Proof. apply split_go_words. constructor. Qed.

Lemma rstrip_solid (w : str) :
  Forall (fun c => isspace c = false) w -> rstrip w = w.
Proof.
  induction 1 as [|c w Hc Hw IH]; [reflexivity|].
  simpl. rewrite IH. destruct w; [rewrite Hc|]; reflexivity.
Qed.

Lemma strip_word (w : str) : is_word w -> strip w = w.
Proof.
  intros [Hne Hall]. unfold strip.
  destruct w as [|c w']; [congruence|].
  inversion Hall as [|? ? Hc Hw']; subst.
  simpl. rewrite Hc. apply rstrip_solid. exact Hall.
Qed.

Lemma rstrip_app (a b : str) : rstrip b <> [] -> rstrip (a ++ b) = a ++ rstrip b.
Proof.
  intros Hb. induction a as [|c a IH]; [reflexivity|].
  simpl. rewrite IH.
  destruct (a ++ rstrip b) eqn:E; [|reflexivity].
  destruct a; [simpl in E; congruence|discriminate].
Qed.

Lemma join_two (sep w w2 : str) (ws : list str) :
  join sep (w :: w2 :: ws) = w ++ sep ++ join sep (w2 :: ws).
Proof. reflexivity. Qed.

Lemma lstrip_solid_head (c : char) (s : str) :
  isspace c = false -> lstrip (c :: s) = c :: s.
Proof. intros Hc. simpl. rewrite Hc. reflexivity. Qed.

(** The words of a split, joined by spaces, have no blank at either end. *)
Lemma join_words_solid (ws : list str) :
  Forall is_word ws -> ws <> [] ->
  join space ws <> [] /\ lstrip (join space ws) = join space ws /\
  rstrip (join space ws) = join space ws.
Proof.
  induction 1 as [|w ws Hw Hws IH]; [congruence|]. intros _.
  destruct Hw as [Hne Hall].
  destruct w as [|c w']; [congruence|].
  assert (Hc : isspace c = false) by (inversion Hall; assumption).
  destruct ws as [|w2 ws'].
  - change (join space [c :: w']) with (c :: w').
    split; [discriminate|]. split.
    + apply lstrip_solid_head, Hc.
    + apply rstrip_solid. exact Hall.
  - destruct IH as (Hj & _ & Hr); [discriminate|].
    rewrite join_two.
    split; [discriminate|]. split.
    + apply (lstrip_solid_head c), Hc.
    + rewrite app_assoc. rewrite rstrip_app; rewrite Hr; [reflexivity|exact Hj].
Qed.

Lemma join_author_words (ws : list str) :
  Forall is_word ws ->
  drop_blank (join_author ws) =
  match ws with [] => None | _ :: _ => Some (join space ws) end.
Proof.
  intros Hws. unfold join_author.
  destruct ws as [|w ws']; [reflexivity|].
  destruct (join_words_solid (w :: ws') Hws) as (Hj & Hl & Hr); [discriminate|].
  unfold nonempty, drop_blank, strip. rewrite Hl, Hr, Hl, Hr.
  destruct (join space (w :: ws')); [congruence|reflexivity].
Qed.

(** ** The right-hand side of an equals line *)

(** C4.  On a SYNONYM_EQUALS line, split once on the equals separator, let
    the right-hand side have the words [w0], [w1] and [rest], with [w0]
    equal to x up to case.  Then the name the parser reads from the text is
    the second word [w1], the words of the author are [rest], the entry is
    returned with the author made of [rest] joined by spaces (absent when
    there is no third word), and the only note that may be written compares
    [w1], not the x token, with the link-derived name. *)
Theorem parse_synonym_equals_skips_x (py : PyLib) (v u s line p0 p1 w0 w1 : str)
    (rest : list str) :
  re_split1 equals_re v = [p0; p1] ->
  split (strip p1) = w0 :: w1 :: rest ->
  lower py w0 = utf8 "x" ->
  equals_rhs py (split (strip p1)) = (Some w1, rest) /\
  exists e,
    parse_synonym_equals py v u s line =
      (Some e, if differs py w1 s
               then [SynonymTargetMismatch w1 s (Some line)] else []) /\
    e_type e = SYNONYM_EQUALS /\
    species_name e = s /\
    author e = match rest with [] => None | _ :: _ => Some (join space rest) end.
Proof.
  intros Hsplit Hwords Hx.
  assert (Hall := split_words (strip p1)). rewrite Hwords in Hall.
  inversion Hall as [|? ? Hw0 Hall1]; subst.
  inversion Hall1 as [|? ? Hw1 Hrest]; subst.
  assert (Hrhs : equals_rhs py (split (strip p1)) = (Some w1, rest)).
  { rewrite Hwords. unfold equals_rhs.
    rewrite (strip_word w0 Hw0), (strip_word w1 Hw1), Hx.
    unfold str_eqb. rewrite bool_decide_eq_true_2; reflexivity. }
  split; [exact Hrhs|].
  unfold parse_synonym_equals. rewrite Hsplit, Hrhs.
  rewrite log_when_ret. simpl default.
  assert (Ht : truthy w1 = true).
  { destruct Hw1 as [Hne _]. destruct w1; [congruence|reflexivity]. }
  rewrite Ht. cbn [andb].
  eexists. split; [reflexivity|]. cbn [e_type species_name author].
  split; [reflexivity|]. split; [reflexivity|].
  apply join_author_words. exact Hrest.
Qed.

(** The line [foo = X alba L. f.] with a link to alba: the name read is the
    second word and the author is [L. f.]. *)
Lemma parse_synonym_equals_skips_x_witness :
  equals_rhs py_plain (split (strip (utf8 "X alba L. f."))) =
    (Some (utf8 "alba"), [utf8 "L."; utf8 "f."]) /\
  exists e,
    parse_synonym_equals py_plain (utf8 "foo = X alba L. f.") ex_base
      (utf8 "alba") [] = (Some e, []) /\
    e_type e = SYNONYM_EQUALS /\
    species_name e = utf8 "alba" /\
    author e = Some (utf8 "L. f.").
Proof.
  apply (parse_synonym_equals_skips_x py_plain (utf8 "foo = X alba L. f.") ex_base
           (utf8 "alba") [] (utf8 "foo") (utf8 "X alba L. f.")
           (utf8 "X") (utf8 "alba") [utf8 "L."; utf8 "f."]);
    vm_compute; reflexivity.
Defined.

(** ** Dictionaries *)

Lemma dict_get_set_eq {V} (k : str) (v : V) (d : dict V) :
  dict_get k (dict_set k v d) = Some v.
Proof.
  induction d as [|[k' v'] d IH]; simpl; unfold str_eqb.
  - rewrite bool_decide_eq_true_2; reflexivity.
  - case_bool_decide as Hk; simpl; unfold str_eqb.
    + rewrite bool_decide_eq_true_2; [reflexivity|exact Hk].
    + rewrite bool_decide_eq_false_2; [exact IH|exact Hk].
Qed.

Lemma dict_get_set_ne {V} (k k2 : str) (v : V) (d : dict V) :
  k <> k2 -> dict_get k2 (dict_set k v d) = dict_get k2 d.
Proof.
  intros Hne. induction d as [|[k' v'] d IH]; simpl; unfold str_eqb.
  - rewrite bool_decide_eq_false_2; [reflexivity|exact Hne].
  - case_bool_decide as Hk; simpl; unfold str_eqb.
    + subst k'. rewrite !bool_decide_eq_false_2 by exact Hne. reflexivity.
    + case_bool_decide; [reflexivity|exact IH].
Qed.

Lemma dict_set_same {V} (k : str) (v : V) (d : dict V) :
  dict_get k d = Some v -> dict_set k v d = d.
Proof.
  induction d as [|[k' v'] d IH]; simpl; unfold str_eqb; [discriminate|].
  case_bool_decide as Hk.
  - intros [= ->]. reflexivity.
  - intros H. rewrite IH; [reflexivity|exact H].
Qed.

(** ** The merge of a second sighting *)

Lemma merge_record_fields (r : accepted) (e : entry) :
  a_name (merge_record r e) = a_name r /\
  a_url (merge_record r e) = a_url r /\
  a_synonyms (merge_record r e) = a_synonyms r /\
  a_author (merge_record r e) =
    (if truthy_opt (a_author r) then a_author r
     else if truthy_opt (author e) then author e else a_author r) /\
  a_is_hybrid (merge_record r e) = a_is_hybrid r || is_hybrid_flag e.
Proof.
  unfold merge_record. destruct r as [n a u h s]. cbn [a_author a_is_hybrid].
  destruct (truthy_opt (author e)), (truthy_opt a), (is_hybrid_flag e), h;
    simpl; repeat split; reflexivity.
Qed.

(** A record that exists stays, and one step of the fold keeps its author
    once it has one and its hybrid flag once it is set; its name, its URL
    and its synonyms do not change. *)
Lemma fold_entry_keeps (st : state) (e : entry) (n : str) (r : accepted) :
  dict_get n (accepted_species st) = Some r ->
  exists r',
    dict_get n (accepted_species (fold_entry st e)) = Some r' /\
    (truthy_opt (a_author r) = true -> a_author r' = a_author r) /\
    (a_is_hybrid r = true -> a_is_hybrid r' = true) /\
    a_name r' = a_name r /\ a_url r' = a_url r /\ a_synonyms r' = a_synonyms r.
Proof.
  intros Hr.
  assert (Hacc : forall r0, dict_get (species_name e) (accepted_species st) = Some r0 ->
            exists r', dict_get n (dict_set (species_name e) (merge_record r0 e)
                                     (accepted_species st)) = Some r' /\
              (truthy_opt (a_author r) = true -> a_author r' = a_author r) /\
              (a_is_hybrid r = true -> a_is_hybrid r' = true) /\
              a_name r' = a_name r /\ a_url r' = a_url r /\
              a_synonyms r' = a_synonyms r).
  { intros r0 Hr0. destruct (decide (species_name e = n)) as [<-|Hne].
    - rewrite dict_get_set_eq. eexists; split; [reflexivity|].
      assert (r0 = r) as -> by congruence.
      destruct (merge_record_fields r e) as (Hn & Hu & Hs & Ha & Hh).
      rewrite Hn, Hu, Hs, Ha, Hh. repeat split.
      + intros ->. reflexivity.
      + intros ->. reflexivity.
    - rewrite dict_get_set_ne by exact Hne. exists r. auto 10. }
  assert (Hnew : dict_get (species_name e) (accepted_species st) = None ->
            exists r', dict_get n (dict_set (species_name e) (new_record e)
                                     (accepted_species st)) = Some r' /\
              (truthy_opt (a_author r) = true -> a_author r' = a_author r) /\
              (a_is_hybrid r = true -> a_is_hybrid r' = true) /\
              a_name r' = a_name r /\ a_url r' = a_url r /\
              a_synonyms r' = a_synonyms r).
  { intros Hnone. rewrite dict_get_set_ne by congruence. exists r. auto 10. }
  unfold fold_entry.
  destruct (e_type e); cbn [accepted_species].
  1, 2: destruct (dict_get (species_name e) (accepted_species st)) eqn:Hg;
        cbn [accepted_species]; auto.
  all: unfold dict_mem; case_bool_decide as Hm;
       [exists r; auto 10|].
  all: apply Hnew; destruct (dict_get (species_name e) (accepted_species st));
       [exfalso; apply Hm; eauto|reflexivity].
Qed.

Lemma fold_entries_keeps (es : list entry) (st : state) (n : str) (r : accepted) :
  dict_get n (accepted_species st) = Some r ->
  exists r',
    dict_get n (accepted_species (fold_entries st es)) = Some r' /\
    (truthy_opt (a_author r) = true -> a_author r' = a_author r) /\
    (a_is_hybrid r = true -> a_is_hybrid r' = true) /\
    a_name r' = a_name r /\ a_url r' = a_url r /\ a_synonyms r' = a_synonyms r.
Proof.
  revert st r. induction es as [|e es IH]; intros st r Hr.
  - exists r. auto 10.
  - destruct (fold_entry_keeps st e n r Hr) as (r1 & H1 & Ha1 & Hh1 & Hn1 & Hu1 & Hs1).
    destruct (IH (fold_entry st e) r1 H1) as (r2 & H2 & Ha2 & Hh2 & Hn2 & Hu2 & Hs2).
    exists r2. split; [exact H2|].
    split; [|split; [|split; [|split]]]; try congruence.
    + intros Ht. rewrite Ha2; [auto|]. rewrite Ha1; auto.
    + auto.
Qed.

(** C5.  At every position of every entry sequence: when an
    ACCEPTED_SPECIES or ACCEPTED_HYBRID entry [e] comes after the entries
    [pre] and its name has a record [r] already, the step keeps the record's
    author when it has one and otherwise takes the author of the entry when
    that one is not empty; it sets the hybrid flag when the entry is a
    hybrid and never clears it; and whatever entries [post] follow, the
    author the record has after the step, if any, and a hybrid flag that is
    set are still there at the end of the fold. *)
Theorem fold_entry_merges (pre post : list entry) (e : entry) (r : accepted) :
  let st := fold_entries empty_state pre in
  e_type e = ACCEPTED_SPECIES \/ e_type e = ACCEPTED_HYBRID ->
  dict_get (species_name e) (accepted_species st) = Some r ->
  exists r1 r2,
    dict_get (species_name e) (accepted_species (fold_entry st e)) = Some r1 /\
    a_author r1 =
      (if truthy_opt (a_author r) then a_author r
       else if truthy_opt (author e) then author e else a_author r) /\
    a_is_hybrid r1 = a_is_hybrid r || is_hybrid_flag e /\
    dict_get (species_name e)
      (accepted_species (fold_entries empty_state (pre ++ e :: post))) = Some r2 /\
    (truthy_opt (a_author r1) = true -> a_author r2 = a_author r1) /\
    (a_is_hybrid r1 = true -> a_is_hybrid r2 = true).
Proof.
  intros st Ht Hr.
  assert (H1 : dict_get (species_name e) (accepted_species (fold_entry st e))
               = Some (merge_record r e)).
  { unfold fold_entry. destruct Ht as [-> | ->]; rewrite Hr;
      cbn [accepted_species]; apply dict_get_set_eq. }
  destruct (fold_entries_keeps post (fold_entry st e) _ _ H1)
    as (r2 & H2 & Ha & Hh & _).
  destruct (merge_record_fields r e) as (_ & _ & _ & Hma & Hmh).
  exists (merge_record r e), r2.
  split; [exact H1|]. split; [exact Hma|]. split; [exact Hmh|].
  split; [|split; assumption].
  unfold fold_entries in *. rewrite fold_left_app. exact H2.
Qed.

(** Alba is seen without an author, then as a hybrid with the author L.,
    then as a species with another author: the record ends as a hybrid
    with the author L. *)
Lemma fold_entry_merges_witness :
  exists r1 r2,
    dict_get (utf8 "alba")
      (accepted_species (fold_entry (fold_entries empty_state [ex_first]) ex_second))
      = Some r1 /\
    a_author r1 = Some (utf8 "L.") /\
    a_is_hybrid r1 = true /\
    dict_get (utf8 "alba")
      (accepted_species (fold_entries empty_state ([ex_first] ++ ex_second :: [ex_third])))
      = Some r2 /\
    (truthy_opt (a_author r1) = true -> a_author r2 = a_author r1) /\
    (a_is_hybrid r1 = true -> a_is_hybrid r2 = true).
Proof.
  apply (fold_entry_merges [ex_first] [ex_third] ex_second (new_record ex_first)).
  - right. reflexivity.
  - vm_compute. reflexivity.
Defined.

(** ** The loop over the lines is the fold over their entries *)

Lemma fold_lines_entries (py : PyLib) (lines : list str) (base_url : str) (st : state) :
  fst (fold_lines py lines base_url st) =
  fold_entries st (omap (fun line => fst (parse_line py line base_url)) lines).
Proof.
  revert st. induction lines as [|line lines IH]; intros st; [reflexivity|].
  cbn [fold_lines omap list_omap]. rewrite bind_fst.
  destruct (fst (parse_line py line base_url)) as [e|]; apply IH.
Qed.

Lemma parse_species_list_html_aggregate (py : PyLib) (html base_url : str) :
  fst (parse_species_list_html py html base_url) =
  aggregate (entries_of py html base_url).
Proof.
  unfold parse_species_list_html, aggregate, entries_of.
  rewrite bind_fst. cbn [ret fst]. rewrite fold_lines_entries. reflexivity.
Qed.

(** ** Folding a sequence a second time *)

Lemma fold_add_mapping (name : str) (syns : list synonym) (sm : dict (list mapping)) :
  List.fold_left (fun sm syn => add_mapping sm name syn) syns sm =
  List.fold_left add_pair
    (omap (fun syn =>
             match syn_name syn with
             | Some n =>
                 if truthy n
                 then Some (n, {| accepted_name := name;
                                  synonym_author := syn_author syn |})
                 else None
             | None => None
             end) syns) sm.
Proof.
  revert sm. induction syns as [|syn syns IH]; intros sm; [reflexivity|].
  cbn [List.fold_left omap list_omap]. rewrite IH. unfold add_mapping.
  destruct (syn_name syn) as [n|]; [|reflexivity].
  destruct (truthy n); reflexivity.
Qed.

Lemma synonym_map_fold_entry (st : state) (e : entry) :
  synonym_map (fold_entry st e) = List.fold_left add_pair (appended_by e) (synonym_map st).
Proof.
  unfold fold_entry, appended_by.
  destruct (e_type e); cbn [synonym_map];
    try (destruct (dict_get _ _); reflexivity);
    apply fold_add_mapping.
Qed.

Lemma synonym_map_fold_entries (es : list entry) (st : state) :
  synonym_map (fold_entries st es) =
  List.fold_left add_pair (concat (List.map appended_by es)) (synonym_map st).
Proof.
  revert st. induction es as [|e es IH]; intros st; [reflexivity|].
  cbn [fold_entries List.fold_left List.map concat].
  rewrite fold_left_app. rewrite <- synonym_map_fold_entry. apply IH.
Qed.

Lemma str_eqb_true (a b : str) : str_eqb a b = true <-> a = b.
Proof. unfold str_eqb. apply bool_decide_eq_true. Qed.

Lemma str_eqb_refl (a : str) : str_eqb a a = true.
Proof. apply str_eqb_true. reflexivity. Qed.

Lemma str_eqb_ne (a b : str) : a <> b -> str_eqb a b = false.
Proof. intros H. unfold str_eqb. apply bool_decide_eq_false_2, H. Qed.

Lemma dict_get_set {V} (k k2 : str) (v : V) (d : dict V) :
  dict_get k2 (dict_set k v d) = if str_eqb k k2 then Some v else dict_get k2 d.
Proof.
  destruct (decide (k = k2)) as [->|Hne].
  - rewrite str_eqb_refl. apply dict_get_set_eq.
  - rewrite str_eqb_ne by exact Hne. apply dict_get_set_ne, Hne.
Qed.

Lemma dict_get_In {V} (k : str) (v : V) (d : dict V) :
  dict_get k d = Some v -> In (k, v) d.
Proof.
  induction d as [|[k' v'] d IH]; simpl; [discriminate|].
  destruct (str_eqb k' k) eqn:E.
  - apply str_eqb_true in E. intros [= ->]. left. congruence.
  - intros H. right. apply IH, H.
Qed.

Lemma dict_get_None_keys {V} (k : str) (d : dict V) :
  dict_get k d = None <-> ~ In k (dict_keys d).
Proof.
  induction d as [|[k' v'] d IH]; simpl; [tauto|].
  destruct (str_eqb k' k) eqn:E.
  - apply str_eqb_true in E. split; [discriminate|]. intros H. exfalso. auto.
  - assert (k' <> k) by (intros ->; rewrite str_eqb_refl in E; discriminate).
    rewrite IH. tauto.
Qed.

Lemma In_dict_get {V} (k : str) (v : V) (d : dict V) :
  List.NoDup (dict_keys d) -> In (k, v) d -> dict_get k d = Some v.
Proof.
  induction d as [|[k' v'] d IH]; simpl; [tauto|].
  intros Hnd [Heq|Hin].
  - injection Heq as -> ->. rewrite str_eqb_refl. reflexivity.
  - inversion Hnd as [|? ? Hnot Hnd']; subst.
    destruct (str_eqb k' k) eqn:E.
    + apply str_eqb_true in E. subst k'. exfalso. apply Hnot.
      change k with (fst (k, v)). apply in_map, Hin.
    + apply IH; assumption.
Qed.

Lemma dict_keys_set {V} (k : str) (v : V) (d : dict V) :
  dict_keys (dict_set k v d) =
  match dict_get k d with Some _ => dict_keys d | None => dict_keys d ++ [k] end.
Proof.
  unfold dict_keys.
  induction d as [|[k' v'] d IH]; simpl; [reflexivity|].
  destruct (str_eqb k' k) eqn:E; simpl; [reflexivity|].
  rewrite IH. destruct (dict_get k d); reflexivity.
Qed.

Lemma dict_set_NoDup {V} (k : str) (v : V) (d : dict V) :
  List.NoDup (dict_keys d) -> List.NoDup (dict_keys (dict_set k v d)).
Proof.
  intros Hnd. rewrite dict_keys_set.
  destruct (dict_get k d) eqn:E; [exact Hnd|].
  apply dict_get_None_keys in E.
  apply NoDup_ListNoDup. apply NoDup_ListNoDup in Hnd.
  apply NoDup_app. split; [exact Hnd|]. split.
  - intros x Hx Hx'. apply list_elem_of_singleton in Hx'. subst x.
    apply E. apply list_elem_of_In. exact Hx.
  - apply NoDup_singleton.
Qed.

(** Assigning to a key that is present rewrites one value in place. *)
Lemma dict_set_map {V} (k : str) (f : V -> V) (old : V) (d : dict V) :
  List.NoDup (dict_keys d) -> dict_get k d = Some old ->
  dict_set k (f old) d =
  List.map (fun kv => (fst kv, if str_eqb (fst kv) k then f (snd kv) else snd kv)) d.
Proof.
  induction d as [|[k' v'] d IH]; simpl; [discriminate|].
  intros Hnd. inversion Hnd as [|? ? Hnot Hnd']; subst.
  destruct (str_eqb k' k) eqn:E.
  - intros [= ->]. f_equal. apply str_eqb_true in E. subst k'.
    rewrite <- (map_id d) at 1. apply map_ext_in.
    intros [k2 v2] Hin. simpl.
    rewrite str_eqb_ne; [reflexivity|].
    intros ->. apply Hnot. change k with (fst (k, v2)). apply in_map, Hin.
  - intros Hg. f_equal. apply IH; assumption.
Qed.

Lemma dict_get_map {V} (h : str -> V -> V) (k : str) (d : dict V) :
  dict_get k (List.map (fun kv => (fst kv, h (fst kv) (snd kv))) d) =
  h k <$> dict_get k d.
Proof.
  induction d as [|[k' v'] d IH]; simpl; [reflexivity|].
  destruct (str_eqb k' k) eqn:E; [|exact IH].
  apply str_eqb_true in E. subst k'. reflexivity.
Qed.

Lemma of_key_cons (k : str) (p : str * mapping) (ps : list (str * mapping)) :
  of_key k (p :: ps) =
  if str_eqb (fst p) k then snd p :: of_key k ps else of_key k ps.
Proof. unfold of_key. cbn [omap list_omap]. destruct (str_eqb (fst p) k); reflexivity. Qed.

Lemma fold_add_pair_get (ps : list (str * mapping)) (sm : dict (list mapping))
    (k : str) (l : list mapping) :
  dict_get k (List.fold_left add_pair ps sm) = Some l ->
  l = default [] (dict_get k sm) ++ of_key k ps.
Proof.
  revert sm. induction ps as [|p ps IH]; intros sm Hg.
  - simpl in Hg. rewrite Hg. simpl. rewrite app_nil_r. reflexivity.
  - cbn [List.fold_left] in Hg. apply IH in Hg. subst l.
    unfold add_pair. rewrite dict_get_set, of_key_cons.
    destruct (str_eqb (fst p) k) eqn:E; [|reflexivity].
    apply str_eqb_true in E. subst k. simpl default.
    rewrite <- app_assoc. reflexivity.
Qed.

Lemma add_pair_NoDup (sm : dict (list mapping)) (p : str * mapping) :
  List.NoDup (dict_keys sm) -> List.NoDup (dict_keys (add_pair sm p)).
Proof. apply dict_set_NoDup. Qed.

Lemma fold_add_pair_NoDup (ps : list (str * mapping)) (sm : dict (list mapping)) :
  List.NoDup (dict_keys sm) -> List.NoDup (dict_keys (List.fold_left add_pair ps sm)).
Proof.
  revert sm. induction ps as [|p ps IH]; intros sm H; [exact H|].
  apply IH, add_pair_NoDup, H.
Qed.

Lemma fold_add_pair_stays (ps : list (str * mapping)) (sm : dict (list mapping))
    (k : str) :
  is_Some (dict_get k sm) -> is_Some (dict_get k (List.fold_left add_pair ps sm)).
Proof.
  revert sm. induction ps as [|p ps IH]; intros sm H; [exact H|].
  apply IH. unfold add_pair. rewrite dict_get_set.
  destruct (str_eqb (fst p) k); [eauto|exact H].
Qed.

Lemma fold_add_pair_has (ps : list (str * mapping)) (sm : dict (list mapping)) :
  Forall (fun p => is_Some (dict_get (fst p) (List.fold_left add_pair ps sm))) ps.
Proof.
  revert sm. induction ps as [|p ps IH]; intros sm; constructor; [|apply IH].
  cbn [List.fold_left]. apply fold_add_pair_stays.
  unfold add_pair. rewrite dict_get_set_eq. eauto.
Qed.

(** Pairs whose keys are all present only lengthen the lists. *)
Lemma fold_add_pair_present (ps : list (str * mapping)) (sm : dict (list mapping)) :
  List.NoDup (dict_keys sm) ->
  Forall (fun p => is_Some (dict_get (fst p) sm)) ps ->
  List.fold_left add_pair ps sm =
  List.map (fun kv => (fst kv, snd kv ++ of_key (fst kv) ps)) sm.
Proof.
  revert sm. induction ps as [|p ps IH]; intros sm Hnd Hall.
  - simpl. rewrite <- (map_id sm) at 1. apply map_ext. intros [k l]. simpl.
    rewrite app_nil_r. reflexivity.
  - inversion Hall as [|? ? [old Hold] Hrest]; subst.
    cbn [List.fold_left]. unfold add_pair at 2. rewrite Hold. simpl default.
    rewrite (dict_set_map (fst p) (fun l => l ++ [snd p]) old sm Hnd Hold).
    rewrite IH.
    + rewrite map_map. apply map_ext. intros [k l]. cbn [fst snd].
      rewrite of_key_cons.
      destruct (decide (k = fst p)) as [->|Hne].
      * rewrite str_eqb_refl, <- app_assoc. reflexivity.
      * rewrite !str_eqb_ne by congruence. reflexivity.
    + unfold dict_keys. rewrite map_map. exact Hnd.
    + eapply Forall_impl; [exact Hrest|]. intros q [v Hq]. cbn beta in *.
      rewrite (dict_get_map (fun k l => if str_eqb k (fst p) then l ++ [snd p] else l)).
      rewrite Hq. eauto.
Qed.

(** Folding the pairs again doubles every list. *)
Lemma fold_add_pair_twice (ps : list (str * mapping)) :
  let sm := List.fold_left add_pair ps [] in
  List.fold_left add_pair ps sm =
  List.map (fun kv => (fst kv, snd kv ++ snd kv)) sm.
Proof.
  intros sm.
  assert (Hnd : List.NoDup (dict_keys sm))
    by (apply fold_add_pair_NoDup; constructor).
  rewrite fold_add_pair_present; [|exact Hnd|apply fold_add_pair_has].
  apply map_ext_in. intros [k l] Hin. cbn [fst snd].
  apply In_dict_get in Hin; [|exact Hnd].
  apply fold_add_pair_get in Hin. simpl in Hin. subst l. reflexivity.
Qed.

Lemma merge_covers (r : accepted) (e : entry) :
  covers r e -> merge_record r e = r.
Proof.
  intros [Ha Hh]. unfold merge_record. destruct r as [n a u h s].
  cbn [a_author a_is_hybrid a_name a_url a_synonyms] in *.
  destruct (truthy_opt (author e)); [rewrite Ha by reflexivity|]; cbn [andb negb];
    (destruct (is_hybrid_flag e); [rewrite Hh by reflexivity|]; reflexivity).
Qed.

Lemma covers_new (e : entry) : covers (new_record e) e.
Proof. split; auto. Qed.

Lemma covers_merge (r : accepted) (e : entry) : covers (merge_record r e) e.
Proof.
  destruct (merge_record_fields r e) as (_ & _ & _ & Ha & Hh).
  split; intros H.
  - rewrite Ha. destruct (truthy_opt (a_author r)) eqn:E; [exact E|].
    rewrite H. exact H.
  - rewrite Hh, H. apply orb_true_r.
Qed.

Lemma absorbed_step (st : state) (e : entry) :
  absorbed (accepted_species (fold_entry st e)) e.
Proof.
  unfold absorbed, fold_entry.
  destruct (e_type e) eqn:Ht; cbn [accepted_species].
  1, 2: destruct (dict_get (species_name e) (accepted_species st)) eqn:Hg;
        cbn [accepted_species]; rewrite dict_get_set_eq; eexists;
        (split; [reflexivity|]); intros _;
        [apply covers_merge|apply covers_new].
  all: unfold dict_mem; case_bool_decide as Hm;
       [destruct Hm as [r Hr]; exists r; split; [exact Hr|];
        intros [?|?]; discriminate
       |rewrite dict_get_set_eq; eexists; split; [reflexivity|];
        intros [?|?]; discriminate].
Qed.

Lemma absorbed_keeps (st : state) (e2 e : entry) :
  absorbed (accepted_species st) e ->
  absorbed (accepted_species (fold_entry st e2)) e.
Proof.
  intros (r & Hr & Hc).
  destruct (fold_entry_keeps st e2 _ _ Hr) as (r' & Hr' & Ha & Hh & _).
  exists r'. split; [exact Hr'|]. intros Ht. destruct (Hc Ht) as [Hca Hch].
  split; intros H.
  - rewrite Ha; auto.
  - auto.
Qed.

Lemma absorbed_keeps_fold (es : list entry) (st : state) (e : entry) :
  absorbed (accepted_species st) e ->
  absorbed (accepted_species (fold_entries st es)) e.
Proof.
  revert st. induction es as [|e2 es IH]; intros st H; [exact H|].
  apply IH, absorbed_keeps, H.
Qed.

Lemma absorbed_all (es : list entry) (st : state) :
  Forall (absorbed (accepted_species (fold_entries st es))) es.
Proof.
  revert st. induction es as [|e es IH]; intros st; constructor; [|apply IH].
  cbn [fold_entries List.fold_left]. apply absorbed_keeps_fold, absorbed_step.
Qed.

Lemma absorbed_noop (st : state) (e : entry) :
  absorbed (accepted_species st) e ->
  accepted_species (fold_entry st e) = accepted_species st.
Proof.
  intros (r & Hr & Hc). unfold fold_entry.
  destruct (e_type e) eqn:Ht; cbn [accepted_species].
  1, 2: rewrite Hr; cbn [accepted_species]; rewrite merge_covers by auto;
        apply dict_set_same, Hr.
  all: unfold dict_mem; rewrite bool_decide_eq_true_2 by eauto; reflexivity.
Qed.

Lemma refold_accepted (es : list entry) (st : state) :
  Forall (absorbed (accepted_species st)) es ->
  accepted_species (fold_entries st es) = accepted_species st.
Proof.
  revert st. induction es as [|e es IH]; intros st H; [reflexivity|].
  inversion H as [|? ? He Hes]; subst.
  cbn [fold_entries List.fold_left].
  assert (Hn := absorbed_noop st e He).
  rewrite <- Hn. apply IH. rewrite Hn. exact Hes.
Qed.

(** ** The final step *)

Lemma with_synonyms_same (r : accepted) : with_synonyms r (a_synonyms r) = r.
Proof. destruct r; reflexivity. Qed.

Lemma attach_flat (sm : dict (list mapping)) (acc : dict accepted) :
  attach_synonyms acc sm =
  List.fold_left (fun acc km => attach_one acc (fst km) (snd km)) (flat_mappings sm) acc.
Proof.
  unfold attach_synonyms, flat_mappings.
  revert acc. induction sm as [|[k l] sm IH]; intros acc; [reflexivity|].
  cbn [List.fold_left List.map concat fst snd]. rewrite fold_left_app, IH.
  f_equal. clear. revert acc. induction l as [|m l IHl]; intros acc; [reflexivity|].
  cbn [List.fold_left List.map fst snd]. apply IHl.
Qed.

Lemma attach_get (kms : list (str * mapping)) (acc : dict accepted) (n : str) :
  dict_get n (List.fold_left (fun acc km => attach_one acc (fst km) (snd km)) kms acc) =
  (fun r => with_synonyms r
     (a_synonyms r ++
      omap (fun km =>
              if str_eqb (accepted_name (snd km)) n
              then Some {| at_name := fst km; at_author := synonym_author (snd km) |}
              else None) kms))
  <$> dict_get n acc.
Proof.
  revert acc. induction kms as [|[k m] kms IH]; intros acc.
  - simpl. destruct (dict_get n acc); [|reflexivity]. simpl.
    rewrite app_nil_r, with_synonyms_same. reflexivity.
  - cbn [List.fold_left omap list_omap fst snd]. rewrite IH. unfold attach_one.
    destruct (str_eqb (accepted_name m) n) eqn:E.
    + apply str_eqb_true in E. subst n.
      destruct (dict_get (accepted_name m) acc) as [r0|] eqn:Hg.
      * rewrite dict_get_set_eq. simpl. unfold with_synonyms, append_synonym.
        cbn [a_name a_author a_url a_is_hybrid a_synonyms].
        rewrite <- app_assoc. reflexivity.
      * rewrite Hg. reflexivity.
    + assert (accepted_name m <> n)
        by (intros Heq; rewrite Heq, str_eqb_refl in E; discriminate).
      destruct (dict_get (accepted_name m) acc) as [r0|];
        [rewrite dict_get_set_ne by assumption|]; reflexivity.
Qed.

(** Before the final step a record has no synonym and is filed under its
    name. *)
Lemma fold_entry_fresh (st : state) (e : entry) :
  (forall n r, dict_get n (accepted_species st) = Some r ->
               a_synonyms r = [] /\ a_name r = n) ->
  forall n r, dict_get n (accepted_species (fold_entry st e)) = Some r ->
              a_synonyms r = [] /\ a_name r = n.
Proof.
  intros Inv n r.
  assert (Hset : forall r0,
            (a_synonyms r0 = [] /\ a_name r0 = species_name e) ->
            dict_get n (dict_set (species_name e) r0 (accepted_species st)) = Some r ->
            a_synonyms r = [] /\ a_name r = n).
  { intros r0 H0. rewrite dict_get_set.
    destruct (str_eqb (species_name e) n) eqn:E; [|apply Inv].
    apply str_eqb_true in E. intros [= <-]. subst n. exact H0. }
  unfold fold_entry.
  destruct (e_type e); cbn [accepted_species].
  1, 2: destruct (dict_get (species_name e) (accepted_species st)) as [r0|] eqn:Hg;
        cbn [accepted_species]; apply Hset;
        [destruct (merge_record_fields r0 e) as (Hn & _ & Hs & _);
         rewrite Hn, Hs; apply Inv, Hg
        |split; reflexivity].
  all: destruct (dict_mem _ _); [apply Inv|apply Hset; split; reflexivity].
Qed.

Lemma fold_entries_fresh (es : list entry) (st : state) :
  (forall n r, dict_get n (accepted_species st) = Some r ->
               a_synonyms r = [] /\ a_name r = n) ->
  forall n r, dict_get n (accepted_species (fold_entries st es)) = Some r ->
              a_synonyms r = [] /\ a_name r = n.
Proof.
  revert st. induction es as [|e es IH]; intros st Inv; [exact Inv|].
  cbn [fold_entries List.fold_left]. apply IH, fold_entry_fresh, Inv.
Qed.

(** C6, as stated, fails.  The page holds the same synonym statement on two
    lines.  Folding its entries a second time does not give the state of
    the first fold back, and the record the final step returns holds the
    synonym twice: nothing removes duplicates. *)
Lemma refold_counterexample :
  let es := entries_of py_plain ex_twice ex_base in
  fold_entries (fold_entries empty_state es) es <> fold_entries empty_state es /\
  exists r,
    In r (fst (fst (parse_species_list_html py_plain ex_twice ex_base))) /\
    List.map at_name (a_synonyms r) = [utf8 "aaata"; utf8 "aaata"] /\
    ~ List.NoDup (List.map at_name (a_synonyms r)).
Proof.
  split.
  - vm_compute. discriminate.
  - eexists. split; [vm_compute; left; reflexivity|].
    split; [reflexivity|].
    cbn [a_synonyms List.map at_name]. intros Hnd.
    inversion Hnd as [|? ? Hnot _]; subst. apply Hnot. left. reflexivity.
Qed.

(** C6, amended.  Folding an entry sequence a second time, into the maps
    the first fold made, leaves the accepted records as they were (so
    no author is overwritten), and appends every synonym mapping once
    more, so that each list of the synonym mapping is doubled.  The final
    step gives the record of a name one sub-entry for each mapping to
    that name, in the order of the mapping, with no de-duplication. *)
Theorem refold (es : list entry) :
  let st1 := fold_entries empty_state es in
  let st2 := fold_entries st1 es in
  accepted_species st2 = accepted_species st1 /\
  synonym_map st2 =
    List.map (fun kv => (fst kv, snd kv ++ snd kv)) (synonym_map st1) /\
  forall n,
    dict_get n (attach_synonyms (accepted_species st1) (synonym_map st1)) =
    (fun r => with_synonyms r (attached_to n (synonym_map st1)))
    <$> dict_get n (accepted_species st1).
Proof.
  intros st1 st2. split; [|split].
  - apply refold_accepted, absorbed_all.
  - unfold st2, st1. rewrite !synonym_map_fold_entries.
    apply (fold_add_pair_twice (concat (List.map appended_by es))).
  - intros n. rewrite attach_flat, attach_get. unfold attached_to.
    destruct (dict_get n (accepted_species st1)) as [r|] eqn:Hr; [|reflexivity].
    simpl. f_equal. f_equal.
    destruct (fold_entries_fresh es empty_state) with (n := n) (r := r) as [Hs _];
      [discriminate|exact Hr|].
    rewrite Hs. reflexivity.
Qed.

(** On the page with the repeated statement: the records are unchanged by
    a second fold, the list of aaata is doubled, and corrugata gets one
    sub-entry for each of its two mappings. *)
Lemma refold_witness :
  let es := entries_of py_plain ex_twice ex_base in
  let st1 := fold_entries empty_state es in
  accepted_species (fold_entries st1 es) = accepted_species st1 /\
  List.map (fun kv => length (snd kv)) (synonym_map (fold_entries st1 es)) = [4] /\
  (a_synonyms <$>
     dict_get (utf8 "corrugata")
       (attach_synonyms (accepted_species st1) (synonym_map st1))) =
  Some [ {| at_name := utf8 "aaata"; at_author := None |};
         {| at_name := utf8 "aaata"; at_author := None |} ].
Proof.
  intros es st1.
  destruct (refold es) as (Ha & Hm & Hs).
  split; [exact Ha|]. split.
  - fold st1 in Hm. rewrite Hm. vm_compute. reflexivity.
  - fold st1 in Hs. rewrite Hs. vm_compute. reflexivity.
Defined.

(** ** The chain resolver *)

Lemma unvisited_shrinks (m : gmap str str) (v : gset str) (n next : str) :
  n ∉ v -> m !! n = Some next ->
  size (dom m ∖ ({[n]} ∪ v)) < size (dom m ∖ v).
Proof.
  intros Hn Hm. apply subset_size.
  assert (Hd : n ∈ dom m) by (apply elem_of_dom; eauto).
  split.
  - intros x Hx. apply elem_of_difference in Hx as [Hx Hnx].
    apply elem_of_difference. split; [exact Hx|].
    intros Hxv. apply Hnx, elem_of_union. right. exact Hxv.
  - intros Hsub.
    assert (Hin : n ∈ dom m ∖ ({[n]} ∪ v)).
    { apply Hsub, elem_of_difference. split; assumption. }
    apply elem_of_difference in Hin as [_ Hnot].
    apply Hnot, elem_of_union. left. apply elem_of_singleton. reflexivity.
Qed.

(** With more frames than keys left to visit the walk comes to its end,
    and it writes no note. *)
Lemma resolve_synonym_enough (m : gmap str str) (frames : nat) (name : str)
    (visited : gset str) :
  size (dom m ∖ visited) < frames ->
  exists r, resolve_synonym frames name m visited = Some (r, []).
Proof.
  revert name visited. induction frames as [|frames IH]; intros name visited Hlt; [lia|].
  simpl. case_bool_decide as Hv; [eexists; reflexivity|].
  destruct (m !! name) as [next|] eqn:Hm; [|eexists; reflexivity].
  apply IH. pose proof (unvisited_shrinks m visited name next Hv Hm). lia.
Qed.

(** More frames do not change a result. *)
Lemma resolve_synonym_more (m : gmap str str) (frames frames' : nat) (name : str)
    (visited : gset str) (x : logged str) :
  resolve_synonym frames name m visited = Some x ->
  frames <= frames' ->
  resolve_synonym frames' name m visited = Some x.
Proof.
  revert frames' name visited. induction frames as [|frames IH];
    intros frames' name visited H Hle; [discriminate|].
  destruct frames' as [|frames']; [lia|].
  simpl in *. case_bool_decide; [exact H|].
  destruct (m !! name); [|exact H].
  apply (IH frames'); [exact H|lia].
Qed.

Lemma resolve_synonym_notes (m : gmap str str) (frames : nat) (name : str)
    (visited : gset str) (r : str) (notes : list note) :
  resolve_synonym frames name m visited = Some (r, notes) -> notes = [].
Proof.
  revert name visited. induction frames as [|frames IH]; intros name visited;
    [discriminate|].
  simpl. case_bool_decide; [intros [= _ <-]; reflexivity|].
  destruct (m !! name); [apply IH|intros [= _ <-]; reflexivity].
Qed.

Lemma size_unvisited_empty (m : gmap str str) : size (dom m ∖ (∅ : gset str)) = size m.
Proof. rewrite difference_empty_L. apply size_dom. Qed.

(** What the resolver returns is the end of its walk: a name it had
    visited, or a name that is no key. *)
Lemma resolve_synonym_walk (m : gmap str str) (frames : nat) (name : str)
    (visited : gset str) (x : logged str) :
  resolve_synonym frames name m visited = Some x ->
  exists v', walk m name visited (fst x) v' /\ (fst x ∈ v' \/ m !! fst x = None).
Proof.
  revert name visited. induction frames as [|frames IH]; intros name visited;
    [discriminate|].
  simpl. case_bool_decide as Hv.
  - intros [= <-]. exists visited. split; [apply walk_here|left; exact Hv].
  - destruct (m !! name) as [next|] eqn:Hm.
    + intros H. destruct (IH _ _ H) as (v' & Hw & Hend).
      exists v'. split; [|exact Hend].
      apply (walk_step m name visited next); assumption.
    + intros [= <-]. exists visited. split; [apply walk_here|right; exact Hm].
Qed.

(** With more frames than the mapping has keys, a call returns, for every
    finite mapping, with or without cycles: the name where the walk from
    [name] ends, and no note.  No lookup can fail, since a name is only
    looked up once it is known to be a key. *)
Lemma resolve_synonym_returns (frames : nat) (name : str) (synonym_map : gmap str str) :
  size synonym_map < frames ->
  exists r v',
    resolve_synonym frames name synonym_map ∅ = Some (r, []) /\
    walk synonym_map name ∅ r v' /\
    (r ∈ v' \/ synonym_map !! r = None).
Proof.
  intros Hlt.
  destruct (resolve_synonym_enough synonym_map frames name ∅)
    as [r Hr]; [rewrite size_unvisited_empty; exact Hlt|].
  destruct (resolve_synonym_walk _ _ _ _ _ Hr) as (v' & Hw & Hend).
  exists r, v'. split; [exact Hr|]. split; assumption.
Qed.

(** *** A long chain *)

Lemma chain_name_inj (i j : nat) : chain_name i = chain_name j -> i = j.
Proof.
  unfold chain_name. intros H.
  apply (f_equal (@length char)) in H. rewrite !repeat_length in H. lia.
Qed.

Lemma chain_map_key (n i : nat) :
  i < n -> chain_map n !! chain_name i = Some (chain_name (S i)).
Proof.
  intros Hi. unfold chain_map. apply elem_of_list_to_map_1.
  - rewrite <- list_fmap_compose.
    apply NoDup_fmap_2; [intros a b; apply chain_name_inj|apply NoDup_seq].
  - apply list_elem_of_In, in_map_iff. exists i.
    split; [reflexivity|]. apply in_seq. lia.
Qed.

Lemma chain_map_end (n i : nat) : n <= i -> chain_map n !! chain_name i = None.
Proof.
  intros Hi. unfold chain_map. apply not_elem_of_list_to_map_1.
  rewrite <- list_fmap_compose. intros Hin.
  apply list_elem_of_In, in_map_iff in Hin as (j & Hj & Hin).
  cbn in Hj. apply chain_name_inj in Hj. apply in_seq in Hin. lia.
Qed.

(** From the [i]-th name of the chain of [n] keys, with the names before it
    visited, a call that has no frame for each key still ahead and one
    more runs out of frames. *)
Lemma chain_raises (n frames i : nat) (visited : gset str) :
  frames + i <= n ->
  (forall j, chain_name j ∈ visited -> j < i) ->
  resolve_synonym frames (chain_name i) (chain_map n) visited = None.
Proof.
  revert i visited. induction frames as [|frames IH]; intros i visited Hle Hv;
    [reflexivity|].
  simpl. rewrite bool_decide_eq_false_2
    by (intros Hin; apply Hv in Hin; lia).
  rewrite chain_map_key by lia.
  apply IH; [lia|].
  intros j Hj. apply elem_of_union in Hj as [Hj|Hj].
  - apply elem_of_singleton in Hj. apply chain_name_inj in Hj. lia.
  - apply Hv in Hj. lia.
Qed.

(** With a frame for each key ahead and one more, the same call returns the
    end of the chain. *)
Lemma chain_resolves (n frames i : nat) (visited : gset str) :
  i <= n -> n < frames + i ->
  (forall j, chain_name j ∈ visited -> j < i) ->
  resolve_synonym frames (chain_name i) (chain_map n) visited =
  Some (chain_name n, []).
Proof.
  revert i visited. induction frames as [|frames IH]; intros i visited Hi Hlt Hv;
    [lia|].
  simpl. rewrite bool_decide_eq_false_2
    by (intros Hin; apply Hv in Hin; lia).
  destruct (decide (i = n)) as [->|Hne].
  - rewrite chain_map_end by lia. reflexivity.
  - rewrite chain_map_key by lia.
    apply IH; [lia|lia|].
    intros j Hj. apply elem_of_union in Hj as [Hj|Hj].
    + apply elem_of_singleton in Hj. apply chain_name_inj in Hj. lia.
    + apply Hv in Hj. lia.
Qed.

(** C7.  What the code does on a long chain: [resolve_synonym] calls itself
    once for every key it follows, so on the chain of [n] keys without a
    cycle a call that is granted no more than [n] frames raises
    RecursionError instead of returning a name; the mapping is finite, it
    has [n] keys, and with a frame more than it has keys the same call
    returns the end of the chain.  The interpreter grants at most
    [recursion_limit] frames, so the chain of that many keys is never
    resolved. *)
Theorem resolve_synonym_recursion_error (frames n : nat) :
  frames <= n ->
  resolve_synonym frames (chain_name 0) (chain_map n) ∅ = None /\
  size (chain_map n) = n /\
  (forall frames', n < frames' ->
     resolve_synonym frames' (chain_name 0) (chain_map n) ∅ =
     Some (chain_name n, [])).
Proof.
  intros Hle. split; [|split].
  - apply chain_raises; [lia|]. intros j Hj. apply elem_of_empty in Hj. destruct Hj.
  - unfold chain_map. rewrite <- size_dom, dom_list_to_map_L.
    rewrite <- list_fmap_compose, size_list_to_set.
    + rewrite length_fmap. apply length_seq.
    + apply NoDup_fmap_2; [intros a b; apply chain_name_inj|apply NoDup_seq].
  - intros frames' Hlt. apply chain_resolves; [lia|lia|].
    intros j Hj. apply elem_of_empty in Hj. destruct Hj.
Qed.

(** The chain of a thousand keys, with every frame the interpreter has. *)
Lemma resolve_synonym_recursion_error_witness :
  resolve_synonym recursion_limit (chain_name 0) (chain_map recursion_limit) ∅ = None /\
  size (chain_map recursion_limit) = recursion_limit /\
  (forall frames', recursion_limit < frames' ->
     resolve_synonym frames' (chain_name 0) (chain_map recursion_limit) ∅ =
     Some (chain_name recursion_limit, [])).
Proof.
  apply (resolve_synonym_recursion_error recursion_limit recursion_limit).
  apply Nat.le_refl.
Defined.

(** A walk that ends at a visited name is what the resolver returns, when
    it has a frame for each name visited and one more; with fewer frames,
    or more, it returns nothing else. *)
Lemma walk_result (m : gmap str str) (n : str) (v : gset str) (n' : str)
    (v' : gset str) :
  walk m n v n' v' -> n' ∈ v' ->
  forall frames, size v' < size v + frames ->
                 resolve_synonym frames n m v = Some (n', []).
Proof.
  induction 1 as [n v|n v next n' v' Hn Hm Hw IH]; intros Hin frames Hlt.
  - destruct frames as [|frames]; [lia|]. simpl.
    rewrite bool_decide_eq_true_2 by exact Hin. reflexivity.
  - destruct frames as [|frames].
    { exfalso. clear IH. rewrite Nat.add_0_r in Hlt.
      assert (Hsub : {[n]} ∪ v ⊆ v').
      { clear Hlt Hin. remember ({[n]} ∪ v) as v0 eqn:E. clear E Hn Hm.
        induction Hw as [|? ? ? ? ? _ _ _ IHw]; [reflexivity|].
        etransitivity; [|exact IHw]. apply union_subseteq_r. }
      apply subseteq_size in Hsub.
      rewrite size_union in Hsub by set_solver.
      rewrite size_singleton in Hsub. lia. }
    simpl. rewrite bool_decide_eq_false_2 by exact Hn. rewrite Hm.
    apply IH; [exact Hin|].
    rewrite size_union by set_solver. rewrite size_singleton. lia.
Qed.

(** C8, as stated, fails: on the mapping of the example the resolver
    returns a and writes no note, where the specification has it write
    one. *)
Lemma resolve_synonym_cycle_counterexample :
  resolve_synonym 3 (utf8 "a") ex_cycle ∅ = Some (utf8 "a", []) /\
  ~ (exists frames r n,
       resolve_synonym frames (utf8 "a") ex_cycle ∅ = Some (r, [n])).
Proof.
  split; [vm_compute; reflexivity|].
  intros (frames & r & n & Hr).
  apply resolve_synonym_notes in Hr. discriminate.
Qed.

(** C8, amended.  When the walk from a name reaches a name it has visited,
    the resolver stops and returns that name, given a frame for each name
    the walk has visited and one for the call that finds the name again;
    it writes no note, there or anywhere else; on the mapping of a to b and
    b to a, resolving a returns a. *)
Theorem resolve_synonym_cycle (frames : nat) (name : str) (synonym_map : gmap str str)
    (n' : str) (v' : gset str) :
  walk synonym_map name ∅ n' v' -> n' ∈ v' -> size v' < frames ->
  resolve_synonym frames name synonym_map ∅ = Some (n', []) /\
  (forall frames2 name2 r notes,
     resolve_synonym frames2 name2 synonym_map ∅ = Some (r, notes) -> notes = []) /\
  (forall frames2, 2 < frames2 ->
     resolve_synonym frames2 (utf8 "a") ex_cycle ∅ = Some (utf8 "a", [])).
Proof.
  intros Hw Hin Hlt. split; [|split].
  - apply (walk_result _ _ _ _ _ Hw Hin). rewrite size_empty. exact Hlt.
  - intros frames2 name2 r notes. apply resolve_synonym_notes.
  - intros frames2 Hf.
    apply (resolve_synonym_more ex_cycle 3); [vm_compute; reflexivity|lia].
Qed.

(** The walk from a goes to b and back to a, which is visited by then. *)
Lemma resolve_synonym_cycle_witness :
  resolve_synonym 3 (utf8 "a") ex_cycle ∅ = Some (utf8 "a", []) /\
  (forall frames2 name2 r notes,
     resolve_synonym frames2 name2 ex_cycle ∅ = Some (r, notes) -> notes = []) /\
  (forall frames2, 2 < frames2 ->
     resolve_synonym frames2 (utf8 "a") ex_cycle ∅ = Some (utf8 "a", [])).
Proof.
  apply (resolve_synonym_cycle 3 (utf8 "a") ex_cycle (utf8 "a")
           ({[utf8 "b"]} ∪ ({[utf8 "a"]} ∪ ∅))).
  - apply (walk_step _ _ _ (utf8 "b")); [set_solver|vm_compute; reflexivity|].
    apply (walk_step _ _ _ (utf8 "a")); [|vm_compute; reflexivity|apply walk_here].
    intros H. apply elem_of_union in H as [H|H]; [|set_solver].
    apply elem_of_singleton in H. discriminate.
  - set_solver.
  - vm_compute. lia.
Defined.

(** ** The hand-off *)

Lemma str_leb_total (a b : str) : str_leb a b = false -> str_leb b a = true.
Proof.
  revert b. induction a as [|x a IH]; intros [|y b]; simpl; try discriminate;
    [reflexivity|].
  destruct (N.ltb_spec x y); [discriminate|].
  destruct (N.eqb_spec x y) as [->|Hne].
  - rewrite N.ltb_irrefl, N.eqb_refl. apply IH.
  - intros _. assert (Hlt : (y < x)%N) by lia.
    apply N.ltb_lt in Hlt. rewrite Hlt. reflexivity.
Qed.

Lemma str_leb_trans (a b c : str) :
  str_leb a b = true -> str_leb b c = true -> str_leb a c = true.
Proof.
  revert b c. induction a as [|x a IH]; intros [|y b] [|z c]; simpl;
    try discriminate; try reflexivity.
  destruct (N.ltb_spec x y) as [Hxy|Hxy].
  - intros _. destruct (N.ltb_spec y z) as [Hyz|Hyz].
    + intros _. assert (H : (x < z)%N) by lia.
      apply N.ltb_lt in H. rewrite H. reflexivity.
    + destruct (N.eqb_spec y z) as [->|]; [|discriminate].
      intros _. apply N.ltb_lt in Hxy. rewrite Hxy. reflexivity.
  - destruct (N.eqb_spec x y) as [->|]; [|discriminate].
    intros Hab. destruct (N.ltb_spec y z); [reflexivity|].
    destruct (N.eqb_spec y z); [|discriminate].
    apply IH, Hab.
Qed.

Lemma name_le_trans : Relation_Definitions.transitive species name_le.
Proof. intros a b c. unfold name_le. apply str_leb_trans. Qed.

Lemma insert_by_name_perm (x : species) (l : list species) :
  Permutation (insert_by_name x l) (x :: l).
Proof.
  induction l as [|y l IH]; simpl; [reflexivity|].
  destruct (str_leb (sp_name x) (sp_name y)); [reflexivity|].
  rewrite IH. apply perm_swap.
Qed.

Lemma insert_by_name_sorted (x : species) (l : list species) :
  Sorted name_le l -> Sorted name_le (insert_by_name x l).
Proof.
  induction l as [|y l IH]; intros Hs; simpl.
  - repeat constructor.
  - destruct (str_leb (sp_name x) (sp_name y)) eqn:E.
    + constructor; [exact Hs|]. constructor. exact E.
    + apply Sorted_inv in Hs as [Hs Hhd].
      constructor; [apply IH, Hs|].
      assert (Hyx : name_le y x) by (apply str_leb_total, E).
      destruct l as [|z l]; simpl.
      * constructor. exact Hyx.
      * destruct (str_leb (sp_name x) (sp_name z)); constructor;
          [exact Hyx|]. apply HdRel_inv in Hhd. exact Hhd.
Qed.

Lemma sort_by_name_sorted (l : list species) : Sorted name_le (sort_by_name l).
Proof.
  induction l as [|x l IH]; simpl; [constructor|].
  apply insert_by_name_sorted, IH.
Qed.

Lemma sort_by_name_perm (l : list species) : Permutation (sort_by_name l) l.
Proof.
  induction l as [|x l IH]; simpl; [reflexivity|].
  rewrite insert_by_name_perm, IH. reflexivity.
Qed.

(** C9.  Whatever species data the run has gathered, the list that [main]
    hands to [save_final_output] is in ascending order of name, in the
    order of Python strings: every record's name is at most the name of
    every record after it.  The list holds the records that
    [build_hybrid_relationships] returned, each once. *)
Theorem hand_off_sorted (species_data : list species) :
  StronglySorted name_le (hand_off species_data) /\
  Permutation (hand_off species_data) (build_hybrid_relationships species_data).
Proof.
  unfold hand_off. split.
  - apply Sorted_StronglySorted; [exact name_le_trans|apply sort_by_name_sorted].
  - apply sort_by_name_perm.
Qed.

(** The species of the example, handed off: in order of name, and alba
    has learnt of its hybrid. *)
Lemma hand_off_example :
  List.map (fun s => (sp_name s, sp_hybrids s)) (hand_off ex_unsorted) =
  [ (utf8 "alba", Some [utf8 "bebbiana"]);
    (utf8 "bebbiana", None);
    (utf8 "rubra", Some []) ].
Proof. vm_compute. reflexivity. Qed.

(** The list that [parse_species_list_html] itself returns is in the order
    of first sighting; the sort is that of [main]. *)
Lemma parse_species_list_html_order :
  List.map a_name
    (fst (fst (parse_species_list_html py_plain
                 (markup "<a href=Qquercus_rubra.htmQ>rubra</a> L." ++ [10%N] ++
                  markup "<a href=Qquercus_alba.htmQ>alba</a> L.")
                 ex_base)))
  = [utf8 "rubra"; utf8 "alba"].
Proof. vm_compute. reflexivity. Qed.

(** ** The synonyms of an entry *)

Lemma add_mapping_unnamed (sm : dict (list mapping)) (species : str) (s : synonym) :
  truthy_opt (syn_name s) = false -> add_mapping sm species s = sm.
Proof.
  unfold add_mapping, truthy_opt. destruct (syn_name s) as [n|]; [|reflexivity].
  intros ->. reflexivity.
Qed.

(** C10.  An entry that [parse_line] returns has no synonym when its type
    is ACCEPTED_SPECIES, ACCEPTED_HYBRID or OTHER_LINK, and exactly one
    sub-record when its type is SYNONYM_EQUALS; the name of that sub-record
    is the first word left of the equals separator and is absent when
    there is no word there, and the aggregator then adds no mapping for
    it.  An OTHER_LINK entry leaves the synonym mapping as it is: all it
    can do is make the record of its name when there is none. *)
Theorem parse_line_synonyms (py : PyLib) (line base_url : str) (e : entry) :
  fst (parse_line py line base_url) = Some e ->
  match e_type e with
  | ACCEPTED_SPECIES | ACCEPTED_HYBRID => synonyms e = []
  | OTHER_LINK =>
      synonyms e = [] /\
      forall st,
        synonym_map (fold_entry st e) = synonym_map st /\
        accepted_species (fold_entry st e) =
          (if dict_mem (species_name e) (accepted_species st)
           then accepted_species st
           else dict_set (species_name e) (new_record e) (accepted_species st))
  | SYNONYM_EQUALS =>
      exists s p0 p1,
        synonyms e = [s] /\
        re_split1 equals_re (strip_html_tags py (strip line)) = [p0; p1] /\
        syn_name s = first_word (split (strip p0)) /\
        (split (strip p0) = [] ->
         syn_name s = None /\
         forall st, synonym_map (fold_entry st e) = synonym_map st)
  | SYNONYM_SEE => True
  end.
Proof.
  intros H.
  destruct (parse_line_cases py line base_url e H)
    as (href & text & rest & s & Hl & Hs & Ht & Hc).
  cbv zeta in Hc.
  destruct Hc as [[_ Hp]|[(_ & _ & Hp)|[(_ & _ & _ & _ & Hp)|
                 [(_ & _ & _ & _ & Hp)|(_ & _ & _ & Hp)]]]].
  - rewrite parse_synonym_see_fst in Hp.
    destruct (re_split1 see_re _) as [|? [|? [|? ?]]]; try discriminate.
    injection Hp as <-. exact I.
  - rewrite parse_synonym_equals_fst in Hp.
    destruct (re_split1 equals_re _) as [|p0 [|p1 [|? ?]]] eqn:Hsp; try discriminate.
    injection Hp as <-. cbn [e_type synonyms].
    eexists _, p0, p1. split; [reflexivity|]. split; [reflexivity|].
    cbn [syn_name]. split; [reflexivity|].
    intros Hw. rewrite Hw. split; [reflexivity|].
    intros st. unfold fold_entry. cbn [e_type synonyms synonym_map List.fold_left].
    apply add_mapping_unnamed. reflexivity.
  - destruct (parse_accepted_hybrid_fst py
                (strip_html_tags py (strip line)) (urljoin py base_url href) s
                (strip line)) as [a Ha].
    rewrite Ha in Hp. injection Hp as <-. reflexivity.
  - rewrite parse_accepted_species_fst in Hp.
    destruct (split _); try discriminate.
    injection Hp as <-. reflexivity.
  - rewrite parse_other_link_fst in Hp. injection Hp as <-.
    cbn [e_type synonyms]. split; [reflexivity|].
    intros st. unfold fold_entry.
    cbn [e_type synonyms synonym_map accepted_species List.fold_left species_name].
    split; reflexivity.
Qed.

(** The equals line with nothing left of the sign: one sub-record, with no
    name, and no mapping for it. *)
Lemma parse_line_synonyms_witness :
  fst (parse_line py_plain ex_no_left ex_base) = Some ex_no_left_entry /\
  synonym_map (fold_entry empty_state ex_no_left_entry) = [] /\
  exists s p0 p1,
    synonyms ex_no_left_entry = [s] /\
    re_split1 equals_re (strip_html_tags py_plain (strip ex_no_left)) = [p0; p1] /\
    syn_name s = first_word (split (strip p0)) /\
    (split (strip p0) = [] ->
     syn_name s = None /\
     forall st, synonym_map (fold_entry st ex_no_left_entry) = synonym_map st).
Proof.
  split; [vm_compute; reflexivity|]. split; [reflexivity|].
  refine (parse_line_synonyms py_plain ex_no_left ex_base ex_no_left_entry _).
  vm_compute. reflexivity.
Defined.

(** * Further properties *)

(** ** What the aggregation returns *)

Lemma fold_entry_keys (st : state) (e : entry) :
  dict_keys (accepted_species (fold_entry st e)) =
  if dict_mem (species_name e) (accepted_species st)
  then dict_keys (accepted_species st)
  else dict_keys (accepted_species st) ++ [species_name e].
Proof.
  unfold fold_entry, dict_mem.
  destruct (e_type e); cbn [accepted_species].
  1, 2: destruct (dict_get (species_name e) (accepted_species st)) eqn:Hg;
        cbn [accepted_species]; rewrite dict_keys_set, Hg;
        [rewrite bool_decide_eq_true_2 by eauto
        |rewrite bool_decide_eq_false_2 by (intros [? ?]; discriminate)];
        reflexivity.
  all: case_bool_decide as Hm; [reflexivity|];
       rewrite dict_keys_set;
       destruct (dict_get (species_name e) (accepted_species st));
       [exfalso; apply Hm; eauto|reflexivity].
Qed.

Lemma dict_get_Some_keys {V} (k : str) (d : dict V) :
  is_Some (dict_get k d) <-> In k (dict_keys d).
Proof.
  induction d as [|[k' v'] d IH]; simpl.
  - split; [intros [? ?]; discriminate|tauto].
  - destruct (str_eqb k' k) eqn:E.
    + apply str_eqb_true in E. split; [auto|eauto].
    + rewrite IH. split; [auto|]. intros [Heq|H]; [|exact H].
      subst k'. rewrite str_eqb_refl in E. discriminate.
Qed.

Lemma dict_mem_keys {V} (k : str) (d : dict V) :
  dict_mem k d = bool_decide (k ∈ dict_keys d).
Proof.
  unfold dict_mem. apply bool_decide_ext.
  rewrite list_elem_of_In. apply dict_get_Some_keys.
Qed.

Lemma fold_entries_keys (es : list entry) (st : state) :
  dict_keys (accepted_species (fold_entries st es)) =
  dict_keys (accepted_species st) ++
  first_sightings (dict_keys (accepted_species st)) (List.map species_name es).
Proof.
  revert st. induction es as [|e es IH]; intros st.
  - simpl. rewrite app_nil_r. reflexivity.
  - cbn [fold_entries List.fold_left List.map first_sightings].
    change (List.fold_left fold_entry es (fold_entry st e))
      with (fold_entries (fold_entry st e) es).
    rewrite IH, fold_entry_keys, dict_mem_keys.
    case_bool_decide; [reflexivity|].
    rewrite <- app_assoc. reflexivity.
Qed.

Lemma fold_entries_keys_NoDup (es : list entry) (st : state) :
  List.NoDup (dict_keys (accepted_species st)) ->
  List.NoDup (dict_keys (accepted_species (fold_entries st es))).
Proof.
  revert st. induction es as [|e es IH]; intros st H; [exact H|].
  apply IH. rewrite fold_entry_keys, dict_mem_keys.
  case_bool_decide as Hm; [exact H|].
  apply NoDup_ListNoDup. apply NoDup_ListNoDup in H.
  apply NoDup_app. split; [exact H|]. split.
  - intros x Hx Hx'. apply list_elem_of_singleton in Hx'. subst x. auto.
  - apply NoDup_singleton.
Qed.

Lemma attach_one_keys (acc : dict accepted) (k : str) (m : mapping) :
  dict_keys (attach_one acc k m) = dict_keys acc.
Proof.
  unfold attach_one. destruct (dict_get (accepted_name m) acc) eqn:Hg; [|reflexivity].
  rewrite dict_keys_set, Hg. reflexivity.
Qed.

Lemma attach_synonyms_keys (sm : dict (list mapping)) (acc : dict accepted) :
  dict_keys (attach_synonyms acc sm) = dict_keys acc.
Proof.
  rewrite attach_flat. generalize (flat_mappings sm). intros kms.
  revert acc. induction kms as [|km kms IH]; intros acc; [reflexivity|].
  cbn [List.fold_left]. rewrite IH. apply attach_one_keys.
Qed.

Lemma filed_values (d : dict accepted) :
  (forall k r, In (k, r) d -> a_name r = k) ->
  List.map a_name (dict_values d) = dict_keys d.
Proof.
  intros H. unfold dict_values, dict_keys. rewrite map_map.
  apply map_ext_in. intros [k r] Hin. simpl. apply H, Hin.
Qed.

Lemma attached_get (es : list entry) (n : str) :
  let st := fold_entries empty_state es in
  dict_get n (attach_synonyms (accepted_species st) (synonym_map st)) =
  (fun r => with_synonyms r (attached_to n (synonym_map st)))
  <$> dict_get n (accepted_species st).
Proof.
  intros st. rewrite attach_flat, attach_get. unfold attached_to.
  destruct (dict_get n (accepted_species st)) as [r|] eqn:Hr; [|reflexivity].
  simpl. f_equal. f_equal.
  destruct (fold_entries_fresh es empty_state) with (n := n) (r := r) as [Hs _];
    [discriminate|exact Hr|].
  rewrite Hs. reflexivity.
Qed.

(** The attached dict of a fold from the empty maps: under each name the
    record of the fold with its synonyms. *)
Lemma attached_In (es : list entry) (k : str) (r' : accepted) :
  let st := fold_entries empty_state es in
  In (k, r') (attach_synonyms (accepted_species st) (synonym_map st)) ->
  exists r, dict_get k (accepted_species st) = Some r /\
            r' = with_synonyms r (attached_to k (synonym_map st)) /\
            a_name r = k.
Proof.
  intros st Hin.
  assert (Hnd : List.NoDup (dict_keys (attach_synonyms (accepted_species st)
                                         (synonym_map st)))).
  { rewrite attach_synonyms_keys. apply fold_entries_keys_NoDup. constructor. }
  apply In_dict_get in Hin; [|exact Hnd].
  pose proof (attached_get es k) as Hget. fold st in Hget.
  rewrite Hget in Hin.
  destruct (dict_get k (accepted_species st)) as [r|] eqn:Hr; [|discriminate].
  simpl in Hin. injection Hin as <-.
  exists r. split; [reflexivity|]. split; [reflexivity|].
  destruct (fold_entries_fresh es empty_state) with (n := k) (r := r) as [_ Hn];
    [discriminate|exact Hr|exact Hn].
Qed.

Lemma aggregate_keys (es : list entry) :
  List.map a_name (fst (aggregate es)) =
  dict_keys (accepted_species (fold_entries empty_state es)).
Proof.
  unfold aggregate, finish. cbn [fst].
  rewrite filed_values, attach_synonyms_keys; [reflexivity|].
  intros k r' Hin. destruct (attached_In es k r' Hin) as (r & _ & -> & Hn).
  exact Hn.
Qed.

Lemma fold_entries_sighted (n : str) (es : list entry) (st : state) :
  is_Some (dict_get n (accepted_species (fold_entries st es))) ->
  is_Some (dict_get n (accepted_species st)) \/
  exists e, In e es /\ species_name e = n.
Proof.
  revert st. induction es as [|e es IH]; intros st Hs; [left; exact Hs|].
  cbn [fold_entries List.fold_left] in Hs.
  destruct (IH _ Hs) as [Hst|(e' & He' & Hn)].
  - destruct (decide (species_name e = n)) as [Heq|Hne].
    + right. exists e. split; [left; reflexivity|exact Heq].
    + left. apply dict_get_Some_keys. apply dict_get_Some_keys in Hst.
      rewrite fold_entry_keys in Hst.
      destruct (dict_mem _ _); [exact Hst|].
      apply in_app_or in Hst as [Hst|[Hst|[]]]; [exact Hst|congruence].
  - right. exists e'. split; [right; exact He'|exact Hn].
Qed.

(** X1.  The records the aggregation of [parse_species_list_html] makes
    from the entries of a page are one for each distinct species name of
    the entries, in the order in which the names are first seen: no name is
    repeated and no name is lost. *)
Theorem aggregate_names (es : list entry) :
  List.map a_name (fst (aggregate es)) = first_sightings [] (List.map species_name es) /\
  List.NoDup (List.map a_name (fst (aggregate es))) /\
  forall n, In n (List.map a_name (fst (aggregate es))) <->
            exists e, In e es /\ species_name e = n.
Proof.
  rewrite aggregate_keys.
  split; [|split].
  - rewrite fold_entries_keys. reflexivity.
  - apply fold_entries_keys_NoDup. constructor.
  - intros n. split.
    + intros Hin. apply dict_get_Some_keys in Hin.
      destruct (fold_entries_sighted n es empty_state Hin) as [[x Hx]|H];
        [discriminate|exact H].
    + intros (e & He & <-).
      pose proof (absorbed_all es empty_state) as Hall.
      rewrite Forall_forall in Hall.
      destruct (Hall e) as (r & Hr & _); [apply list_elem_of_In; exact He|].
      apply dict_get_Some_keys. eauto.
Qed.

Lemma fold_entry_creates (st : state) (e : entry) :
  dict_get (species_name e) (accepted_species st) = None ->
  dict_get (species_name e) (accepted_species (fold_entry st e)) = Some (new_record e).
Proof.
  intros Hn. unfold fold_entry, dict_mem.
  destruct (e_type e); cbn [accepted_species]; rewrite Hn; cbn [accepted_species];
    try rewrite bool_decide_eq_false_2 by (intros [? ?]; discriminate);
    apply dict_get_set_eq.
Qed.

Lemma fold_entries_absent (es : list entry) (st : state) (n : str) :
  Forall (fun e => species_name e <> n) es ->
  dict_get n (accepted_species st) = None ->
  dict_get n (accepted_species (fold_entries st es)) = None.
Proof.
  revert st. induction es as [|e es IH]; intros st Hall Hn; [exact Hn|].
  inversion Hall as [|? ? Hne Hrest]; subst.
  cbn [fold_entries List.fold_left]. apply IH; [exact Hrest|].
  apply dict_get_None_keys. rewrite fold_entry_keys.
  apply dict_get_None_keys in Hn.
  destruct (dict_mem _ _); [exact Hn|].
  intros Hin. apply in_app_or in Hin as [Hin|[Hin|[]]]; [contradiction|congruence].
Qed.

Lemma dict_get_values {V} (k : str) (v : V) (d : dict V) :
  dict_get k d = Some v -> In v (dict_values d).
Proof.
  intros H. apply dict_get_In in H. unfold dict_values.
  change v with (snd (k, v)). apply in_map, H.
Qed.

(** X2.  The first entry seen for a name fixes the record of that name for
    the whole page: whatever follows, the returned list holds a record with
    the name and the address of that first entry, with its author when it
    has one, and marked hybrid when it is. *)
Theorem first_sighting_fixes (pre post : list entry) (e : entry) :
  Forall (fun e' => species_name e' <> species_name e) pre ->
  exists r,
    In r (fst (aggregate (pre ++ e :: post))) /\
    a_name r = species_name e /\
    a_url r = url e /\
    (truthy_opt (author e) = true -> a_author r = author e) /\
    (is_hybrid_flag e = true -> a_is_hybrid r = true).
Proof.
  intros Hpre.
  set (st := fold_entries empty_state pre).
  assert (H0 : dict_get (species_name e) (accepted_species st) = None)
    by (apply fold_entries_absent; [exact Hpre|reflexivity]).
  pose proof (fold_entry_creates st e H0) as H1.
  destruct (fold_entries_keeps post (fold_entry st e) _ _ H1)
    as (r2 & H2 & Ha & Hh & Hn & Hu & _).
  assert (Hfold : fold_entries empty_state (pre ++ e :: post) =
                  fold_entries (fold_entry st e) post).
  { unfold fold_entries, st. rewrite fold_left_app. reflexivity. }
  pose proof (attached_get (pre ++ e :: post) (species_name e)) as Hget.
  cbv zeta in Hget. rewrite Hfold, H2 in Hget. simpl in Hget.
  eexists. split.
  - unfold aggregate, finish. cbn [fst]. rewrite Hfold.
    eapply dict_get_values. exact Hget.
  - cbn [with_synonyms a_name a_url a_author a_is_hybrid].
    rewrite Hn, Hu. cbn [new_record a_name a_url a_author a_is_hybrid] in *.
    auto.
Qed.

(** After rubra, alba is first seen as a hybrid with the author L.; a later
    sighting with another author changes neither. *)
Lemma first_sighting_fixes_witness :
  exists r,
    In r (fst (aggregate ([ex_rubra] ++ ex_second :: [ex_third]))) /\
    a_name r = utf8 "alba" /\
    a_author r = Some (utf8 "L.") /\
    a_is_hybrid r = true.
Proof.
  destruct (first_sighting_fixes [ex_rubra] [ex_third] ex_second)
    as (r & Hin & Hn & Hu & Ha & Hh).
  { repeat constructor. vm_compute. discriminate. }
  exists r. split; [exact Hin|]. split; [exact Hn|].
  split; [apply Ha; reflexivity|apply Hh; reflexivity].
Defined.

(** ** Counting synonyms *)

Lemma total_dict_set (k : str) (r r' : accepted) (d : dict accepted) :
  dict_get k d = Some r ->
  total_synonyms (dict_values (dict_set k r' d)) + length (a_synonyms r) =
  total_synonyms (dict_values d) + length (a_synonyms r').
Proof.
  unfold total_synonyms, dict_values.
  induction d as [|[k' v'] d IH]; simpl; [discriminate|].
  destruct (str_eqb k' k).
  - intros [= ->]. simpl. lia.
  - intros H. simpl. specialize (IH H). lia.
Qed.

Lemma attach_one_total (acc : dict accepted) (k : str) (m : mapping) :
  is_Some (dict_get (accepted_name m) acc) ->
  total_synonyms (dict_values (attach_one acc k m)) =
  S (total_synonyms (dict_values acc)).
Proof.
  intros [r Hr]. unfold attach_one. rewrite Hr.
  pose proof (total_dict_set (accepted_name m) r
                (append_synonym r {| at_name := k; at_author := synonym_author m |})
                acc Hr) as H.
  unfold append_synonym in H at 2. cbn [a_synonyms] in H.
  rewrite length_app in H. simpl in H. lia.
Qed.

Lemma attach_fold_total (kms : list (str * mapping)) (acc : dict accepted) :
  Forall (fun km => In (accepted_name (snd km)) (dict_keys acc)) kms ->
  total_synonyms (dict_values
    (List.fold_left (fun acc km => attach_one acc (fst km) (snd km)) kms acc)) =
  total_synonyms (dict_values acc) + length kms.
Proof.
  revert acc. induction kms as [|km kms IH]; intros acc Hall; [simpl; lia|].
  inversion Hall as [|? ? Hkm Hrest]; subst.
  cbn [List.fold_left length]. rewrite IH.
  - rewrite attach_one_total; [lia|]. apply dict_get_Some_keys, Hkm.
  - eapply Forall_impl; [exact Hrest|]. intros x Hx. cbn beta in *.
    rewrite attach_one_keys. exact Hx.
Qed.

Lemma flat_mappings_length (sm : dict (list mapping)) :
  length (flat_mappings sm) = total_synonym_mappings sm.
Proof.
  unfold flat_mappings, total_synonym_mappings.
  induction sm as [|[k l] sm IH]; [reflexivity|].
  cbn [List.map concat sum_list fst snd]. rewrite length_app, length_map, IH.
  reflexivity.
Qed.

Lemma of_key_In (k : str) (m : mapping) (ps : list (str * mapping)) :
  In m (of_key k ps) <-> In (k, m) ps.
Proof.
  unfold of_key. induction ps as [|[k' m'] ps IH]; [simpl; tauto|].
  cbn [omap list_omap fst snd].
  destruct (str_eqb k' k) eqn:E.
  - apply str_eqb_true in E. subst k'. simpl.
    unfold of_key, omap in IH. rewrite IH.
    split; intros [H|H]; auto; left; congruence.
  - unfold of_key, omap in IH. rewrite IH. simpl. split; [auto|].
    intros [H|H]; [|exact H]. injection H as -> _.
    rewrite str_eqb_refl in E. discriminate.
Qed.

Lemma appended_by_accepted_name (e : entry) (k : str) (m : mapping) :
  In (k, m) (appended_by e) -> accepted_name m = species_name e.
Proof.
  unfold appended_by. destruct (e_type e); try (intros []).
  all: intros Hin; apply list_elem_of_In, list_elem_of_omap in Hin;
       destruct Hin as (syn & _ & Hs);
       destruct (syn_name syn) as [n|]; [|discriminate];
       destruct (truthy n); [|discriminate];
       injection Hs as <- <-; reflexivity.
Qed.

(** Every mapping of the fold points to a name that has a record. *)
Lemma mappings_have_records (es : list entry) :
  let st := fold_entries empty_state es in
  Forall (fun km => In (accepted_name (snd km)) (dict_keys (accepted_species st)))
    (flat_mappings (synonym_map st)).
Proof.
  intros st. apply Forall_forall. intros [k m] Hin. cbn [snd].
  apply list_elem_of_In in Hin. unfold flat_mappings in Hin.
  apply in_concat in Hin as (l & Hl & Hm).
  apply in_map_iff in Hl as ([k' ms] & <- & Hkv). cbn [fst snd] in Hm.
  apply in_map_iff in Hm as (m' & [= <- <-] & Hm').
  assert (Hnd : List.NoDup (dict_keys (synonym_map st))).
  { unfold st. rewrite synonym_map_fold_entries.
    apply fold_add_pair_NoDup. constructor. }
  apply In_dict_get in Hkv; [|exact Hnd].
  unfold st in Hkv. rewrite synonym_map_fold_entries in Hkv.
  apply fold_add_pair_get in Hkv. simpl in Hkv. subst ms.
  apply of_key_In in Hm'. apply in_concat in Hm' as (ps & Hps & Hkm).
  apply in_map_iff in Hps as (e & <- & He).
  rewrite (appended_by_accepted_name e k' m' Hkm).
  pose proof (absorbed_all es empty_state) as Hall.
  rewrite Forall_forall in Hall.
  destruct (Hall e) as (r & Hr & _); [apply list_elem_of_In; exact He|].
  apply dict_get_Some_keys. eauto.
Qed.

Lemma fresh_total (es : list entry) :
  total_synonyms (dict_values (accepted_species (fold_entries empty_state es))) = 0.
Proof.
  unfold total_synonyms, dict_values. rewrite map_map.
  assert (H : forall kv, In kv (accepted_species (fold_entries empty_state es)) ->
                         length (a_synonyms (snd kv)) = 0).
  { intros [k r] Hin. cbn [snd].
    apply In_dict_get in Hin;
      [|apply fold_entries_keys_NoDup; constructor].
    destruct (fold_entries_fresh es empty_state) with (n := k) (r := r) as [Hs _];
      [discriminate|exact Hin|]. rewrite Hs. reflexivity. }
  induction (accepted_species (fold_entries empty_state es)) as [|kv d IH];
    [reflexivity|].
  simpl. rewrite H by (left; reflexivity). apply IH.
  intros kv' Hin. apply H. right. exact Hin.
Qed.

(** X3.  In the result of [parse_species_list_html] every synonym mapping
    is attached to exactly one record: the synonyms of all records together
    are as many as the mappings of the synonym map (the two totals of the
    test script), and every mapping names a species that has a record. *)
Theorem synonyms_counted (py : PyLib) (html base_url : str) :
  let out := fst (parse_species_list_html py html base_url) in
  total_synonyms (fst out) = total_synonym_mappings (snd out) /\
  Forall (fun km => In (accepted_name (snd km)) (List.map a_name (fst out)))
    (flat_mappings (snd out)).
Proof.
  intros out. unfold out. rewrite parse_species_list_html_aggregate.
  set (es := entries_of py html base_url).
  split.
  - unfold aggregate, finish. cbn [fst snd].
    rewrite attach_flat, attach_fold_total by apply mappings_have_records.
    rewrite fresh_total, flat_mappings_length. reflexivity.
  - rewrite aggregate_keys. unfold aggregate, finish. cbn [snd].
    apply mappings_have_records.
Qed.

Lemma fold_add_pair_absent (ps : list (str * mapping)) (sm : dict (list mapping))
    (k : str) :
  Forall (fun p => fst p <> k) ps ->
  dict_get k sm = None ->
  dict_get k (List.fold_left add_pair ps sm) = None.
Proof.
  revert sm. induction ps as [|p ps IH]; intros sm Hall Hn; [exact Hn|].
  inversion Hall as [|? ? Hne Hrest]; subst.
  cbn [List.fold_left]. apply IH; [exact Hrest|].
  unfold add_pair. rewrite dict_get_set_ne by exact Hne. exact Hn.
Qed.

(** X4.  The synonym map holds, under a synonym name, the mappings the
    entries give for that name, in the order of the entries and with
    repetitions; a name no entry gives is not a key, so no key has an empty
    list. *)
Theorem synonym_map_lists (es : list entry) (k : str) :
  dict_get k (synonym_map (fold_entries empty_state es)) =
  match of_key k (concat (List.map appended_by es)) with
  | [] => None
  | m :: l => Some (m :: l)
  end.
Proof.
  rewrite synonym_map_fold_entries. cbn [synonym_map empty_state].
  set (ps := concat (List.map appended_by es)).
  destruct (of_key k ps) as [|m l] eqn:Hk.
  - apply fold_add_pair_absent; [|reflexivity].
    apply Forall_forall. intros [k' m'] Hin Heq. cbn [fst] in Heq. subst k'.
    apply list_elem_of_In, of_key_In in Hin. rewrite Hk in Hin. destruct Hin.
  - assert (Hin : In (k, m) ps) by (apply of_key_In; rewrite Hk; left; reflexivity).
    pose proof (fold_add_pair_has ps []) as Hhas. rewrite Forall_forall in Hhas.
    destruct (Hhas (k, m)) as [l' Hl']; [apply list_elem_of_In; exact Hin|].
    cbn [fst] in Hl'. rewrite Hl'.
    apply fold_add_pair_get in Hl'. simpl in Hl'. congruence.
Qed.

(** ** Normal forms of the parsed texts *)

Lemma joined_normal (ws : list str) :
  Forall is_word ws -> ws <> [] ->
  join space ws <> [] /\ strip (join space ws) = join space ws.
Proof.
  intros Hw Hne. destruct (join_words_solid ws Hw Hne) as (Hj & Hl & Hr).
  split; [exact Hj|]. unfold strip. rewrite Hl, Hr. reflexivity.
Qed.

Lemma drop_blank_joined (ws : list str) :
  Forall is_word ws -> ws <> [] ->
  drop_blank (Some (strip (join space ws))) = Some (join space ws) /\
  drop_blank_strip (Some (strip (join space ws))) = Some (join space ws).
Proof.
  intros Hw Hne. destruct (joined_normal ws Hw Hne) as [Hj Hs].
  unfold drop_blank, drop_blank_strip. rewrite !Hs.
  destruct (join space ws) eqn:E; [congruence|]. simpl. auto.
Qed.

Lemma rest_author_normal (words : list str) :
  Forall is_word words ->
  normal_text (drop_blank (rest_author words)) /\
  normal_text (drop_blank_strip (rest_author words)).
Proof.
  intros Hw. unfold rest_author.
  destruct words as [|w [|w2 t]]; [simpl; auto..|].
  cbn [length Nat.ltb Nat.leb List.tl].
  inversion Hw as [|? ? _ Ht]; subst.
  destruct (drop_blank_joined (w2 :: t) Ht) as [-> ->]; [discriminate|].
  split; apply joined_normal; (exact Ht || discriminate).
Qed.

Lemma join_author_normal (ws : list str) :
  Forall is_word ws -> normal_text (drop_blank (join_author ws)).
Proof.
  intros Hw. rewrite join_author_words by exact Hw.
  destruct ws as [|w t]; [exact I|].
  apply joined_normal; [exact Hw|discriminate].
Qed.

Lemma find_name_normal (py : PyLib) (s : str) (words : list str) :
  Forall is_word words ->
  normal_text (drop_blank (snd (find_name py s words))).
Proof.
  induction 1 as [|w t Hw Ht IH]; [exact I|].
  cbn [find_name]. destruct (str_eqb _ _); [|exact IH].
  cbn [snd]. destruct t as [|w2 t']; [exact I|].
  cbn [nonempty].
  destruct (drop_blank_joined (w2 :: t') Ht) as [-> _]; [discriminate|].
  apply joined_normal; [exact Ht|discriminate].
Qed.

Lemma first_word_normal (words : list str) :
  Forall is_word words -> normal_name (first_word words).
Proof.
  intros Hw. destruct words as [|w t]; [exact I|].
  inversion Hw; subst. cbn [first_word normal_name].
  rewrite strip_word by assumption. assumption.
Qed.

Lemma equals_rhs_words (py : PyLib) (words : list str) :
  Forall is_word words -> Forall is_word (snd (equals_rhs py words)).
Proof.
  intros Hw. unfold equals_rhs.
  destruct words as [|w0 [|w1 rest]]; [constructor..|].
  inversion Hw as [|? ? _ H1]; subst. inversion H1; subst.
  destruct (str_eqb _ _); assumption.
Qed.

Lemma parse_accepted_hybrid_author (py : PyLib) (v u s l : str) :
  exists words,
    Forall is_word words /\
    fst (parse_accepted_hybrid py v u s l) =
    Some {| e_type := ACCEPTED_HYBRID; species_name := s;
            author := drop_blank_strip (rest_author words); url := u;
            is_hybrid_flag := true; synonyms := []; raw_line := l |}.
Proof.
  unfold parse_accepted_hybrid.
  destruct (startswith v (utf8 "×") || startswith (lower py v) (utf8 "x "));
    (eexists; split; [apply split_words|apply log_ret_fst]).
Qed.

(** The head of a stripped text is no blank. *)
Lemma lstrip_head (s : str) (c : char) (t : str) :
  lstrip s = c :: t -> isspace c = false.
Proof.
  induction s as [|a s IH]; [discriminate|].
  simpl. destruct (isspace a) eqn:E; [exact IH|].
  intros [= <- _]. exact E.
Qed.

Lemma rstrip_head (s : str) (c : char) (t : str) :
  rstrip s = c :: t -> exists t', s = c :: t'.
Proof.
  destruct s as [|a s]; [discriminate|].
  simpl. destruct (rstrip s); [destruct (isspace a); [discriminate|]|];
    intros [= <- _]; eauto.
Qed.

Lemma strip_head (s : str) (c : char) (t : str) :
  strip s = c :: t -> isspace c = false.
Proof.
  unfold strip. intros H. apply rstrip_head in H as [t' H].
  apply lstrip_head in H. exact H.
Qed.

Lemma split_go_cur (cur s : str) : cur <> [] -> split_go cur s <> [].
Proof.
  revert cur. induction s as [|c s IH]; intros cur Hc; simpl.
  - destruct cur; [congruence|discriminate].
  - destruct (isspace c).
    + destruct cur; [congruence|discriminate].
    + apply IH. discriminate.
Qed.

Lemma split_strip_nonempty (s : str) : strip s <> [] -> split (strip s) <> [].
Proof.
  destruct (strip s) as [|c t] eqn:E; [congruence|]. intros _.
  apply strip_head in E. unfold split. simpl. rewrite E.
  apply split_go_cur. discriminate.
Qed.

(** An item that is not blank gives a sub-record, with a name. *)
Lemma see_item_spec (item : str) :
  match see_item item with
  | Some syn => truthy (strip item) = true /\
                (exists w, syn_name syn = Some w /\ is_word w) /\
                normal_text (syn_author syn)
  | None => truthy (strip item) = false
  end.
Proof.
  unfold see_item. destruct (truthy (strip item)) eqn:Ht; [|reflexivity].
  assert (Hne : strip item <> []) by (destruct (strip item); [discriminate|discriminate]).
  pose proof (split_words (strip item)) as Hw.
  pose proof (split_strip_nonempty item Hne) as Hs.
  destruct (split (strip item)) as [|w t] eqn:E; [congruence|].
  inversion Hw as [|? ? Hw0 _]; subst.
  cbn [first_word]. rewrite (strip_word w Hw0).
  assert (Htw : truthy_opt (Some w) = true).
  { destruct Hw0 as [Hn _]. destruct w; [congruence|reflexivity]. }
  rewrite Htw. cbn [syn_name syn_author].
  split; [reflexivity|]. split; [eauto|].
  rewrite <- E in Hw. rewrite <- E. apply rest_author_normal, Hw.
Qed.

Lemma see_items_length (items : list str) :
  length (omap see_item items) =
  length (List.filter (fun i => truthy (strip i)) items).
Proof.
  induction items as [|i items IH]; [reflexivity|].
  cbn [omap list_omap List.filter]. pose proof (see_item_spec i) as H.
  destruct (see_item i).
  - destruct H as [-> _]. simpl. f_equal. exact IH.
  - rewrite H. exact IH.
Qed.

Lemma see_items_named (items : list str) :
  Forall (fun syn => (exists w, syn_name syn = Some w /\ is_word w) /\
                     normal_text (syn_author syn))
    (omap see_item items).
Proof.
  induction items as [|i items IH]; [constructor|].
  cbn [omap list_omap]. pose proof (see_item_spec i) as H.
  destruct (see_item i); [|exact IH].
  constructor; [tauto|exact IH].
Qed.

(** X5.  In every entry [parse_line] returns, an author is absent or a
    non-empty text with no white space at either end (never an empty or
    blank string), and so is the author of every synonym; the name of a
    synonym is absent or one word. *)
Theorem parse_line_normal (py : PyLib) (line base_url : str) (e : entry) :
  fst (parse_line py line base_url) = Some e ->
  normal_text (author e) /\
  Forall (fun syn => normal_name (syn_name syn) /\ normal_text (syn_author syn))
    (synonyms e).
Proof.
  intros H.
  destruct (parse_line_cases py line base_url e H)
    as (href & text & rest & s & Hl & Hs & Ht & Hc).
  cbv zeta in Hc.
  destruct Hc as [[_ Hp]|[(_ & _ & Hp)|[(_ & _ & _ & _ & Hp)|
                 [(_ & _ & _ & _ & Hp)|(_ & _ & _ & Hp)]]]].
  - rewrite parse_synonym_see_fst in Hp.
    destruct (re_split1 see_re _) as [|p0 [|p1 [|? ?]]]; try discriminate.
    injection Hp as <-. cbn [author synonyms]. split.
    + apply rest_author_normal, split_words.
    + eapply Forall_impl; [apply see_items_named|].
      intros syn [(w & -> & Hw) Ha]. split; assumption.
  - rewrite parse_synonym_equals_fst in Hp.
    destruct (re_split1 equals_re _) as [|p0 [|p1 [|? ?]]]; try discriminate.
    injection Hp as <-. cbn [author synonyms]. split.
    + apply join_author_normal, equals_rhs_words, split_words.
    + constructor; [|constructor]. cbn [syn_name syn_author]. split.
      * apply first_word_normal, split_words.
      * apply rest_author_normal, split_words.
  - destruct (parse_accepted_hybrid_author py
                (strip_html_tags py (strip line)) (urljoin py base_url href) s
                (strip line)) as (words & Hw & Ha).
    rewrite Ha in Hp. injection Hp as <-. cbn [author synonyms].
    split; [apply rest_author_normal, Hw|constructor].
  - rewrite parse_accepted_species_fst in Hp.
    destruct (split _) eqn:E; try discriminate.
    injection Hp as <-. cbn [author synonyms].
    split; [|constructor]. rewrite <- E. apply rest_author_normal, split_words.
  - rewrite parse_other_link_fst in Hp. injection Hp as <-.
    cbn [author synonyms]. split; [|constructor].
    apply find_name_normal, split_words.
Qed.

(** On a see line with two synonyms. *)
Lemma parse_line_normal_witness :
  exists e,
    fst (parse_line py_plain ex_see ex_base) = Some e /\
    normal_text (author e) /\
    Forall (fun syn => normal_name (syn_name syn) /\ normal_text (syn_author syn))
      (synonyms e).
Proof.
  eexists. split; [vm_compute; reflexivity|].
  apply (parse_line_normal py_plain ex_see ex_base). vm_compute. reflexivity.
Defined.

(** X6.  A see line whose text splits at the see marker always gives an
    entry, with one synonym for each comma-separated item left of the
    marker that is not blank; blank items are dropped, and every synonym
    has a name of one word. *)
Theorem parse_synonym_see_count (py : PyLib) (v u s l p0 p1 : str) :
  re_split1 see_re v = [p0; p1] ->
  exists e,
    fst (parse_synonym_see py v u s l) = Some e /\
    length (synonyms e) =
      length (List.filter (fun item => truthy (strip item))
                (split_on 44%N (strip p0))) /\
    Forall (fun syn => exists w, syn_name syn = Some w /\ is_word w) (synonyms e).
Proof.
  intros Hsp. rewrite parse_synonym_see_fst, Hsp. eexists. split; [reflexivity|].
  cbn [synonyms]. split; [apply see_items_length|].
  eapply Forall_impl; [apply see_items_named|]. intros syn [Hn _]. exact Hn.
Qed.

(** Two synonyms from three items, the middle one blank. *)
Lemma parse_synonym_see_count_witness :
  exists e,
    fst (parse_synonym_see py_plain ex_see_text ex_base (utf8 "alba") ex_see) = Some e /\
    length (synonyms e) = 2.
Proof.
  destruct (parse_synonym_see_count py_plain ex_see_text ex_base (utf8 "alba") ex_see
              (utf8 "aaa Auth., , bbb ") (utf8 "alba L."))
    as (e & He & Hlen & _).
  { vm_compute. reflexivity. }
  exists e. split; [exact He|]. rewrite Hlen. vm_compute. reflexivity.
Defined.

(** ** Hybrids and their parents *)

Lemma dict_set_In {V} (k k' : str) (v r : V) (d : dict V) :
  In (k, r) (dict_set k' v d) -> (k = k' /\ r = v) \/ In (k, r) d.
Proof.
  induction d as [|[k0 v0] d IH]; simpl.
  - intros [[= <- <-]|[]]. left; auto.
  - destruct (str_eqb k0 k') eqn:E; simpl.
    + apply str_eqb_true in E. subst k0.
      intros [[= <- <-]|H]; [left; auto|right; right; exact H].
    + intros [H|H]; [right; left; exact H|].
      destruct (IH H) as [?|?]; [left; assumption|right; right; assumption].
Qed.

Lemma build_unfold (l : list species) :
  build_hybrid_relationships l =
  dict_values (List.fold_left register l (by_name l [])).
Proof. reflexivity. Qed.

Lemma add_hybrid_keys (d : dict species) (p : option str) (c : str) :
  dict_keys (add_hybrid d p c) = dict_keys d.
Proof.
  unfold add_hybrid. destruct p as [p|]; [|reflexivity].
  destruct (truthy p); [|reflexivity].
  destruct (dict_get _ d) eqn:Hg; [|reflexivity].
  rewrite dict_keys_set, Hg. reflexivity.
Qed.

Lemma register_keys (d : dict species) (s : species) :
  dict_keys (register d s) = dict_keys d.
Proof.
  unfold register. destruct (sp_is_hybrid s); [|reflexivity].
  rewrite !add_hybrid_keys. reflexivity.
Qed.

Lemma fold_register_keys (l : list species) (d : dict species) :
  dict_keys (List.fold_left register l d) = dict_keys d.
Proof.
  revert d. induction l as [|s l IH]; intros d; [reflexivity|].
  cbn [List.fold_left]. rewrite IH. apply register_keys.
Qed.

Lemma by_name_keys (l : list species) (d : dict species) :
  dict_keys (by_name l d) =
  dict_keys d ++ first_sightings (dict_keys d) (List.map sp_name l).
Proof.
  revert d. induction l as [|s l IH]; intros d.
  - simpl. rewrite app_nil_r. reflexivity.
  - cbn [by_name List.fold_left List.map first_sightings].
    change (List.fold_left (fun d0 s0 => dict_set (sp_name s0) s0 d0) l
              (dict_set (sp_name s) s d))
      with (by_name l (dict_set (sp_name s) s d)).
    rewrite IH, dict_keys_set.
    destruct (dict_get (sp_name s) d) eqn:Hg.
    + rewrite bool_decide_eq_true_2; [reflexivity|].
      apply list_elem_of_In, dict_get_Some_keys. eauto.
    + rewrite bool_decide_eq_false_2; [rewrite <- app_assoc; reflexivity|].
      intros Hin. apply list_elem_of_In in Hin.
      apply dict_get_None_keys in Hg. contradiction.
Qed.

Lemma by_name_NoDup (l : list species) (d : dict species) :
  List.NoDup (dict_keys d) -> List.NoDup (dict_keys (by_name l d)).
Proof.
  revert d. induction l as [|s l IH]; intros d H; [exact H|].
  apply IH, dict_set_NoDup, H.
Qed.

Lemma same_but_hybrids_refl (s : species) : same_but_hybrids s s.
Proof. repeat split. Qed.

Lemma by_name_ok (l0 l : list species) (d : dict species) :
  (forall s, In s l -> In s l0) ->
  entries_ok l0 d -> entries_ok l0 (by_name l d).
Proof.
  revert d. induction l as [|s l IH]; intros d Hsub Hd; [exact Hd|].
  apply IH; [intros; apply Hsub; right; assumption|].
  intros k r Hin. apply dict_set_In in Hin as [[-> ->]|Hin]; [|apply Hd, Hin].
  split; [reflexivity|]. exists s. split; [apply Hsub; left; reflexivity|].
  apply same_but_hybrids_refl.
Qed.

Lemma add_hybrid_ok (l0 : list species) (d : dict species) (p : option str) (c : str) :
  entries_ok l0 d -> entries_ok l0 (add_hybrid d p c).
Proof.
  intros Hd. unfold add_hybrid. destruct p as [p|]; [|exact Hd].
  destruct (truthy p); [|exact Hd].
  destruct (dict_get _ d) as [r0|] eqn:Hg; [|exact Hd].
  intros k r Hin. apply dict_set_In in Hin as [[-> ->]|Hin]; [|apply Hd, Hin].
  apply dict_get_In in Hg. destruct (Hd _ _ Hg) as (Hn & s & Hs & Hsame).
  split; [exact Hn|]. exists s. split; [exact Hs|].
  unfold same_but_hybrids in *. cbn. exact Hsame.
Qed.

Lemma fold_register_ok (l0 l : list species) (d : dict species) :
  entries_ok l0 d -> entries_ok l0 (List.fold_left register l d).
Proof.
  revert d. induction l as [|s l IH]; intros d Hd; [exact Hd|].
  cbn [List.fold_left]. apply IH. unfold register.
  destruct (sp_is_hybrid s); [|exact Hd].
  apply add_hybrid_ok, add_hybrid_ok, Hd.
Qed.

Lemma build_names (species_list : list species) :
  List.map sp_name (build_hybrid_relationships species_list) =
  first_sightings [] (List.map sp_name species_list) /\
  List.NoDup (List.map sp_name (build_hybrid_relationships species_list)).
Proof.
  rewrite build_unfold.
  set (d := List.fold_left register species_list (by_name species_list [])).
  assert (Hok : entries_ok species_list d).
  { apply fold_register_ok, by_name_ok; [auto|]. intros k r []. }
  assert (Hnames : List.map sp_name (dict_values d) = dict_keys d).
  { unfold dict_values, dict_keys. rewrite map_map. apply map_ext_in.
    intros [k r] Hin. apply Hok in Hin. simpl. tauto. }
  rewrite Hnames. unfold d. rewrite fold_register_keys. split.
  - rewrite by_name_keys. reflexivity.
  - apply by_name_NoDup. constructor.
Qed.

(** X7.  [build_hybrid_relationships] returns one record for each distinct
    name of its input, in the order of first appearance, and changes
    nothing but the hybrids lists: every returned record agrees with a
    record of the input on name, address, hybrid flag and both parents. *)
Theorem build_hybrid_relationships_names (species_list : list species) :
  let out := build_hybrid_relationships species_list in
  List.map sp_name out = first_sightings [] (List.map sp_name species_list) /\
  List.NoDup (List.map sp_name out) /\
  Forall (fun r => exists s, In s species_list /\ same_but_hybrids r s) out.
Proof.
  intros out. unfold out.
  destruct (build_names species_list) as [Hn Hnd].
  split; [exact Hn|]. split; [exact Hnd|].
  rewrite build_unfold.
  set (d := List.fold_left register species_list (by_name species_list [])).
  assert (Hok : entries_ok species_list d).
  { apply fold_register_ok, by_name_ok; [auto|]. intros k r []. }
  apply Forall_forall. intros r Hr. apply list_elem_of_In in Hr.
  unfold dict_values in Hr. apply in_map_iff in Hr as ([k r'] & <- & Hin).
  apply Hok in Hin. simpl. tauto.
Qed.

Lemma add_hybrid_keeps (d : dict species) (p : option str) (c' pn c : str) :
  has_child d pn c -> has_child (add_hybrid d p c') pn c.
Proof.
  intros (r & hs & Hr & Hh & Hc). unfold add_hybrid.
  destruct p as [p|]; [|exists r, hs; auto].
  destruct (truthy p); [|exists r, hs; auto].
  destruct (dict_get (strip _) d) as [r0|] eqn:Hg; [|exists r, hs; auto].
  change (strip (re_sub_empty quercus_prefix_re p)) with (parent_key p) in *.
  destruct (decide (parent_key p = pn)) as [<-|Hne].
  - eexists _, _. split; [apply dict_get_set_eq|]. split; [reflexivity|].
    assert (r0 = r) as -> by congruence. rewrite Hh. simpl.
    case_bool_decide; [exact Hc|]. apply in_or_app. left. exact Hc.
  - exists r, hs. rewrite dict_get_set_ne by exact Hne. auto.
Qed.

Lemma add_hybrid_adds (d : dict species) (p c : str) :
  truthy p = true -> In (parent_key p) (dict_keys d) ->
  has_child (add_hybrid d (Some p) c) (parent_key p) c.
Proof.
  intros Ht Hin. apply dict_get_Some_keys in Hin as [r Hr].
  unfold add_hybrid. rewrite Ht.
  change (strip (re_sub_empty quercus_prefix_re p)) with (parent_key p).
  rewrite Hr. eexists _, _. split; [apply dict_get_set_eq|].
  split; [reflexivity|].
  case_bool_decide as Hc; [apply list_elem_of_In, Hc|].
  apply in_or_app. right. left. reflexivity.
Qed.

Lemma register_keeps (d : dict species) (s : species) (pn c : str) :
  has_child d pn c -> has_child (register d s) pn c.
Proof.
  intros H. unfold register. destruct (sp_is_hybrid s); [|exact H].
  apply add_hybrid_keeps, add_hybrid_keeps, H.
Qed.

Lemma fold_register_keeps (l : list species) (d : dict species) (pn c : str) :
  has_child d pn c -> has_child (List.fold_left register l d) pn c.
Proof.
  revert d. induction l as [|s l IH]; intros d H; [exact H|].
  apply IH, register_keeps, H.
Qed.

Lemma register_adds (d : dict species) (s : species) (pn : str) :
  In pn (registered_parents s) -> In pn (dict_keys d) ->
  has_child (register d s) pn (sp_name s).
Proof.
  unfold registered_parents, register.
  destruct (sp_is_hybrid s); [|intros []].
  cbn [omap list_omap].
  intros Hin Hk.
  destruct (sp_parent1 s) as [p1|] eqn:H1.
  - destruct (truthy p1) eqn:Ht1.
    + simpl in Hin. destruct Hin as [<-|Hin].
      * apply add_hybrid_keeps, add_hybrid_adds; assumption.
      * destruct (sp_parent2 s) as [p2|]; [|destruct Hin].
        destruct (truthy p2) eqn:Ht2; [|destruct Hin].
        destruct Hin as [<-|[]].
        apply add_hybrid_adds; [exact Ht2|].
        rewrite add_hybrid_keys. exact Hk.
    + destruct (sp_parent2 s) as [p2|]; [|destruct Hin].
      destruct (truthy p2) eqn:Ht2; [|destruct Hin].
      destruct Hin as [<-|[]].
      apply add_hybrid_adds; [exact Ht2|].
      rewrite add_hybrid_keys. exact Hk.
  - destruct (sp_parent2 s) as [p2|]; [|destruct Hin].
    destruct (truthy p2) eqn:Ht2; [|destruct Hin].
    destruct Hin as [<-|[]].
    apply add_hybrid_adds; [exact Ht2|].
    rewrite add_hybrid_keys. exact Hk.
Qed.

Lemma by_name_stays (l : list species) (d : dict species) (k : str) :
  In k (dict_keys d) -> In k (dict_keys (by_name l d)).
Proof.
  intros H. rewrite by_name_keys. apply in_or_app. left. exact H.
Qed.

Lemma by_name_has (l : list species) (d : dict species) (k : str) :
  In k (List.map sp_name l) -> In k (dict_keys (by_name l d)).
Proof.
  revert d. induction l as [|s l IH]; intros d; [intros []|].
  intros [<-|Hin]; cbn [by_name List.fold_left].
  - apply (by_name_stays l). apply dict_get_Some_keys.
    rewrite dict_get_set_eq. eauto.
  - apply IH, Hin.
Qed.

(** X8.  Every hybrid of the list is registered with each of its parents
    that is a name of the list: the returned record of that parent has a
    hybrids list that holds the name of the hybrid.  The parent is looked
    up by its text with a leading Quercus removed and stripped. *)
Theorem build_hybrid_relationships_registers (species_list : list species)
    (s : species) (pn : str) :
  In s species_list ->
  In pn (registered_parents s) ->
  In pn (List.map sp_name species_list) ->
  exists r hs,
    In r (build_hybrid_relationships species_list) /\
    sp_name r = pn /\ sp_hybrids r = Some hs /\ In (sp_name s) hs.
Proof.
  intros Hs Hp Hn. rewrite build_unfold.
  set (d0 := by_name species_list []).
  assert (Hk0 : In pn (dict_keys d0)) by (apply by_name_has, Hn).
  assert (Hok : entries_ok species_list (List.fold_left register species_list d0)).
  { apply fold_register_ok, by_name_ok; [auto|]. intros k r []. }
  apply in_split in Hs as (l1 & l2 & Hl).
  assert (Hc : has_child (List.fold_left register species_list d0) pn (sp_name s)).
  { rewrite Hl at 1. rewrite fold_left_app. cbn [List.fold_left].
    apply fold_register_keeps, register_adds; [exact Hp|].
    rewrite fold_register_keys. exact Hk0. }
  destruct Hc as (r & hs & Hr & Hh & Hin).
  exists r, hs. split; [eapply dict_get_values; exact Hr|].
  split; [|split; assumption].
  apply dict_get_In in Hr. apply Hok in Hr. tauto.
Qed.

Lemma add_hybrid_NoDup (d : dict species) (p : option str) (c : str) :
  (forall k r, In (k, r) d -> hybrids_NoDup r) ->
  forall k r, In (k, r) (add_hybrid d p c) -> hybrids_NoDup r.
Proof.
  intros Hd. unfold add_hybrid. destruct p as [p|]; [|exact Hd].
  destruct (truthy p); [|exact Hd].
  destruct (dict_get _ d) as [r0|] eqn:Hg; [|exact Hd].
  intros k r Hin. apply dict_set_In in Hin as [[-> ->]|Hin]; [|eapply Hd, Hin].
  apply dict_get_In, Hd in Hg. unfold hybrids_NoDup in *. cbn [sp_hybrids].
  assert (Hnd : List.NoDup (default [] (sp_hybrids r0))).
  { destruct (sp_hybrids r0); [exact Hg|constructor]. }
  case_bool_decide as Hc; [exact Hnd|].
  apply NoDup_ListNoDup. apply NoDup_ListNoDup in Hnd.
  apply NoDup_app. split; [exact Hnd|]. split; [|apply NoDup_singleton].
  intros x Hx Hx'. apply list_elem_of_singleton in Hx'. subst x. auto.
Qed.

(** With alba and bebbiana in the list, alba lists bebbiana. *)
Lemma build_hybrid_relationships_registers_witness :
  exists r hs,
    In r (build_hybrid_relationships ex_unsorted) /\
    sp_name r = utf8 "alba" /\ sp_hybrids r = Some hs /\ In (utf8 "bebbiana") hs.
Proof.
  apply (build_hybrid_relationships_registers ex_unsorted ex_bebbiana (utf8 "alba")).
  - right. left. reflexivity.
  - vm_compute. left. reflexivity.
  - vm_compute. right. right. left. reflexivity.
Defined.

(** X9.  [build_hybrid_relationships] never lists a hybrid twice at a
    parent: if no hybrids list of the input holds a name twice, none of the
    output does, however often a hybrid or a parent is repeated. *)
Theorem build_hybrid_relationships_NoDup (species_list : list species) :
  Forall hybrids_NoDup species_list ->
  Forall hybrids_NoDup (build_hybrid_relationships species_list).
Proof.
  intros Hall. rewrite build_unfold.
  assert (H0 : forall k r, In (k, r) (by_name species_list []) -> hybrids_NoDup r).
  { assert (Hgen : forall l d,
              (forall s, In s l -> hybrids_NoDup s) ->
              (forall k r, In (k, r) d -> hybrids_NoDup r) ->
              forall k r, In (k, r) (by_name l d) -> hybrids_NoDup r).
    { induction l as [|s l IH]; intros d Hl Hd; [exact Hd|].
      cbn [by_name List.fold_left]. apply IH; [intros; apply Hl; right; assumption|].
      intros k r Hin. apply dict_set_In in Hin as [[-> ->]|Hin];
        [apply Hl; left; reflexivity|eapply Hd, Hin]. }
    apply Hgen; [|intros k r []].
    intros s Hs. rewrite Forall_forall in Hall. apply Hall, list_elem_of_In, Hs. }
  assert (H1 : forall l d,
            (forall k r, In (k, r) d -> hybrids_NoDup r) ->
            forall k r, In (k, r) (List.fold_left register l d) -> hybrids_NoDup r).
  { induction l as [|s l IH]; intros d Hd; [exact Hd|].
    cbn [List.fold_left]. apply IH. unfold register.
    destruct (sp_is_hybrid s); [|exact Hd].
    apply add_hybrid_NoDup, add_hybrid_NoDup, Hd. }
  apply Forall_forall. intros r Hr. apply list_elem_of_In in Hr.
  unfold dict_values in Hr. apply in_map_iff in Hr as ([k r'] & <- & Hin).
  eapply H1; [exact H0|exact Hin].
Qed.

Lemma build_hybrid_relationships_NoDup_witness :
  Forall hybrids_NoDup ex_unsorted /\
  Forall hybrids_NoDup (build_hybrid_relationships ex_unsorted).
Proof.
  assert (H : Forall hybrids_NoDup ex_unsorted).
  { repeat constructor. }
  split; [exact H|].
  apply (build_hybrid_relationships_NoDup ex_unsorted H).
Defined.

Lemma strongly_sorted_strict (l : list species) :
  StronglySorted name_le l -> List.NoDup (List.map sp_name l) ->
  StronglySorted name_lt l.
Proof.
  induction 1 as [|a l Hs IH Hall]; intros Hnd; [constructor|].
  simpl in Hnd. inversion Hnd as [|? ? Hnot Hnd']; subst.
  constructor; [apply IH, Hnd'|].
  apply List.Forall_forall. intros b Hb. split.
  - rewrite List.Forall_forall in Hall. apply Hall, Hb.
  - intros Heq. apply Hnot. rewrite Heq. apply in_map, Hb.
Qed.

(** X10.  The list handed to [save_final_output] has strictly ascending
    names: no two of its records share a name. *)
Theorem hand_off_strict (species_data : list species) :
  StronglySorted name_lt (hand_off species_data) /\
  List.NoDup (List.map sp_name (hand_off species_data)).
Proof.
  assert (Hnd : List.NoDup (List.map sp_name (hand_off species_data))).
  { unfold hand_off.
    eapply Permutation_NoDup;
      [apply Permutation_map, Permutation_sym, sort_by_name_perm|].
    apply NoDup_ListNoDup.
    destruct (build_names species_data) as [_ H].
    apply NoDup_ListNoDup. exact H. }
  split; [|exact Hnd].
  apply strongly_sorted_strict; [|exact Hnd].
  unfold hand_off. apply Sorted_StronglySorted;
    [exact name_le_trans|apply sort_by_name_sorted].
Qed.

Lemma rx_star {R} (r1 : regex) (off : nat) (s : str) (c : caps)
    (k : nat -> str -> caps -> option R) :
  rx (rStar r1) off s c k = star_loop r1 k (length s) off s c.
Proof. reflexivity. Qed.

Lemma rx_seq {R} (r1 r2 : regex) (off : nat) (s : str) (c : caps)
    (k : nat -> str -> caps -> option R) :
  rx (rSeq r1 r2) off s c k = rx r1 off s c (fun off' s' c' => rx r2 off' s' c' k).
Proof. reflexivity. Qed.

Lemma rx_chr {R} (p : char -> bool) (off : nat) (s : str) (c : caps)
    (k : nat -> str -> caps -> option R) :
  rx (rChr p) off s c k =
  match s with
  | a :: s' => if p a then k (S off) s' c else None
  | [] => None
  end.
Proof. reflexivity. Qed.

Lemma lit_i_lits (s : string) : lit_i s = lits_i (utf8 s).
Proof. reflexivity. Qed.

Lemma rcat_cons (r : regex) (rs : list regex) :
  rs <> [] -> rcat (r :: rs) = rSeq r (rcat rs).
Proof. destruct rs; [congruence|reflexivity]. Qed.

Lemma rx_lits_inv {R} (l : str) (off : nat) (s : str) (c : caps)
    (k : nat -> str -> caps -> option R) (x : R) :
  rx (lits_i l) off s c k = Some x ->
  exists l' rest,
    s = l' ++ rest /\ Forall2 (fun p a => ch_is_i p a = true) l l' /\
    k (off + length l) rest c = Some x.
Proof.
  unfold lits_i. revert off s. induction l as [|p l IH]; intros off s.
  - simpl. intros H. exists [], s. rewrite Nat.add_0_r. auto.
  - destruct l as [|p2 l'].
    + cbn [List.map rcat]. rewrite rx_chr.
      destruct s as [|a s']; [discriminate|].
      destruct (ch_is_i p a) eqn:E; [|discriminate].
      intros H. exists [a], s'. split; [reflexivity|]. split; [repeat constructor; exact E|].
      simpl. rewrite Nat.add_1_r. exact H.
    + change (rcat (List.map (fun c0 => rChr (ch_is_i c0)) (p :: p2 :: l')))
        with (rSeq (rChr (ch_is_i p))
                (rcat (List.map (fun c0 => rChr (ch_is_i c0)) (p2 :: l')))).
      rewrite rx_seq, rx_chr.
      destruct s as [|a s']; [discriminate|].
      destruct (ch_is_i p a) eqn:E; [|discriminate].
      intros H. apply IH in H as (l2 & rest & -> & Hf & Hk).
      exists (a :: l2), rest. split; [reflexivity|]. split; [constructor; assumption|].
      cbn [length] in *. rewrite <- Hk. f_equal. lia.
Qed.

Lemma rx_lits {R} (l l' : str) (off : nat) (rest : str) (c : caps)
    (k : nat -> str -> caps -> option R) :
  Forall2 (fun p a => ch_is_i p a = true) l l' ->
  rx (lits_i l) off (l' ++ rest) c k = k (off + length l) rest c.
Proof.
  unfold lits_i. intros Hf. revert off. induction Hf as [|p a l l' Hpa Hf IH]; intros off.
  - simpl. rewrite Nat.add_0_r. reflexivity.
  - destruct l as [|p2 l2].
    + inversion Hf; subst. cbn [List.map rcat app]. rewrite rx_chr, Hpa.
      simpl. rewrite Nat.add_1_r. reflexivity.
    + change (rcat (List.map (fun c0 => rChr (ch_is_i c0)) (p :: p2 :: l2)))
        with (rSeq (rChr (ch_is_i p))
                (rcat (List.map (fun c0 => rChr (ch_is_i c0)) (p2 :: l2)))).
      rewrite rx_seq. cbn [app]. rewrite rx_chr, Hpa, IH.
      f_equal. cbn [length]. lia.
Qed.

Lemma rx_lits_nil {R} (l l' : str) (off : nat) (c : caps)
    (k : nat -> str -> caps -> option R) :
  Forall2 (fun p a => ch_is_i p a = true) l l' ->
  rx (lits_i l) off l' c k = k (off + length l) [] c.
Proof.
  intros H. rewrite <- (app_nil_r l') at 1. apply rx_lits, H.
Qed.

Lemma ch_is_i_refl (c : char) : ch_is_i c c = true.
Proof. unfold ch_is_i. rewrite N.eqb_refl. reflexivity. Qed.

Lemma lits_same (l : str) : Forall2 (fun p a => ch_is_i p a = true) l l.
Proof. induction l; constructor; [apply ch_is_i_refl|assumption]. Qed.

Lemma search_from_inv (r : regex) (off : nat) (s : str) (m : rmatch) :
  search_from r off s = Some m ->
  exists pre s', s = pre ++ s' /\ match_at r (off + length pre) s' = Some m.
Proof.
  revert off. induction s as [|a s IH]; intros off; simpl.
  - destruct (match_at r off []) eqn:E; [|discriminate].
    intros [= <-]. exists [], []. rewrite Nat.add_0_r. auto.
  - destruct (match_at r off (a :: s)) eqn:E.
    + intros [= <-]. exists [], (a :: s). rewrite Nat.add_0_r. auto.
    + intros H. apply IH in H as (pre & s' & -> & Hm).
      exists (a :: pre), s'. split; [reflexivity|].
      cbn [length]. rewrite <- Hm. f_equal. lia.
Qed.

Lemma search_from_found (r : regex) (off : nat) (pre s : str) :
  is_Some (match_at r (off + length pre) s) ->
  is_Some (search_from r off (pre ++ s)).
Proof.
  revert off. induction pre as [|a pre IH]; intros off H.
  - simpl in *. rewrite Nat.add_0_r in H.
    destruct s; simpl; destruct (match_at r off _); eauto; destruct H; discriminate.
  - cbn [app search_from]. destruct (match_at r off (a :: pre ++ s)); [eauto|].
    apply IH. cbn [length] in H. replace (S off + length pre) with (off + S (length pre)) by lia.
    exact H.
Qed.

Lemma search_from_first (r : regex) (off : nat) (s : str) (m : rmatch) :
  match_at r off s = Some m -> search_from r off s = Some m.
Proof. intros H. destruct s; simpl; rewrite H; reflexivity. Qed.

(** ** Lines without markup *)

Lemma ch_is_i_lt (a : char) : ch_is_i 60%N a = true -> a = 60%N.
Proof.
  destruct (N.eqb_spec a 60) as [->|Hne]; [reflexivity|].
  unfold ch_is_i. apply N.eqb_neq in Hne. rewrite Hne. cbn. discriminate.
Qed.

Lemma link_match_head (off : nat) (s : str) (m : rmatch) :
  match_at link_re off s = Some m -> exists s', s = 60%N :: s'.
Proof.
  unfold match_at, link_re. rewrite rcat_cons by discriminate.
  rewrite rx_seq, lit_i_lits. intros H.
  apply rx_lits_inv in H as (l' & rest & -> & Hf & _).
  change (utf8 "<a") with [60%N; 97%N] in Hf.
  inversion Hf as [|? a ? l2 Ha _]; subst.
  apply ch_is_i_lt in Ha. subst a. eauto.
Qed.

Lemma search_link_none (off : nat) (s : str) :
  Forall (fun c => c <> 60%N) s -> search_from link_re off s = None.
Proof.
  intros Hall. destruct (search_from link_re off s) as [m|] eqn:E; [|reflexivity].
  apply search_from_inv in E as (pre & s' & -> & Hm).
  apply link_match_head in Hm as [s'' ->].
  apply Forall_app in Hall as [_ Hall]. inversion Hall; congruence.
Qed.

Lemma lstrip_Forall (P : char -> Prop) (s : str) : Forall P s -> Forall P (lstrip s).
Proof.
  induction 1 as [|a s Ha Hs IH]; [constructor|].
  simpl. destruct (isspace a); [exact IH|constructor; assumption].
Qed.

Lemma rstrip_Forall (P : char -> Prop) (s : str) : Forall P s -> Forall P (rstrip s).
Proof.
  induction 1 as [|a s Ha Hs IH]; [constructor|].
  simpl. destruct (rstrip s).
  - destruct (isspace a); constructor; [assumption|constructor].
  - constructor; assumption.
Qed.

Lemma strip_Forall (P : char -> Prop) (s : str) : Forall P s -> Forall P (strip s).
Proof. intros H. apply rstrip_Forall, lstrip_Forall, H. Qed.

Lemma extract_links_none (py : PyLib) (s : str) :
  Forall (fun c => c <> 60%N) s -> extract_links_from_line py s = [].
Proof.
  intros H. unfold extract_links_from_line, re_finditer. cbn [scan].
  rewrite search_link_none by exact H. reflexivity.
Qed.

(** X11.  A line without an opening angle bracket holds no link:
    [parse_line] returns nothing for it and logs nothing. *)
Theorem parse_line_no_markup (py : PyLib) (line base_url : str) :
  Forall (fun c => c <> 60%N) line ->
  parse_line py line base_url = (None, []).
Proof.
  intros H. unfold parse_line.
  rewrite extract_links_none by (apply strip_Forall, H). reflexivity.
Qed.

Lemma parse_line_no_markup_witness :
  parse_line py_plain ex_plain ex_base = (None, []).
Proof.
  apply (parse_line_no_markup py_plain ex_plain ex_base).
  vm_compute. repeat (apply List.Forall_cons; [discriminate|]). apply List.Forall_nil.
Defined.

(** ** Blank lines in a page *)






(** ** Hybrid markers *)

Lemma ch_is_i_x (a : char) : ch_is_i 120%N a = true -> a = 120%N \/ a = 88%N.
Proof.
  destruct (N.eqb_spec a 120) as [->|H1]; [auto|].
  destruct (N.eqb_spec a 88) as [->|H2]; [auto|].
  unfold ch_is_i. apply N.eqb_neq in H1, H2.
  change (120 - 32)%N with 88%N. rewrite H1, H2. cbn. discriminate.
Qed.

Lemma ch_is_i_times (a : char) : ch_is_i 215%N a = true -> a = 215%N.
Proof.
  destruct (N.eqb_spec a 215) as [->|Hne]; [reflexivity|].
  unfold ch_is_i. apply N.eqb_neq in Hne. rewrite Hne. cbn. discriminate.
Qed.

Lemma rx_alt_inv {R} (r1 r2 : regex) (off : nat) (s : str) (c : caps)
    (k : nat -> str -> caps -> option R) (x : R) :
  rx (rAlt r1 r2) off s c k = Some x ->
  (exists y, rx r1 off s c k = Some y) \/ (exists y, rx r2 off s c k = Some y).
Proof.
  cbn [rx]. destruct (rx r1 off s c k); [eauto|]. intros H. eauto.
Qed.

Lemma rx_alt_l {R} (r1 r2 : regex) (off : nat) (s : str) (c : caps)
    (k : nat -> str -> caps -> option R) :
  is_Some (rx r1 off s c k) -> is_Some (rx (rAlt r1 r2) off s c k).
Proof. intros [x Hx]. cbn [rx]. rewrite Hx. eauto. Qed.

Lemma rx_alt_r {R} (r1 r2 : regex) (off : nat) (s : str) (c : caps)
    (k : nat -> str -> caps -> option R) :
  is_Some (rx r2 off s c k) -> is_Some (rx (rAlt r1 r2) off s c k).
Proof. intros H. cbn [rx]. destruct (rx r1 off s c k); [eauto|exact H]. Qed.

Lemma marker_matches (m : str) (off : nat) (post : str) :
  In m hybrid_markers -> is_Some (match_at hybrid_re off (m ++ post)).
Proof.
  unfold hybrid_markers, match_at, hybrid_re. rewrite !lit_i_lits.
  intros [<-|[<-|[<-|[<-|[<-|[]]]]]].
  - apply rx_alt_l. rewrite rx_lits by apply lits_same. eauto.
  - apply rx_alt_l. rewrite rx_lits; [eauto|].
    repeat constructor.
  - apply rx_alt_r, rx_alt_l. rewrite rx_lits by apply lits_same. eauto.
  - apply rx_alt_r, rx_alt_r. rewrite rx_lits by apply lits_same. eauto.
  - apply rx_alt_r, rx_alt_r. rewrite rx_lits; [eauto|].
    repeat constructor.
Qed.

Lemma ch_is_i_dot (a : char) : ch_is_i 46%N a = true -> a = 46%N.
Proof.
  destruct (N.eqb_spec a 46) as [->|Hne]; [reflexivity|].
  unfold ch_is_i. apply N.eqb_neq in Hne. rewrite Hne. cbn. discriminate.
Qed.

Lemma ch_is_i_lpar (a : char) : ch_is_i 40%N a = true -> a = 40%N.
Proof.
  destruct (N.eqb_spec a 40) as [->|Hne]; [reflexivity|].
  unfold ch_is_i. apply N.eqb_neq in Hne. rewrite Hne. cbn. discriminate.
Qed.

Lemma ch_is_i_rpar (a : char) : ch_is_i 41%N a = true -> a = 41%N.
Proof.
  destruct (N.eqb_spec a 41) as [->|Hne]; [reflexivity|].
  unfold ch_is_i. apply N.eqb_neq in Hne. rewrite Hne. cbn. discriminate.
Qed.

Lemma hybrid_match_marker (off : nat) (s : str) (m : rmatch) :
  match_at hybrid_re off s = Some m ->
  exists mk post, In mk hybrid_markers /\ s = mk ++ post.
Proof.
  unfold match_at, hybrid_re. rewrite !lit_i_lits. intros H.
  apply rx_alt_inv in H as [[y H]|[y H]]; [|apply rx_alt_inv in H as [[z H]|[z H]]];
    apply rx_lits_inv in H as (l' & rest & -> & Hf & _).
  - change (utf8 "(x)") with [40%N; 120%N; 41%N] in Hf.
    inversion Hf as [|? a1 ? l1 Ha1 Hf1]; subst.
    inversion Hf1 as [|? a2 ? l2 Ha2 Hf2]; subst.
    inversion Hf2 as [|? a3 ? l3 Ha3 Hf3]; subst.
    inversion Hf3; subst.
    apply ch_is_i_lpar in Ha1. apply ch_is_i_rpar in Ha3. subst a1 a3.
    apply ch_is_i_x in Ha2 as [->| ->].
    + exists (utf8 "(x)"), rest. split; [left; reflexivity|reflexivity].
    + exists (utf8 "(X)"), rest. split; [right; left; reflexivity|reflexivity].
  - change (utf8 "×") with [215%N] in Hf.
    inversion Hf as [|? a1 ? l1 Ha1 Hf1]; subst. inversion Hf1; subst.
    apply ch_is_i_times in Ha1. subst a1.
    exists (utf8 "×"), rest. split; [right; right; left; reflexivity|reflexivity].
  - change (utf8 "x.") with [120%N; 46%N] in Hf.
    inversion Hf as [|? a1 ? l1 Ha1 Hf1]; subst.
    inversion Hf1 as [|? a2 ? l2 Ha2 Hf2]; subst. inversion Hf2; subst.
    apply ch_is_i_dot in Ha2. subst a2.
    apply ch_is_i_x in Ha1 as [->| ->].
    + exists (utf8 "x."), rest.
      split; [right; right; right; left; reflexivity|reflexivity].
    + exists (utf8 "X."), rest.
      split; [right; right; right; right; left; reflexivity|reflexivity].
Qed.

(** X13.  [is_hybrid] holds of a text exactly when the text contains one of
    (x), (X), the multiplication sign, x. or X.; a bare x with neither
    brackets nor a dot after it is not a marker. *)
Theorem is_hybrid_markers (text : str) :
  is_hybrid text = true <->
  exists pre m post, In m hybrid_markers /\ text = pre ++ m ++ post.
Proof.
  split.
  - intros H. unfold is_hybrid, re_search in H.
    apply bool_decide_eq_true_1 in H as [m Hm].
    apply search_from_inv in Hm as (pre & s' & -> & Hm).
    apply hybrid_match_marker in Hm as (mk & post & Hmk & ->).
    exists pre, mk, post. split; [exact Hmk|reflexivity].
  - intros (pre & m & post & Hm & ->). unfold is_hybrid, re_search.
    apply bool_decide_eq_true_2, search_from_found, marker_matches, Hm.
Qed.

(** ** The name in a link target *)

Lemma star_chr_greedy {R} (p : char -> bool) (k : nat -> str -> caps -> option R)
    (w t : str) (n off : nat) (c : caps) (x : R) :
  Forall (fun a => p a = true) w ->
  length w <= n ->
  match t with a :: _ => p a = false | [] => True end ->
  k (off + length w) t c = Some x ->
  star_loop (rChr p) k n off (w ++ t) c = Some x.
Proof.
  intros Hw. revert n off. induction Hw as [|a w Ha Hw IH]; intros n off Hn Ht Hk.
  - simpl in Hk. rewrite Nat.add_0_r in Hk. cbn [app].
    destruct n as [|n]; [exact Hk|]. cbn [star_loop]. rewrite rx_chr.
    destruct t as [|a t]; [exact Hk|]. rewrite Ht. exact Hk.
  - destruct n as [|n]; [simpl in Hn; lia|].
    cbn [star_loop app]. rewrite rx_chr, Ha.
    assert (Hlt : Nat.ltb off (S off) = true) by (apply Nat.ltb_lt; lia).
    rewrite Hlt.
    rewrite IH; [reflexivity|simpl in Hn; lia|exact Ht|].
    rewrite <- Hk. f_equal. cbn [length]. lia.
Qed.

Lemma star_chr_inv {R} (p : char -> bool) (k : nat -> str -> caps -> option R)
    (n off : nat) (s : str) (c : caps) (x : R) :
  star_loop (rChr p) k n off s c = Some x ->
  exists w t, s = w ++ t /\ Forall (fun a => p a = true) w /\
              k (off + length w) t c = Some x.
Proof.
  revert off s. induction n as [|n IH]; intros off s.
  - cbn [star_loop]. intros H. exists [], s. rewrite Nat.add_0_r. auto.
  - cbn [star_loop]. rewrite rx_chr.
    assert (Hstop : k off s c = Some x ->
              exists w t, s = w ++ t /\ Forall (fun a => p a = true) w /\
                          k (off + length w) t c = Some x).
    { intros H. exists [], s. rewrite Nat.add_0_r. auto. }
    destruct s as [|a s']; [exact Hstop|].
    destruct (p a) eqn:Ha; [|exact Hstop].
    assert (Hlt : Nat.ltb off (S off) = true) by (apply Nat.ltb_lt; lia).
    rewrite Hlt.
    destruct (star_loop (rChr p) k n (S off) s' c) as [y|] eqn:E; [|exact Hstop].
    intros [= ->]. apply (IH (S off) s') in E as (w & t & -> & Hw & Hk).
    exists (a :: w), t. split; [reflexivity|]. split; [constructor; assumption|].
    rewrite <- Hk. f_equal. cbn [length]. lia.
Qed.

Lemma ch_isnt_true (c a : char) : ch_isnt c a = true <-> a <> c.
Proof.
  unfold ch_isnt. rewrite negb_true_iff. apply N.eqb_neq.
Qed.

Lemma species_re_unfold :
  species_re =
  rSeq (lits_i (utf8 "quercus_"))
    (rSeq (rGroup 1 (rSeq (rChr (ch_isnt 46%N)) (rStar (rChr (ch_isnt 46%N)))))
       (lits_i (utf8 ".htm"))).
Proof. reflexivity. Qed.

Lemma rx_group {R} (i : nat) (r1 : regex) (off : nat) (s : str) (c : caps)
    (k : nat -> str -> caps -> option R) :
  rx (rGroup i r1) off s c k =
  rx r1 off s c (fun off' s' c' => k off' s' ((i, take (off' - off) s) :: c')).
Proof. reflexivity. Qed.

Lemma species_match (off : nat) (s : str) :
  s <> [] -> Forall (fun a => a <> 46%N) s ->
  match_at species_re off (utf8 "quercus_" ++ s ++ utf8 ".htm") =
  Some {| m_start := off;
          m_end := off + length (utf8 "quercus_") + length s + length (utf8 ".htm");
          m_caps := [(1, s)] |}.
Proof.
  intros Hne Hall. destruct s as [|a w]; [congruence|].
  inversion Hall as [|? ? Ha Hw]; subst.
  unfold match_at. rewrite species_re_unfold, rx_seq.
  rewrite rx_lits by apply lits_same.
  rewrite rx_seq, rx_group, rx_seq. cbn [app]. rewrite rx_chr.
  rewrite (proj2 (ch_isnt_true 46%N a) Ha).
  rewrite rx_star.
  erewrite star_chr_greedy; [reflexivity| | | |].
  - eapply Forall_impl; [exact Hw|]. intros x Hx. apply ch_isnt_true, Hx.
  - rewrite length_app. lia.
  - reflexivity.
  - cbv beta. rewrite rx_lits_nil by apply lits_same.
    f_equal. f_equal; [cbn [length]; lia|].
    f_equal. f_equal.
    replace (S (off + length (utf8 "quercus_")) + length w - (off + length (utf8 "quercus_")))
      with (length (a :: w)) by (cbn [length]; lia).
    change (a :: w ++ utf8 ".htm") with ((a :: w) ++ utf8 ".htm").
    apply take_app_length.
Qed.

Lemma species_match_inv (off : nat) (u : str) (m : rmatch) :
  match_at species_re off u = Some m ->
  exists q s post,
    u = q ++ s ++ 46%N :: post /\
    length q = length (utf8 "quercus_") /\
    s <> [] /\ Forall (fun a => a <> 46%N) s /\
    m_caps m = [(1, s)].
Proof.
  unfold match_at. rewrite species_re_unfold, rx_seq. intros H.
  apply rx_lits_inv in H as (q & rest & -> & Hq & H).
  rewrite rx_seq, rx_group, rx_seq, rx_chr in H.
  destruct rest as [|a rest']; [discriminate|].
  destruct (ch_isnt 46%N a) eqn:Ha; [|discriminate].
  rewrite rx_star in H.
  apply star_chr_inv in H as (w & t & -> & Hw & H). cbv beta in H.
  apply rx_lits_inv in H as (h & post & -> & Hh & H).
  injection H as <-. cbn [m_caps].
  change (utf8 ".htm") with [46%N; 104%N; 116%N; 109%N] in Hh.
  inversion Hh as [|? d ? h' Hd _]; subst.
  apply ch_is_i_dot in Hd. subst d.
  exists q, (a :: w), (h' ++ post).
  split; [reflexivity|].
  split; [symmetry; eapply Forall2_length; exact Hq|].
  split; [discriminate|]. split.
  - constructor; [apply ch_isnt_true, Ha|].
    eapply Forall_impl; [exact Hw|]. intros x Hx. apply ch_isnt_true, Hx.
  - f_equal. f_equal.
    change (a :: w ++ (46%N :: h') ++ post) with ((a :: w) ++ (46%N :: h') ++ post).
    match goal with
    | |- take ?n _ = _ =>
        replace n with (length (a :: w)) by (cbn [length]; lia)
    end.
    apply take_app_length.
Qed.

Lemma species_from_url_inv (u s : str) :
  extract_species_from_url u = Some s ->
  s <> [] /\ Forall (fun a => a <> 46%N) s /\
  exists pre post, u = pre ++ s ++ 46%N :: post /\ 8 <= length pre.
Proof.
  unfold extract_species_from_url, re_search.
  destruct (search_from species_re 0 u) as [m|] eqn:E; [|discriminate].
  intros [= <-].
  apply search_from_inv in E as (pre & u' & -> & Hm).
  apply species_match_inv in Hm as (q & s & post & -> & Hq & Hne & Hall & Hc).
  rewrite Hc. cbn. split; [exact Hne|]. split; [exact Hall|].
  exists (pre ++ q), post. split; [rewrite <- app_assoc; reflexivity|].
  rewrite length_app, Hq. change (length (utf8 "quercus_")) with 8. lia.
Qed.

(** X14.  A page name made of the prefix, a non-empty name without a dot
    and the extension gives that name back: [extract_species_from_url]
    inverts the way the links of the list are built. *)
Theorem extract_species_from_url_round_trip (s : str) :
  s <> [] -> Forall (fun a => a <> 46%N) s ->
  extract_species_from_url (utf8 "quercus_" ++ s ++ utf8 ".htm") = Some s.
Proof.
  intros Hne Hall. unfold extract_species_from_url, re_search.
  rewrite (search_from_first _ _ _ _ (species_match 0 s Hne Hall)). reflexivity.
Qed.

Lemma extract_species_from_url_round_trip_witness :
  extract_species_from_url (utf8 "quercus_" ++ utf8 "alba" ++ utf8 ".htm") =
  Some (utf8 "alba").
Proof.
  apply (extract_species_from_url_round_trip (utf8 "alba")).
  - vm_compute. discriminate.
  - vm_compute. repeat (apply List.Forall_cons; [discriminate|]). apply List.Forall_nil.
Defined.

(** X15.  A name [extract_species_from_url] finds is never empty and holds
    no dot, and it stands in the address before a dot and after at least
    the eight characters of the prefix. *)
Theorem extract_species_from_url_sound (u s : str) :
  extract_species_from_url u = Some s ->
  s <> [] /\ Forall (fun a => a <> 46%N) s /\
  exists pre post, u = pre ++ s ++ 46%N :: post /\ 8 <= length pre.
Proof. apply species_from_url_inv. Qed.

Lemma extract_species_from_url_sound_witness :
  let u := ex_base ++ utf8 "Quercus_alba.htm.bak" in
  let s := utf8 "alba" in
  extract_species_from_url u = Some s /\
  exists pre post, u = pre ++ s ++ 46%N :: post /\ 8 <= length pre.
Proof.
  intros u s.
  assert (H : extract_species_from_url u = Some s) by (vm_compute; reflexivity).
  split; [exact H|].
  destruct (extract_species_from_url_sound u s H) as (_ & _ & Hex). exact Hex.
Defined.

(** ** Resolved names *)

Lemma linked_snoc (m : gmap str str) (p : list str) (n next : str) :
  linked m p n -> m !! n = Some next -> linked m (p ++ [n]) next.
Proof.
  revert n. induction p as [|a p IH]; intros n Hc Hn; simpl.
  - auto.
  - destruct Hc as [Ha Hc]. split; [|apply IH; assumption].
    destruct p; simpl in *; exact Ha.
Qed.

Lemma linked_suffix (m : gmap str str) (p1 p2 : list str) (z : str) :
  linked m (p1 ++ p2) z -> linked m p2 z.
Proof.
  induction p1 as [|a p1 IH]; [auto|]. simpl. intros [_ H]. apply IH, H.
Qed.

(** Following a chain of unvisited names. *)
Lemma resolve_follow (m : gmap str str) (q : list str) (z : str) (v : gset str)
    (fuel : nat) :
  linked m q z -> List.NoDup q -> (forall a, In a q -> a ∉ v) ->
  resolve_synonym (length q + fuel) (hd z q) m v =
  resolve_synonym fuel z m (list_to_set q ∪ v).
Proof.
  revert v. induction q as [|a q IH]; intros v Hc Hnd Hv.
  - simpl. f_equal. symmetry. apply union_empty_l_L.
  - destruct Hc as [Ha Hc]. inversion Hnd as [|? ? Hnot Hnd']; subst.
    cbn [length Nat.add hd resolve_synonym].
    rewrite bool_decide_eq_false_2 by (apply Hv; left; reflexivity).
    rewrite Ha. rewrite IH; [f_equal|exact Hc|exact Hnd'|].
    { rewrite list_to_set_cons. apply set_eq. intros y.
      rewrite !elem_of_union. tauto. }
    intros b Hb. apply not_elem_of_union. split.
    + apply not_elem_of_singleton. intros ->. contradiction.
    + apply Hv. right. exact Hb.
Qed.

(** The end of a walk is no key, or sits at the head of a chain back to
    itself that is no longer than the walk. *)
Lemma resolve_end (m : gmap str str) (frames : nat) (n : str) (p : list str)
    (x : logged str) :
  linked m p n -> List.NoDup p ->
  resolve_synonym frames n m (list_to_set p) = Some x ->
  m !! fst x = None \/
  exists q, linked m (fst x :: q) (fst x) /\ List.NoDup (fst x :: q) /\
            length (fst x :: q) < length p + frames.
Proof.
  revert n p x. induction frames as [|frames IH]; intros n p x Hc Hnd; [discriminate|].
  simpl. case_bool_decide as Hv.
  - intros [= <-]. right. cbn [ret fst].
    apply elem_of_list_to_set, list_elem_of_In, in_split in Hv as (p1 & p2 & ->).
    exists p2. split; [|split].
    + exact (linked_suffix m p1 (n :: p2) n Hc).
    + apply NoDup_ListNoDup in Hnd. apply NoDup_app in Hnd as (_ & _ & H).
      apply NoDup_ListNoDup. exact H.
    + rewrite length_app. simpl. lia.
  - destruct (m !! n) as [next|] eqn:Hm.
    + intros H.
      destruct (IH next (p ++ [n]) x) as [Hnone|(q & Hq & Hndq & Hlen)].
      * apply linked_snoc; assumption.
      * apply NoDup_ListNoDup. apply NoDup_app. split; [apply NoDup_ListNoDup, Hnd|].
        split; [|apply NoDup_singleton].
        intros a Ha Ha'. apply list_elem_of_singleton in Ha'. subst a.
        apply Hv, elem_of_list_to_set, Ha.
      * rewrite list_to_set_app_L. simpl.
        replace (list_to_set p ∪ ({[n]} ∪ ∅)) with ({[n]} ∪ list_to_set p : gset str)
          by (apply set_eq; intros y; rewrite !elem_of_union, elem_of_empty; tauto).
        exact H.
      * left. exact Hnone.
      * right. exists q. split; [exact Hq|]. split; [exact Hndq|].
        rewrite length_app in Hlen. simpl in Hlen. lia.
    + intros [= <-]. left. exact Hm.
Qed.

(** X16.  Resolving is idempotent: the name a call of [resolve_synonym]
    returns resolves to itself, with the frames the call had.  So a
    resolved name is never resolved further, whether the walk ended at a
    name that is no key or inside a cycle. *)
Theorem resolve_synonym_idempotent (frames : nat) (name : str)
    (synonym_map : gmap str str) (r : str) (notes : list note) :
  resolve_synonym frames name synonym_map ∅ = Some (r, notes) ->
  resolve_synonym frames r synonym_map ∅ = Some (r, []).
Proof.
  intros H.
  assert (Hpos : 0 < frames) by (destruct frames; [discriminate|lia]).
  apply (resolve_end synonym_map frames name []) in H; [|exact I|constructor].
  cbn [fst length Nat.add] in H.
  destruct H as [Hnone|(q & Hc & Hnd & Hlen)].
  - destruct frames as [|frames]; [lia|]. simpl.
    rewrite bool_decide_eq_false_2 by apply not_elem_of_empty.
    rewrite Hnone. reflexivity.
  - apply (resolve_synonym_more synonym_map (length (r :: q) + 1)); [|cbn [length]; lia].
    pose proof (resolve_follow synonym_map (r :: q) r ∅ 1 Hc Hnd) as Hf.
    cbn [hd] in Hf. rewrite Hf by (intros a _; apply not_elem_of_empty).
    cbn [resolve_synonym]. rewrite bool_decide_eq_true_2; [reflexivity|].
    apply elem_of_union_l, elem_of_list_to_set. left.
Qed.

(** On the chain from a over aa to aaa: a resolves to aaa, and aaa to
    itself. *)
Lemma resolve_synonym_idempotent_witness :
  resolve_synonym 3 (chain_name 0) (chain_map 2) ∅ = Some (chain_name 2, []) /\
  resolve_synonym 3 (chain_name 2) (chain_map 2) ∅ = Some (chain_name 2, []).
Proof.
  assert (H : resolve_synonym 3 (chain_name 0) (chain_map 2) ∅ = Some (chain_name 2, []))
    by (vm_compute; reflexivity).
  split; [exact H|].
  exact (resolve_synonym_idempotent 3 (chain_name 0) (chain_map 2) (chain_name 2) [] H).
Defined.

(** ** Names and list fields of the species pages *)

Lemma startswith_app (p rest : str) : startswith (p ++ rest) p = true.
Proof.
  induction p as [|a p IH]; [destruct rest; reflexivity|].
  simpl. rewrite N.eqb_refl. exact IH.
Qed.

Lemma contains_app (sub a b : str) : contains sub (a ++ sub ++ b) = true.
Proof.
  induction a as [|c a IH].
  - cbn [app]. destruct (sub ++ b) eqn:E; cbn [contains]; rewrite <- E;
      rewrite startswith_app; reflexivity.
  - cbn [app contains]. rewrite IH. apply orb_true_r.
Qed.

Lemma replace_first_head (old new rest : str) :
  replace_first old new (old ++ rest) = new ++ rest.
Proof.
  destruct (old ++ rest) eqn:E; cbn [replace_first]; rewrite <- E;
    rewrite startswith_app, drop_app_length; reflexivity.
Qed.

Lemma startswith_split (s p : str) : startswith s p = true -> exists rest, s = p ++ rest.
Proof.
  revert s. induction p as [|a p IH]; intros s; [eauto|].
  destruct s as [|b s]; [discriminate|]. simpl.
  intros H. apply andb_true_iff in H as [Hab Hs].
  apply N.eqb_eq in Hab. subst b. apply IH in Hs as [rest ->]. eauto.
Qed.

(** X17.  A name that [normalize_species_name] normalises as a hybrid
    always carries a cross: the result holds the multiplication sign, or it
    is the input with every (x) removed and stripped, and that holds an x
    between spaces, in either case. *)
Theorem normalize_species_name_hybrid (py : PyLib) (name : str) :
  let r := normalize_species_name py name true in
  contains (utf8 "×") r = true \/
  (r = strip (str_replace (utf8 "(x)") [] name) /\
   contains (utf8 " x ") (lower py r) = true).
Proof.
  unfold normalize_species_name. cbv zeta.
  set (n := strip (str_replace (utf8 "(x)") [] name)).
  cbn [andb].
  destruct (contains (utf8 "×") n) eqn:Hc; [left; exact Hc|].
  destruct (contains (utf8 " x ") (lower py n)) eqn:Hx; [right; auto|].
  cbn [negb andb]. left.
  destruct (startswith n (utf8 "Quercus ")) eqn:Hs.
  - apply startswith_split in Hs as [rest ->]. rewrite replace_first_head.
    change (utf8 "Quercus × ") with (utf8 "Quercus " ++ utf8 "×" ++ utf8 " ").
    rewrite <- !app_assoc. apply contains_app.
  - change (utf8 "× ") with ([] ++ utf8 "×" ++ utf8 " ").
    rewrite <- !app_assoc. apply (contains_app (utf8 "×") []).
Qed.

(** ** The list fields *)

Lemma rstrip_cons (c : char) (s : str) :
  rstrip (c :: s) =
  match rstrip s with
  | [] => if isspace c then [] else [c]
  | x :: r => c :: x :: r
  end.
Proof. reflexivity. Qed.

Lemma rstrip_idem (s : str) : rstrip (rstrip s) = rstrip s.
Proof.
  induction s as [|c s IH]; [reflexivity|].
  rewrite rstrip_cons. destruct (rstrip s) as [|r0 r] eqn:E.
  - destruct (isspace c) eqn:Hc; [reflexivity|]. simpl. rewrite Hc. reflexivity.
  - rewrite rstrip_cons, IH. reflexivity.
Qed.

Lemma strip_idem (s : str) : strip (strip s) = strip s.
Proof.
  unfold strip at 1. destruct (strip s) as [|c t] eqn:E; [reflexivity|].
  pose proof (strip_head s c t E) as Hc.
  rewrite lstrip_solid_head by exact Hc.
  pose proof (rstrip_idem (lstrip s)) as H. fold (strip s) in H.
  rewrite E in H. exact H.
Qed.

(** The leftmost character of a class. *)
Lemma search_chr (p : char -> bool) (off : nat) (s : str) :
  match search_from (rChr p) off s with
  | Some m =>
      exists pre a post,
        s = pre ++ a :: post /\ Forall (fun x => p x = false) pre /\ p a = true /\
        m_start m = off + length pre /\ m_end m = S (off + length pre)
  | None => Forall (fun x => p x = false) s
  end.
Proof.
  revert off. induction s as [|a s IH]; intros off.
  - simpl. constructor.
  - cbn [search_from]. unfold match_at. rewrite rx_chr.
    destruct (p a) eqn:Ha.
    + exists [], a, s. cbn. rewrite Nat.add_0_r. auto.
    + specialize (IH (S off)). destruct (search_from (rChr p) (S off) s) as [m|].
      * destruct IH as (pre & b & post & -> & Hpre & Hb & Hs & He).
        exists (a :: pre), b, post. cbn [length].
        split; [reflexivity|]. split; [constructor; assumption|].
        split; [exact Hb|]. split; lia.
      * constructor; assumption.
Qed.

Lemma pieces_clean (p : char -> bool) (fuel off : nat) (s : str) :
  length s < fuel ->
  Forall (Forall (fun x => p x = false)) (pieces (scan fuel (rChr p) off s) off s).
Proof.
  revert off s. induction fuel as [|fuel IH]; intros off s Hlt; [lia|].
  cbn [scan]. pose proof (search_chr p off s) as Hs.
  destruct (search_from (rChr p) off s) as [m|].
  - destruct Hs as (pre & a & post & -> & Hpre & Ha & Hst & Hen).
    assert (Hlt' : Nat.ltb (m_start m) (m_end m) = true) by (apply Nat.ltb_lt; lia).
    rewrite Hlt'. cbn [pieces].
    replace (m_start m - off) with (length pre) by lia.
    replace (m_end m - off) with (length (pre ++ [a])) by (rewrite length_app; simpl; lia).
    rewrite take_app_length.
    replace (pre ++ a :: post) with ((pre ++ [a]) ++ post) by (rewrite <- app_assoc; reflexivity).
    rewrite drop_app_length.
    constructor; [exact Hpre|]. apply IH.
    rewrite !length_app in Hlt. simpl in Hlt. lia.
  - cbn [pieces]. constructor; [exact Hs|constructor].
Qed.

(** X18.  Every item [split_list_field] returns is non-empty, has no white
    space at either end and holds neither a semicolon nor a comma; the
    empty text and the text of three hyphens give no item. *)
Theorem split_list_field_items (text : str) :
  Forall (fun item =>
            item <> [] /\ strip item = item /\
            Forall (fun c => c <> 59%N /\ c <> 44%N) item)
    (split_list_field text) /\
  split_list_field [] = [] /\
  split_list_field (utf8 "---") = [].
Proof.
  split; [|split; reflexivity].
  unfold split_list_field.
  destruct (negb (truthy text) || str_eqb text (utf8 "---")); [constructor|].
  apply Forall_forall. intros item Hin. apply list_elem_of_In in Hin.
  apply in_map_iff in Hin as (piece & <- & Hp).
  apply filter_In in Hp as [Hp Ht].
  split; [destruct (strip piece); [discriminate|discriminate]|].
  split; [apply strip_idem|].
  apply strip_Forall.
  pose proof (pieces_clean (fun a => (a =? 59)%N || (a =? 44)%N)
                (S (length text)) 0 text ltac:(lia)) as Hc.
  rewrite Forall_forall in Hc.
  specialize (Hc piece (proj2 (list_elem_of_In _ _) Hp)).
  eapply Forall_impl; [exact Hc|]. intros c Hcc. cbn beta in Hcc.
  apply orb_false_iff in Hcc as [H1 H2].
  apply N.eqb_neq in H1, H2. auto.
Qed.

Lemma search_chr_none (p : char -> bool) (off : nat) (s : str) :
  Forall (fun x => p x = false) s -> search_from (rChr p) off s = None.
Proof.
  intros Hall. pose proof (search_chr p off s) as Hs.
  destruct (search_from (rChr p) off s) as [m|]; [|reflexivity].
  destruct Hs as (pre & a & post & -> & _ & Ha & _).
  apply Forall_app in Hall as [_ Hall]. inversion Hall; congruence.
Qed.

(** X19.  A text without a semicolon or a comma that is not blank and is
    not the three hyphens is one item: [split_list_field] returns the text
    stripped, and nothing else.  Only the exact text of three hyphens is
    dropped; with a space around it, it is an item. *)
Theorem split_list_field_single (text : str) :
  Forall (fun c => c <> 59%N /\ c <> 44%N) text ->
  strip text <> [] -> text <> utf8 "---" ->
  split_list_field text = [strip text].
Proof.
  intros Hall Hs Hne. unfold split_list_field.
  assert (Ht : truthy text = true).
  { destruct text; [exfalso; apply Hs; reflexivity|reflexivity]. }
  rewrite Ht. cbn [negb orb].
  destruct (str_eqb text (utf8 "---")) eqn:E;
    [apply str_eqb_true in E; contradiction|].
  unfold re_split, re_finditer, separator_re. cbn [scan].
  rewrite search_chr_none.
  - cbn [pieces List.filter]. destruct (strip text) eqn:Es; [contradiction|].
    cbn [truthy List.map]. rewrite Es. reflexivity.
  - eapply Forall_impl; [exact Hall|]. intros c [H1 H2]. cbn beta.
    apply orb_false_iff. split; apply N.eqb_neq; assumption.
Qed.

(** Three hyphens between spaces are an item. *)
Lemma split_list_field_single_witness :
  split_list_field (utf8 " --- ") = [utf8 "---"].
Proof.
  apply (split_list_field_single (utf8 " --- ")).
  - vm_compute. repeat (apply List.Forall_cons; [split; discriminate|]).
    apply List.Forall_nil.
  - vm_compute. discriminate.
  - vm_compute. discriminate.
Defined.

(** ** The notes of a line *)

Lemma bind_snd {A B} (m : logged A) (f : A -> logged B) :
  snd (bind m f) = snd m ++ snd (f (fst m)).
Proof. destruct m as [a n]; simpl. destruct (f a); reflexivity. Qed.

Lemma log_when_notes {A} (b : bool) (n : note) (x : A) :
  single_link_note n -> Forall single_link_note (snd (log_when b n ;;; ret x)).
Proof.
  intros Hn. rewrite log_when_ret. destruct b; repeat constructor. exact Hn.
Qed.

Section ParserNotes.
Variable py : PyLib.

Lemma parse_accepted_species_notes v u s l :
  Forall single_link_note (snd (parse_accepted_species py v u s l)).
Proof.
  unfold parse_accepted_species. destruct (split v); [constructor|].
  apply log_when_notes. exact I.
Qed.

Lemma parse_accepted_hybrid_notes v u s l :
  Forall single_link_note (snd (parse_accepted_hybrid py v u s l)).
Proof. unfold parse_accepted_hybrid. apply log_when_notes. exact I. Qed.

Lemma parse_synonym_equals_notes v u s l :
  Forall single_link_note (snd (parse_synonym_equals py v u s l)).
Proof.
  unfold parse_synonym_equals.
  destruct (re_split1 equals_re v) as [|p0 [|p1 [|? ?]]]; try constructor.
  destruct (equals_rhs py (split (strip p1))). apply log_when_notes. exact I.
Qed.

Lemma parse_synonym_see_notes v u s l :
  Forall single_link_note (snd (parse_synonym_see py v u s l)).
Proof.
  unfold parse_synonym_see.
  destruct (re_split1 see_re v) as [|p0 [|p1 [|? ?]]]; try constructor.
  apply log_when_notes. exact I.
Qed.

Lemma parse_other_link_notes v u s l :
  Forall single_link_note (snd (parse_other_link py v u s l)).
Proof.
  unfold parse_other_link. destruct (find_name py s (split v)).
  apply log_when_notes. exact I.
Qed.

End ParserNotes.

Lemma size_hrefs (h1 : str) (l : list str) :
  Nat.ltb 1 (size (list_to_set (h1 :: l) : gset str)) = true <->
  Exists (fun h => h <> h1) l.
Proof.
  rewrite Nat.ltb_lt. split.
  - intros Hsz. apply not_Forall_Exists; [intros x; apply decide; apply _|].
    intros Hall.
    assert (Heq : (list_to_set (h1 :: l) : gset str) = {[h1]}).
    { apply set_eq. intros x. rewrite elem_of_list_to_set, elem_of_singleton.
      split; [|intros ->; left].
      intros Hx. apply elem_of_cons in Hx as [->|Hx]; [reflexivity|].
      rewrite Forall_forall in Hall. exact (Hall x Hx). }
    rewrite Heq, size_singleton in Hsz. lia.
  - intros Hex. apply Exists_exists in Hex as (h & Hh & Hne).
    assert (Hsub : ({[h1]} ∪ {[h]} : gset str) ⊆ list_to_set (h1 :: l)).
    { intros x Hx. apply elem_of_list_to_set.
      apply elem_of_union in Hx as [Hx|Hx]; apply elem_of_singleton in Hx; subst x.
      - left.
      - right. exact Hh. }
    apply subseteq_size in Hsub.
    rewrite size_union in Hsub.
    + rewrite !size_singleton in Hsub. lia.
    + intros x Hx1 Hx2. apply elem_of_singleton in Hx1, Hx2. congruence.
Qed.

(** X20.  [parse_line] notes several links exactly when a later link of
    the line has another target than the first one, and then the note comes
    first and names the targets and the visible text; a line whose links
    all have the target of the first gets no such note.  Whatever else is
    noted for the line is of another kind. *)
Theorem parse_line_multiple_links (py : PyLib) (line base_url h1 t1 : str)
    (rest : list (str * str)) :
  extract_links_from_line py (strip line) = (h1, t1) :: rest ->
  exists more,
    Forall single_link_note more /\
    snd (parse_line py line base_url) =
    (if bool_decide (Exists (fun l => fst l <> h1) rest)
     then [MultipleLinks (list_to_set (h1 :: List.map fst rest))
             (strip_html_tags py (strip line))]
     else []) ++ more.
Proof.
  intros Hl. unfold parse_line. rewrite Hl. rewrite bind_snd.
  cbn [List.map fst].
  eexists. split; [|f_equal].
  2:{ destruct (Nat.ltb 1 (size (list_to_set (h1 :: List.map fst rest) : gset str))) eqn:E.
      - rewrite bool_decide_eq_true_2; [reflexivity|].
        apply size_hrefs in E. apply Exists_exists in E as (h & Hh & Hne).
        apply list_elem_of_In, in_map_iff in Hh as (x & <- & Hx).
        apply Exists_exists. exists x. split; [apply list_elem_of_In; exact Hx|exact Hne].
      - rewrite bool_decide_eq_false_2; [reflexivity|].
        intros Hex. apply not_true_iff_false in E. apply E, size_hrefs.
        apply Exists_exists in Hex as (x & Hx & Hne).
        apply Exists_exists. exists (fst x). split; [|exact Hne].
        apply list_elem_of_In, in_map, list_elem_of_In, Hx. }
  cbv beta.
  destruct (extract_species_from_url h1) as [s|].
  2:{ repeat constructor. }
  destruct (truthy s).
  2:{ repeat constructor. }
  cbv zeta.
  repeat match goal with |- context [if ?b then _ else _] => destruct b end;
    first [apply parse_synonym_see_notes | apply parse_synonym_equals_notes
          | apply parse_accepted_hybrid_notes | apply parse_accepted_species_notes
          | apply parse_other_link_notes].
Qed.

Lemma find_name_found (py : PyLib) (s : str) (words : list str) :
  Forall is_word words ->
  truthy_opt (fst (find_name py s words)) =
  existsb (fun w => str_eqb (lower py w) (lower py s)) words /\
  (existsb (fun w => str_eqb (lower py w) (lower py s)) words = false ->
   snd (find_name py s words) = None).
Proof.
  induction 1 as [|w ws Hw Hws IH]; [split; reflexivity|].
  simpl. destruct (str_eqb (lower py w) (lower py s)); simpl.
  - split; [|discriminate]. destruct Hw as [Hne _]. destruct w; [contradiction|reflexivity].
  - exact IH.
Qed.

(** On a line with a link to alba and one to rubra. *)
Lemma parse_line_multiple_links_witness :
  exists hs txt more,
    snd (parse_line py_plain ex_two_links ex_base) = MultipleLinks hs txt :: more /\
    utf8 "quercus_alba.htm" ∈ hs /\ utf8 "quercus_rubra.htm" ∈ hs.
Proof.
  destruct (parse_line_multiple_links py_plain ex_two_links ex_base
              (utf8 "quercus_alba.htm") (utf8 "alba")
              [(utf8 "quercus_rubra.htm", utf8 "rubra")])
    as (more & _ & Hn).
  { vm_compute. reflexivity. }
  rewrite bool_decide_eq_true_2 in Hn
    by (apply List.Exists_cons_hd; vm_compute; discriminate).
  eexists _, _, more. split; [exact Hn|].
  split; apply elem_of_list_to_set; [left|right; left].
Defined.

(** X21.  [parse_other_link] never drops a line: it always returns an
    entry of type OTHER_LINK with the name taken from the link target and
    no synonyms.  It writes one note exactly when no word of the visible
    text is that name, letter case apart, and then the entry has no
    author; otherwise it writes none. *)
Theorem parse_other_link_flagged (py : PyLib) (visible_text u species_from_url line : str) :
  let found := existsb (fun w => str_eqb (lower py w) (lower py species_from_url))
                 (split visible_text) in
  exists e,
    parse_other_link py visible_text u species_from_url line =
      (Some e, if found then [] else [OtherLinkNotFound species_from_url visible_text]) /\
    e_type e = OTHER_LINK /\ species_name e = species_from_url /\ url e = u /\
    synonyms e = [] /\
    (found = false -> author e = None).
Proof.
  cbv zeta. unfold parse_other_link.
  destruct (find_name_found py species_from_url (split visible_text) (split_words _))
    as [Hf Hn].
  destruct (find_name py species_from_url (split visible_text)) as [t a].
  simpl fst in Hf. simpl snd in Hn.
  rewrite log_when_ret, Hf.
  eexists. split.
  - f_equal. destruct (existsb _ _); reflexivity.
  - simpl. repeat split. intros H. rewrite (Hn H). reflexivity.
Qed.

(** ** The fields of an entry *)

(** X22.  Every entry [parse_line] returns holds the stripped line as its
    raw line, the first link's target joined to the base address as its
    address, and a name without a dot.  An accepted species is never marked
    hybrid and an accepted hybrid always is; of the five types only the two
    synonym types carry synonyms, an equals line exactly one. *)
Theorem parse_line_fields (py : PyLib) (line base_url : str) (e : entry) :
  fst (parse_line py line base_url) = Some e ->
  raw_line e = strip line /\
  Forall (fun a => a <> 46%N) (species_name e) /\
  (exists href text rest,
     extract_links_from_line py (strip line) = (href, text) :: rest /\
     url e = urljoin py base_url href) /\
  match e_type e with
  | ACCEPTED_SPECIES => is_hybrid_flag e = false /\ synonyms e = []
  | ACCEPTED_HYBRID => is_hybrid_flag e = true /\ synonyms e = []
  | OTHER_LINK => synonyms e = []
  | SYNONYM_EQUALS => length (synonyms e) = 1
  | SYNONYM_SEE => True
  end.
Proof.
  intros H.
  destruct (parse_line_cases py line base_url e H)
    as (href & text & rest & s & Hl & Hs & Ht & Hc).
  apply species_from_url_inv in Hs as (_ & Hdot & _).
  cbv zeta in Hc.
  destruct Hc as [[_ Hp]|[(_ & _ & Hp)|[(_ & _ & _ & _ & Hp)|
                 [(_ & _ & _ & _ & Hp)|(_ & _ & _ & Hp)]]]].
  - rewrite parse_synonym_see_fst in Hp.
    destruct (re_split1 see_re _) as [|? [|? [|? ?]]]; try discriminate.
    injection Hp as <-. cbn [raw_line species_name url e_type is_hybrid_flag synonyms length]. repeat split; eauto.
  - rewrite parse_synonym_equals_fst in Hp.
    destruct (re_split1 equals_re _) as [|? [|? [|? ?]]]; try discriminate.
    injection Hp as <-. cbn [raw_line species_name url e_type is_hybrid_flag synonyms length]. repeat split; eauto.
  - destruct (parse_accepted_hybrid_fst py
                (strip_html_tags py (strip line)) (urljoin py base_url href) s (strip line))
      as [a Ha].
    rewrite Ha in Hp. injection Hp as <-. cbn [raw_line species_name url e_type is_hybrid_flag synonyms length]. repeat split; eauto.
  - rewrite parse_accepted_species_fst in Hp.
    destruct (split _); try discriminate.
    injection Hp as <-. cbn [raw_line species_name url e_type is_hybrid_flag synonyms length]. repeat split; eauto.
  - rewrite parse_other_link_fst in Hp. injection Hp as <-. cbn [raw_line species_name url e_type is_hybrid_flag synonyms length]. repeat split; eauto.
Qed.

(** On a see line with two synonyms. *)
Lemma parse_line_fields_witness :
  exists e,
    fst (parse_line py_plain ex_see ex_base) = Some e /\
    raw_line e = strip ex_see /\
    Forall (fun a => a <> 46%N) (species_name e) /\
    (exists href text rest,
       extract_links_from_line py_plain (strip ex_see) = (href, text) :: rest /\
       url e = urljoin py_plain ex_base href) /\
    match e_type e with
    | ACCEPTED_SPECIES => is_hybrid_flag e = false /\ synonyms e = []
    | ACCEPTED_HYBRID => is_hybrid_flag e = true /\ synonyms e = []
    | OTHER_LINK => synonyms e = []
    | SYNONYM_EQUALS => length (synonyms e) = 1
    | SYNONYM_SEE => True
    end.
Proof.
  eexists. split; [vm_compute; reflexivity|].
  apply (parse_line_fields py_plain ex_see ex_base). vm_compute. reflexivity.
Defined.
